(** * IFCtoSCR: wireframe decoding, centerline idealization and SCR output

    A shallow embedding of [IFCtoSCR.py] and the properties of its mesh
    decoder, beam and column idealizers, line serializer and orchestrator.

    Modelling conventions.
    - Coordinates are Python floats in the program.  The two idealizers are
      embedded twice.  Module [Float64] follows them in binary64 arithmetic
      ([spec_float], rounding to nearest even, with NaN, the infinities,
      the signed zeros and the [OverflowError] of [**]); the properties
      that depend on the arithmetic are stated there, in Part IV.
    - Outside that module coordinates are exact rationals ([Qc], canonical
      fractions, so that [==] is Leibniz equality), and [x ** 0.5] of a
      rational is kept symbolically as a [root] (the non-negative real
      whose square is the radicand); [root_value] maps it to the real
      number and [root_gt_sound] shows that the comparison used here is the
      comparison of those reals.  The decoder, the serializer and the
      orchestrator do no arithmetic on coordinates.
    - The iteration order of [list(set(...))] and [str] of a float are not
      fixed by the model: they are parameters of the decoder and of the
      pipeline, and every theorem holds for all of them.
    - Python exceptions are the constructors of [exn]; a function that may
      raise returns a [result].
    - The file system is a finite map from file names to contents; I/O
      errors and the messages printed to standard output are not
      modelled.
    - The external geometry kernel ([ifcopenshell]) is a parameter: the
      entities of each type, each with its id, tag and meshed shape. *)

From Stdlib Require Import QArith Qcanon Reals Qreals Lra.
From Stdlib Require Import Ascii.
From Stdlib Require Import SpecFloat.
From stdpp Require Import base decidable option numbers list strings gmap pretty.

(** * Part I: the program *)

(** ** Exceptions and results *)

(** The exceptions the program can raise, together with the two error kinds
    of the specification's taxonomy ([IdealizationError],
    [MalformedMeshError]).  No [raise] statement of the program names the
    latter two. *)
Inductive exn : Set :=
  | ValueError
  | ZeroDivisionError
  | IndexError
  | KeyError
  | OverflowError
  | IdealizationError
  | MalformedMeshError.

Global Instance exn_eq_dec : EqDecision exn.
Proof. solve_decision. Defined.

Inductive result (A : Type) : Type :=
  | Ok (a : A)
  | Raise (e : exn).
Arguments Ok {A} a.
Arguments Raise {A} e.

Global Instance result_ret : MRet result := λ A, Ok.
Global Instance result_bind : MBind result := λ A B f m,
  match m with
  | Ok a => f a
  | Raise e => Raise e
  end.

Definition is_Ok {A} (r : result A) : Prop := ∃ a, r = Ok a.

(** [for x in xs: acc = f(acc, x)], where the body may raise. *)
Fixpoint foldM {A B} (f : B → A → result B) (acc : B) (xs : list A) : result B :=
  match xs with
  | [] => Ok acc
  | x :: xs' => acc' ← f acc x; foldM f acc' xs'
  end.

(** [[f(x) for x in xs]], where [f] may raise. *)
Fixpoint mapM_result {A B} (f : A → result B) (xs : list A) : result (list B) :=
  match xs with
  | [] => Ok []
  | x :: xs' => y ← f x; ys ← mapM_result f xs'; Ok (y :: ys)
  end.

(** [l[i]] for an index produced by [range]. *)
Definition list_get {A} (l : list A) (i : nat) : result A :=
  match l !! i with
  | Some x => Ok x
  | None => Raise IndexError
  end.

(** [l[i]] for an arbitrary Python integer: a negative index counts from
    the end, anything outside [-len(l) .. len(l)-1] raises [IndexError]. *)
Definition py_index {A} (l : list A) (i : Z) : result A :=
  if decide (0 ≤ i)%Z then list_get l (Z.to_nat i)
  else if decide (- Z.of_nat (length l) ≤ i)%Z
       then list_get l (Z.to_nat (Z.of_nat (length l) + i))
       else Raise IndexError.

(** ** Geometry *)

Abbreviation Point3 := (Qc * Qc * Qc)%type.
Abbreviation Segment := (Point3 * Point3)%type.

(** [p[0]], [p[1]], [p[2]] *)
Definition px (p : Point3) : Qc := p.1.1.
Definition py (p : Point3) : Qc := p.1.2.
Definition pz (p : Point3) : Qc := p.2.

(** The value [q ** 0.5], kept by its radicand. *)
Record root : Set := Root { radicand : Qc }.

Global Instance root_eq_dec : EqDecision root.
Proof. solve_decision. Defined.

Definition root_gt (a b : root) : Prop := (radicand b < radicand a)%Qc.
Global Instance root_gt_dec a b : Decision (root_gt a b).
Proof. unfold root_gt. apply _. Defined.

Definition root_le (a b : root) : Prop := (radicand a ≤ radicand b)%Qc.

(** [r] is the rational number [v]. *)
Definition root_is (r : root) (v : Qc) : Prop :=
  (0 ≤ v)%Qc ∧ radicand r = (v * v)%Qc.

Definition root_value (r : root) : R := sqrt (Q2R (radicand r)).

(** [max(zs)]: the first greatest element; [ValueError] on an empty list. *)
Definition py_max (zs : list Qc) : result Qc :=
  match zs with
  | [] => Raise ValueError
  | z :: zs' => Ok (foldl (λ m y, if decide (m < y)%Qc then y else m) z zs')
  end.

(** ** Beam idealizer *)

Definition calcLength (line : Segment) : root :=
  Root ((px line.1 - px line.2) ^ 2
        + (py line.1 - py line.2) ^ 2
        + (pz line.1 - pz line.2) ^ 2)%Qc.

Definition calcMidPoint (line : Segment) : Point3 :=
  let x_mid := ((px line.1 + px line.2) / 2)%Qc in
  let y_mid := ((py line.1 + py line.2) / 2)%Qc in
  let z_mid := ((pz line.1 + pz line.2) / 2)%Qc in
  (x_mid, y_mid, z_mid).

(** The placeholder [((0., 0., 0.), (0., 0., 0.))]. *)
Definition origin_segment : Segment := ((0, 0, 0), (0, 0, 0))%Qc.

Definition idealizeBeam (elementLines : list Segment) : result Segment :=
  let zs := flat_map (λ line, [pz line.1; pz line.2]) elementLines in
  z_max ← py_max zs;
  let topLines :=
    filter (λ line, pz line.1 = z_max ∧ pz line.2 = z_max) elementLines in
  foldM (λ idealBeam i,
     line_i ← list_get topLines i;
     let init_point := calcMidPoint line_i in
     foldM (λ idealBeam j,
        line_j ← list_get topLines j;
        let end_point := calcMidPoint line_j in
        let candidate := (init_point, end_point) in
        if decide (root_gt (calcLength candidate) (calcLength idealBeam))
        then Ok candidate else Ok idealBeam)
       idealBeam (seq i (length topLines - i)))
    origin_segment (seq 0 (length topLines)).

(** *** The beam idealizer by its candidates *)

Definition endpoint_zs (elementLines : list Segment) : list Qc :=
  flat_map (λ line, [pz line.1; pz line.2]) elementLines.

Definition top_lines (z_max : Qc) (elementLines : list Segment) : list Segment :=
  filter (λ line, pz line.1 = z_max ∧ pz line.2 = z_max) elementLines.

(** The segment joining the midpoints of two lines. *)
Definition midpoint_segment (l1 l2 : Segment) : Segment :=
  (calcMidPoint l1, calcMidPoint l2).

(** Every pair of top lines at positions [i ≤ j], in the order of the two
    nested loops. *)
Fixpoint candidates (topLines : list Segment) : list Segment :=
  match topLines with
  | [] => []
  | t :: rest => map (midpoint_segment t) (t :: rest) ++ candidates rest
  end.

Definition beam_step (idealBeam candidate : Segment) : Segment :=
  if decide (root_gt (calcLength candidate) (calcLength idealBeam))
  then candidate else idealBeam.

Global Instance result_eq_dec {A} `{EqDecision A} : EqDecision (result A).
Proof. solve_decision. Defined.

(** [z] is the greatest z-coordinate among the endpoints of [lines]. *)
Definition is_z_max (z : Qc) (lines : list Segment) : Prop :=
  z ∈ endpoint_zs lines ∧ ∀ z', z' ∈ endpoint_zs lines → (z' ≤ z)%Qc.

(** [r] is the first segment of greatest length in [cands]. *)
Definition first_longest (r : Segment) (cands : list Segment) : Prop :=
  ∃ pre post, cands = pre ++ r :: post
    ∧ Forall (λ c, root_gt (calcLength r) (calcLength c)) pre
    ∧ Forall (λ c, root_le (calcLength c) (calcLength r)) post.

Definition positive_length (c : Segment) : Prop := (0 < radicand (calcLength c))%Qc.

(** *** Sample wireframes *)

(** A point with integer coordinates. *)
Definition pt (x y z : Z) : Point3 := (Qc_of_Z x, Qc_of_Z y, Qc_of_Z z).

Definition top_line_a : Segment := (pt 0 0 10, pt 4 0 10).
Definition top_line_b : Segment := (pt 0 2 10, pt 4 2 10).

Definition riser_only : list Segment := [(pt 0 0 0, pt 0 0 1)].

(** ** Column idealizer *)

(** [x / n] for a number [x] and an integer [n]: true division, which
    raises [ZeroDivisionError] when [n] is zero. *)
Definition py_div (x : Qc) (n : nat) : result Qc :=
  if decide (n = 0) then Raise ZeroDivisionError
  else Ok (x / Qc_of_Z (Z.of_nat n))%Qc.

Definition calcAvgPoint (lines : list Segment) : result Point3 :=
  let '(x_avg, y_avg, z_avg) :=
    foldl (λ '(x_avg, y_avg, z_avg) line,
             (x_avg + (px line.1 + px line.2),
              y_avg + (py line.1 + py line.2),
              z_avg + (pz line.1 + pz line.2))%Qc)
          (0, 0, 0)%Qc lines in
  x_avg ← py_div x_avg (length lines * 2);
  y_avg ← py_div y_avg (length lines * 2);
  z_avg ← py_div z_avg (length lines * 2);
  Ok (x_avg, y_avg, z_avg).

Definition idealizeColumn (elementLines : list Segment) : result Segment :=
  let '(interestingLines, zs) :=
    foldl (λ '(interestingLines, zs) line,
             if decide (pz line.1 = pz line.2)
             then (interestingLines ++ [line],
                   if decide (pz line.1 ∈ zs) then zs else zs ++ [pz line.1])
             else (interestingLines, zs))
          ([], []) elementLines in
  '(topLines, bottomLines) ←
    foldM (λ '(topLines, bottomLines) line,
             z_top ← py_max zs;
             if decide (pz line.1 = z_top)
             then Ok (topLines ++ [line], bottomLines)
             else Ok (topLines, bottomLines ++ [line]))
          ([], []) interestingLines;
  bottom ← calcAvgPoint bottomLines;
  top ← calcAvgPoint topLines;
  Ok (bottom, top).

(** *** The column idealizer by its partitions *)

Definition horizontals (elementLines : list Segment) : list Segment :=
  filter (λ line, pz line.1 = pz line.2) elementLines.

(** [z_top] is the greatest level of a horizontal segment of [lines]. *)
Definition is_top_level (z_top : Qc) (lines : list Segment) : Prop :=
  (∃ s, s ∈ horizontals lines ∧ pz s.1 = z_top)
  ∧ ∀ s, s ∈ horizontals lines → (pz s.1 ≤ z_top)%Qc.

Definition top_partition (z_top : Qc) (lines : list Segment) : list Segment :=
  filter (λ line, pz line.1 = z_top) (horizontals lines).

Definition bottom_partition (z_top : Qc) (lines : list Segment) : list Segment :=
  filter (λ line, pz line.1 ≠ z_top) (horizontals lines).

(** The two endpoints of every segment, as samples. *)
Definition endpoints (lines : list Segment) : list Point3 :=
  flat_map (λ line, [line.1; line.2]) lines.

Definition Qc_sum (qs : list Qc) : Qc := foldr Qcplus 0%Qc qs.

(** The arithmetic mean of a non-empty list of points, coordinate-wise. *)
Definition mean_point (points : list Point3) : Point3 :=
  let n := Qc_of_Z (Z.of_nat (length points)) in
  (Qc_sum (px <$> points) / n, Qc_sum (py <$> points) / n,
   Qc_sum (pz <$> points) / n)%Qc.

Definition distinct_levels (zs : list Qc) (lines : list Segment) : list Qc :=
  foldl (λ zs line, if decide (pz line.1 ∈ zs) then zs else zs ++ [pz line.1])
        zs lines.

(** The bodies of the two loops of [idealizeColumn]. *)
Definition column_collect_step
    : list Segment * list Qc → Segment → list Segment * list Qc :=
  λ '(interestingLines, zs) line,
  if decide (pz line.1 = pz line.2)
  then (interestingLines ++ [line],
        if decide (pz line.1 ∈ zs) then zs else zs ++ [pz line.1])
  else (interestingLines, zs).

Definition column_split_step (zs : list Qc)
    : list Segment * list Segment → Segment
      → result (list Segment * list Segment) :=
  λ '(topLines, bottomLines) line,
  z_top ← py_max zs;
  if decide (pz line.1 = z_top)
  then Ok (topLines ++ [line], bottomLines)
  else Ok (topLines, bottomLines ++ [line]).

(** *** Sample columns *)

Definition single_level : list Segment := [(pt 0 0 5, pt 2 0 5); (pt 0 0 0, pt 0 0 5)].

Definition bottom_ring : Segment := (pt 0 0 0, pt 2 0 0).
Definition top_ring : Segment := (pt 0 0 5, pt 2 0 5).

Definition two_levels : list Segment :=
  [bottom_ring; (pt 0 0 0, pt 0 0 5); top_ring].

(** ** Mesh decoder *)

(** [[l[i*3:i*3+3] for i in range(len(l)//3)]]: consecutive complete
    triples; every slice has exactly three elements and is kept as a
    triple. *)
Fixpoint triples {A} (l : list A) : list (A * A * A) :=
  match l with
  | x :: y :: z :: l' => (x, y, z) :: triples l'
  | _ => []
  end.

(** [[l[i*2:i*2+2] for i in range(len(l)//2)]]: consecutive complete
    pairs. *)
Fixpoint pairs_of {A} (l : list A) : list (A * A) :=
  match l with
  | a :: b :: l' => (a, b) :: pairs_of l'
  | _ => []
  end.

(** The slice [l[i:j]]. *)
Definition slice {A} (l : list A) (i j : nat) : list A := take (j - i) (drop i l).

(** [(points[lp[0]], points[lp[1]])] *)
Definition resolve_pair (points : list Point3) (lp : Z * Z) : result Segment :=
  start ← py_index points lp.1;
  stop ← py_index points lp.2;
  Ok (start, stop).

(** The contract of the geometry kernel: whole triples, whole pairs, and
    indices into the point list. *)
Definition valid_mesh (verts : list Qc) (edges : list Z) : Prop :=
  length verts `mod` 3 = 0 ∧ length edges `mod` 2 = 0
  ∧ ∀ i, i ∈ edges → (0 ≤ i < Z.of_nat (length verts `div` 3))%Z.

(** An edge buffer from its index pairs. *)
Definition edge_buffer (line_points : list (Z * Z)) : list Z :=
  flat_map (λ lp, [lp.1; lp.2]) line_points.

(** The edge buffer with every index pair written twice. *)
Definition duplicate_pairs (edges : list Z) : list Z :=
  edge_buffer (flat_map (λ lp, [lp; lp]) (pairs_of edges)).

(** The edge buffer with repeated index pairs removed. *)
Definition dedup_pairs (edges : list Z) : list Z :=
  edge_buffer (remove_dups (pairs_of edges)).

Section mesh_decoder.
(** [list(set(xs))] on index pairs.  The iteration order of a Python set
    is left open: any function that lists every member once is allowed
    (see [list_set_NoDup] and [list_set_elem] below). *)
Variable list_set : list (Z * Z) → list (Z * Z).

(** The body of the loop of [abstract_elements_by_type] for one element:
    from the vertex and edge buffers to the element's lines. *)
Definition element_lines (verts : list Qc) (edges : list Z)
    : result (list Segment) :=
  let points := triples verts in
  let line_points := pairs_of edges in
  let line_points := list_set line_points in
  mapM_result (λ i, lp ← list_get line_points i;
                    start ← py_index points lp.1;
                    stop ← py_index points lp.2;
                    Ok (start, stop))
              (seq 0 (length line_points)).

End mesh_decoder.

(** One admissible iteration order: every pair at its last occurrence. *)
Definition last_seen_order : list (Z * Z) → list (Z * Z) := remove_dups.

(** Two points, (0,0,0) and (1,1,1), as a vertex buffer. *)
Definition two_points : list Qc := Qc_of_Z <$> [0; 0; 0; 1; 1; 1]%Z.

Definition square_edges : list Z := [0; 1; 1; 0; 0; 1]%Z.

(** ** Files *)

(** The file system: contents by file name.  A computation that writes
    files and may raise keeps the files written so far. *)
Definition io (A : Type) : Type :=
  gmap string string → gmap string string * result A.

Global Instance io_ret : MRet io := λ A a fs, (fs, Ok a).
Global Instance io_bind : MBind io := λ A B f m fs,
  match m fs with
  | (fs', Ok a) => f a fs'
  | (fs', Raise e) => (fs', Raise e)
  end.

(** A computation without file access, inside [io]. *)
Definition io_of_result {A} (r : result A) : io A := λ fs, (fs, r).

(** [for x in xs: f(x)] *)
Fixpoint for_each {A} (f : A → io ()) (xs : list A) : io () :=
  match xs with
  | [] => mret ()
  | x :: xs' => f x ;; for_each f xs'
  end.

Inductive open_mode : Set := mode_w | mode_a.

(** [open(file_name, mode)]: ["w"] creates or truncates the file, ["a"]
    creates it when missing and keeps its content otherwise. *)
Definition open_file (file_name : string) (mode : open_mode) : io () := λ fs,
  match mode with
  | mode_w => (<[file_name := ""]> fs, Ok ())
  | mode_a =>
      match fs !! file_name with
      | Some _ => (fs, Ok ())
      | None => (<[file_name := ""]> fs, Ok ())
      end
  end.

(** [f.write(data)] on the open file [file_name]: the data goes to the
    end. *)
Definition file_write (file_name : string) (data : string) : io () := λ fs,
  (alter (λ content, content +:+ data) file_name fs, Ok ()).

(** ** Line serializer *)

Definition newline : string := String (Ascii.ascii_of_nat 10) "".

(** [s.replace(old, new)] scans from the left without overlap; [skip]
    counts the characters of a match still to pass over. *)
Fixpoint replace_go (old new : string) (skip : nat) (s : string) : string :=
  match s with
  | "" => ""
  | String c s' =>
      match skip with
      | S k => replace_go old new k s'
      | 0 =>
          if String.prefix old s
          then new +:+ replace_go old new (String.length old - 1) s'
          else String c (replace_go old new 0 s')
      end
  end.

(** With an empty [old], Python puts [new] before every character and at
    the end. *)
Fixpoint intersperse_all (new s : string) : string :=
  match s with
  | "" => new
  | String c s' => new +:+ String c (intersperse_all new s')
  end.

Definition str_replace (old new s : string) : string :=
  match old with
  | "" => intersperse_all new s
  | _ => replace_go old new 0 s
  end.

Section serializer.
(** [str(x)] of a coordinate. *)
Context {A : Type} (coord_str : A → string).

(** [str((x, y, z))] *)
Definition str_point (p : A * A * A) : string :=
  "(" +:+ coord_str p.1.1 +:+ ", " +:+ coord_str p.1.2 +:+ ", "
      +:+ coord_str p.2 +:+ ")".

(** [str(((x1, y1, z1), (x2, y2, z2)))] *)
Definition str_line (line : (A * A * A) * (A * A * A)) : string :=
  "(" +:+ str_point line.1 +:+ ", " +:+ str_point line.2 +:+ ")".

(** The text written for one line: the body of the loop of
    [writeLines]. *)
Definition line_command (point : (A * A * A) * (A * A * A)) : string :=
  let p_str := str_replace " " "" (str_line point) in
  let p_str := "line " +:+ p_str +:+ " " +:+ newline in
  let p_str := str_replace "),(" " " p_str in
  let p_str := str_replace "(" "" p_str in
  let p_str := str_replace ")" "" p_str in
  p_str.

Definition writeLines (lines : list ((A * A * A) * (A * A * A)))
    (file_name : string) (mode : open_mode) : io () :=
  open_file file_name mode ;;
  file_write file_name ("zoom -100,-100,-100 -200,-200,-200" +:+ newline) ;;
  for_each (λ point, file_write file_name (line_command point)) lines ;;
  file_write file_name ("zoom a" +:+ newline).
End serializer.

(** [str(n)] of a Python integer. *)
Definition int_str (n : Z) : string := pretty n.

Definition str_concat (parts : list string) : string := foldr String.append "" parts.

Definition zoom_header : string := "zoom -100,-100,-100 -200,-200,-200" +:+ newline.
Definition zoom_footer : string := "zoom a" +:+ newline.

(** The content of [file_name] when [writeLines] starts writing. *)
Definition opened_content (file_name : string) (mode : open_mode)
    (fs : gmap string string) : string :=
  match mode with
  | mode_w => ""
  | mode_a => default "" (fs !! file_name)
  end.

(** [s] has no occurrence of the character [o]. *)
Fixpoint no_char (o : ascii) (s : string) : Prop :=
  match s with
  | "" => True
  | String c s' => c ≠ o ∧ no_char o s'
  end.

(** A coordinate rendering without space and parentheses, as [str] of a
    Python number is. *)
Definition plain (s : string) : Prop :=
  no_char " " s ∧ no_char "(" s ∧ no_char ")" s.

(** [line x1,y1,z1 x2,y2,z2 ] and a newline. *)
Definition segment_line {A} (coord_str : A → string)
    (line : (A * A * A) * (A * A * A)) : string :=
  "line " +:+ coord_str line.1.1.1 +:+ "," +:+ coord_str line.1.1.2 +:+ ","
          +:+ coord_str line.1.2 +:+ " "
          +:+ coord_str line.2.1.1 +:+ "," +:+ coord_str line.2.1.2 +:+ ","
          +:+ coord_str line.2.2 +:+ " " +:+ newline.

(** ** Pipeline *)

(** What the geometry kernel gives for one entity of the model: its
    globally unique id ([ifc_entity[0]]), its tag ([ifc_entity[7]]) and
    the vertex and edge buffers of its meshed shape. *)
Record ifc_entity : Type := {
  GlobalId : string;
  Tag : string;
  shape_verts : list Qc;
  shape_edges : list Z;
}.

(** The dictionaries built for one object type.  [ios_elements] is iterated
    and keeps insertion order; the other two are only looked up. *)
Record ifc_values : Type := {
  ios_vertices : gmap string (list Qc);
  ios_edges : gmap string (list Z);
  ios_elements : list (string * string);
}.

(** [d[k] = v] on a dictionary kept in insertion order: a known key keeps
    its place, a new key goes to the end. *)
Fixpoint dict_set {V} (k : string) (v : V) (d : list (string * V)) : list (string * V) :=
  match d with
  | [] => [(k, v)]
  | (k', v') :: d' =>
      if decide (k' = k) then (k', v) :: d' else (k', v') :: dict_set k v d'
  end.

(** [d[k]] *)
Definition dict_get {V} (d : gmap string V) (k : string) : result V :=
  match d !! k with
  | Some v => Ok v
  | None => Raise KeyError
  end.

Section pipeline.
(** The iteration order of [list(set(...))] and [str] of a float
    coordinate are left open. *)
Variable list_set : list (Z * Z) → list (Z * Z).
Variable float_str : Qc → string.

(** The opened model, as the entities of each type
    ([ifc_file.by_type]) with their shapes ([geom.create_shape]). *)
Variable ifc_file : string → list ifc_entity.

Definition read_geom (ObjTypes : list string) : gmap string ifc_values :=
  foldl (λ objects_geometry ObjType,
     let vals :=
       foldl (λ vals ifc_entity,
                {| ios_vertices :=
                     <[GlobalId ifc_entity := shape_verts ifc_entity]>
                       (ios_vertices vals);
                   ios_edges :=
                     <[GlobalId ifc_entity := shape_edges ifc_entity]>
                       (ios_edges vals);
                   ios_elements :=
                     dict_set (GlobalId ifc_entity) (Tag ifc_entity)
                              (ios_elements vals) |})
             {| ios_vertices := ∅; ios_edges := ∅; ios_elements := [] |}
             (ifc_file ObjType) in
     <[ObjType := vals]> objects_geometry)
    ∅ ObjTypes.

Definition abstract_elements_by_type (ifc_values : ifc_values)
    : result (list (string * list Segment)) :=
  foldM (λ lines_for_type '(key, tag),
           verts ← dict_get (ios_vertices ifc_values) key;
           edges ← dict_get (ios_edges ifc_values) key;
           lines ← element_lines list_set verts edges;
           Ok (dict_set ("UUID: " +:+ key +:+ " Tag:" +:+ tag) lines
                        lines_for_type))
        [] (ios_elements ifc_values).

Definition process_file (output_elem_filename output_ideal_filename : string)
    : io () :=
  let objectTypes := ["IfcBeam"; "IfcColumn"] in
  let geometry := read_geom objectTypes in
  ifc_beams ← io_of_result (dict_get geometry "IfcBeam");
  ifc_columns ← io_of_result (dict_get geometry "IfcColumn");
  beams ← io_of_result (abstract_elements_by_type ifc_beams);
  columns ← io_of_result (abstract_elements_by_type ifc_columns);
  open_file output_elem_filename mode_w ;;
  open_file output_ideal_filename mode_w ;;
  for_each (λ '(key, lines),
              writeLines float_str lines output_elem_filename mode_a ;;
              idealBeam ← io_of_result (idealizeBeam lines);
              writeLines float_str [idealBeam] output_ideal_filename mode_a)
           beams ;;
  for_each (λ '(key, lines),
              writeLines float_str lines output_elem_filename mode_a ;;
              idealColumn ← io_of_result (idealizeColumn lines);
              writeLines float_str [idealColumn] output_ideal_filename mode_a)
           columns.

End pipeline.

(** A stand-in for [str] of a float, for runs in which no coordinate is
    printed or the digits do not matter: integers as [n.0], other
    rationals as a fraction. *)
Definition float_str_sample (q : Qc) : string :=
  if decide (Qden q = 1%positive) then pretty (Qnum q) +:+ ".0"
  else pretty (Qnum q) +:+ "/" +:+ pretty (Zpos (Qden q)).

(** A model without any entity. *)
Definition empty_model : string → list ifc_entity := λ _, [].

(** A run on a model with one beam and one column. *)
Definition sample_model : string → list ifc_entity := λ ObjType,
  if decide (ObjType = "IfcBeam") then
    [{| GlobalId := "b1"; Tag := "B-1";
        shape_verts := Qc_of_Z <$> [0; 0; 10; 4; 0; 10; 0; 2; 10; 4; 2; 10]%Z;
        shape_edges := [0; 1; 2; 3; 0; 1]%Z |}]
  else if decide (ObjType = "IfcColumn") then
    [{| GlobalId := "c1"; Tag := "C-1";
        shape_verts := Qc_of_Z <$> [0; 0; 0; 2; 0; 0; 0; 0; 5; 2; 0; 5]%Z;
        shape_edges := [0; 1; 2; 3; 0; 2]%Z |}]
  else [].

(** ** Vocabulary of the further properties *)

(** The same segment with its endpoints exchanged. *)
Definition swap_ends (line : Segment) : Segment := (line.2, line.1).

(** [line'] is [line], possibly with its endpoints exchanged. *)
Definition same_or_flipped (line line' : Segment) : Prop :=
  line' = line ∨ line' = swap_ends line.

(** Every pair of points at positions [i ≤ j]: the candidates, from the
    midpoints of the top lines. *)
Fixpoint point_pairs (points : list Point3) : list Segment :=
  match points with
  | [] => []
  | p :: rest => map (pair p) (p :: rest) ++ point_pairs rest
  end.


(** [calcAvgPoint], from the endpoints it averages. *)
Definition average_of (points : list Point3) : result Point3 :=
  match points with
  | [] => Raise ZeroDivisionError
  | _ => Ok (mean_point points)
  end.

(** Another admissible iteration order: the reverse of [last_seen_order]. *)
Definition reversed_order : list (Z * Z) → list (Z * Z) :=
  λ xs, reverse (remove_dups xs).

(** The dictionaries built by the inner loop of [read_geom] for the
    entities of one type. *)
Definition collect_entities (entities : list ifc_entity) : ifc_values :=
  foldl (λ vals ifc_entity,
           {| ios_vertices :=
                <[GlobalId ifc_entity := shape_verts ifc_entity]>
                  (ios_vertices vals);
              ios_edges :=
                <[GlobalId ifc_entity := shape_edges ifc_entity]>
                  (ios_edges vals);
              ios_elements :=
                dict_set (GlobalId ifc_entity) (Tag ifc_entity)
                         (ios_elements vals) |})
        {| ios_vertices := ∅; ios_edges := ∅; ios_elements := [] |}
        entities.

(** The key under which [abstract_elements_by_type] files an element. *)
Definition element_label (key tag : string) : string :=
  "UUID: " +:+ key +:+ " Tag:" +:+ tag.

(** The decoding of one entity on its own: its label and its segments. *)
Definition decode_entity (list_set : list (Z * Z) → list (Z * Z))
    (entity : ifc_entity) : result (string * list Segment) :=
  lines ← element_lines list_set (shape_verts entity) (shape_edges entity);
  Ok (element_label (GlobalId entity) (Tag entity), lines).

(** A model with two beams under the same GlobalId. *)
Definition duplicate_id_model : string → list ifc_entity := λ ObjType,
  if decide (ObjType = "IfcBeam") then
    [{| GlobalId := "b1"; Tag := "B-1";
        shape_verts := Qc_of_Z <$> [0; 0; 10; 4; 0; 10]%Z;
        shape_edges := [0; 1]%Z |};
     {| GlobalId := "b2"; Tag := "B-2";
        shape_verts := Qc_of_Z <$> [0; 0; 0; 1; 0; 0]%Z;
        shape_edges := [0; 1]%Z |};
     {| GlobalId := "b1"; Tag := "B-3";
        shape_verts := Qc_of_Z <$> [0; 0; 7; 4; 0; 7]%Z;
        shape_edges := [1; 0]%Z |}]
  else [].

(** A model whose only beam has an edge that points past its vertices. *)
Definition dangling_edge_model : string → list ifc_entity := λ ObjType,
  if decide (ObjType = "IfcBeam") then
    [{| GlobalId := "b1"; Tag := "B-1";
        shape_verts := Qc_of_Z <$> [0; 0; 10; 4; 0; 10]%Z;
        shape_edges := [0; 2]%Z |}]
  else [].

(** A model with three beams under distinct GlobalIds; the second has an
    edge that points past its vertices. *)
Definition failing_middle_model : string → list ifc_entity := λ ObjType,
  if decide (ObjType = "IfcBeam") then
    [{| GlobalId := "b1"; Tag := "B-1";
        shape_verts := Qc_of_Z <$> [0; 0; 10; 4; 0; 10]%Z;
        shape_edges := [0; 1]%Z |};
     {| GlobalId := "b2"; Tag := "B-2";
        shape_verts := Qc_of_Z <$> [0; 0; 10; 4; 0; 10]%Z;
        shape_edges := [0; 2]%Z |};
     {| GlobalId := "b3"; Tag := "B-3";
        shape_verts := Qc_of_Z <$> [0; 0; 7; 4; 0; 7]%Z;
        shape_edges := [1; 0]%Z |}]
  else [].

(** A model with two beams whose labels coincide: the GlobalId of the
    second contains a space. *)
Definition colliding_labels_model : string → list ifc_entity := λ ObjType,
  if decide (ObjType = "IfcBeam") then
    [{| GlobalId := "a"; Tag := " Tag:b";
        shape_verts := Qc_of_Z <$> [0; 0; 10; 4; 0; 10]%Z;
        shape_edges := [0; 1]%Z |};
     {| GlobalId := "a Tag:"; Tag := "b";
        shape_verts := Qc_of_Z <$> [0; 0; 0; 1; 0; 0]%Z;
        shape_edges := [0; 1]%Z |}]
  else [].

(** The text one call of [writeLines] puts at the end of the file. *)
Definition scr_block {A} (coord_str : A → string)
    (lines : list ((A * A * A) * (A * A * A))) : string :=
  zoom_header +:+ str_concat (line_command coord_str <$> lines) +:+ zoom_footer.

(** The elements of one type as [process_file] obtains them:
    [abstract_elements_by_type(geometry[ObjType])]. *)
Definition decoded_elements (list_set : list (Z * Z) → list (Z * Z))
    (ifc_file : string → list ifc_entity) (ObjType : string)
    : result (list (string * list Segment)) :=
  ifc_values ← dict_get (read_geom ifc_file ["IfcBeam"; "IfcColumn"]) ObjType;
  abstract_elements_by_type list_set ifc_values.

(** The elements [process_file] exports, in the order of its two loops,
    each with the idealizer of its loop. *)
Definition export_jobs (beams columns : list (string * list Segment))
    : list ((list Segment → result Segment) * list Segment) :=
  ((λ kl, (idealizeBeam, kl.2)) <$> beams)
  ++ ((λ kl, (idealizeColumn, kl.2)) <$> columns).

(** The body of the loops of [process_file]. *)
Definition export_job (float_str : Qc → string)
    (output_elem_filename output_ideal_filename : string)
    (job : (list Segment → result Segment) * list Segment) : io () :=
  writeLines float_str job.2 output_elem_filename mode_a ;;
  ideal ← io_of_result (job.1 job.2);
  writeLines float_str [ideal] output_ideal_filename mode_a.

(** A model with a meshed beam, a beam without any edge and a column. *)
Definition edgeless_beam_model : string → list ifc_entity := λ ObjType,
  if decide (ObjType = "IfcBeam") then
    [{| GlobalId := "b1"; Tag := "B-1";
        shape_verts := Qc_of_Z <$> [0; 0; 10; 4; 0; 10; 0; 2; 10; 4; 2; 10]%Z;
        shape_edges := [0; 1; 2; 3; 0; 1]%Z |};
     {| GlobalId := "b2"; Tag := "B-2";
        shape_verts := Qc_of_Z <$> [0; 0; 10; 4; 0; 10]%Z;
        shape_edges := [] |}]
  else if decide (ObjType = "IfcColumn") then
    [{| GlobalId := "c1"; Tag := "C-1";
        shape_verts := Qc_of_Z <$> [0; 0; 0; 2; 0; 0; 0; 0; 5; 2; 0; 5]%Z;
        shape_edges := [0; 1; 2; 3; 0; 2]%Z |}]
  else [].

(** ** The idealizers in binary64 arithmetic

    Python's [float] is IEEE 754 binary64.  The definitions of this module
    follow the idealizers operation by operation on [spec_float], the
    executable specification of binary64 with rounding to nearest, ties to
    even: [+], [-] and [/] are the IEEE operations, [==] and [>] the IEEE
    comparisons (a NaN is neither equal to, nor greater or less than,
    anything), and [**] is CPython's [float_pow], which hands finite bases
    to the [pow] of the C library and raises [OverflowError] when that
    overflows.  The C library is a parameter. *)
Module Float64.

Definition float : Set := spec_float.

Global Instance float_eq_dec : EqDecision float.
Proof. solve_decision. Defined.

Definition prec : Z := 53.
Definition emax : Z := 1024.

Definition add : float → float → float := SFadd prec emax.
Definition sub : float → float → float := SFsub prec emax.
Definition mul : float → float → float := SFmul prec emax.
Definition div : float → float → float := SFdiv prec emax.
Definition sqrt : float → float := SFsqrt prec emax.

(** [float(n)] of an integer and [m * 2 ** e], correctly rounded. *)
Definition of_int (n : Z) : float := binary_normalize prec emax n 0 false.
Definition ldexp (m e : Z) : float := binary_normalize prec emax m e false.

(** [x == y] and [x > y] *)
Definition feq (x y : float) : Prop := SFeqb x y = true.
Definition fgt (x y : float) : Prop := SFltb y x = true.

Global Instance feq_dec x y : Decision (feq x y).
Proof. unfold feq. apply _. Defined.
Global Instance fgt_dec x y : Decision (fgt x y).
Proof. unfold fgt. apply _. Defined.

Definition is_nan (x : float) : Prop := x = S754_nan.
Global Instance is_nan_dec x : Decision (is_nan x).
Proof. unfold is_nan. apply _. Defined.

(** [x] is a binary64 number: NaN, an infinity, a zero, or a mantissa of at
    most 53 bits at an exponent of the format. *)
Definition is_binary64 (x : float) : Prop := valid_binary prec emax x = true.
Global Instance is_binary64_dec x : Decision (is_binary64 x).
Proof. unfold is_binary64. apply _. Defined.

(** The [pow] of the C library at the two exponents of the program, for a
    finite base above zero and other than one.  A square is not below
    zero.  The library reports a range error together with an infinite
    result (overflow) or with a zero (underflow), and [float_pow] keeps the
    former only. *)
Record libm : Type := {
  c_pow_2 : float → float;
  c_pow_half : float → float;
  c_pow_2_sign : ∀ x, ¬ fgt (S754_zero false) (c_pow_2 x);
}.

(** A correctly rounded C library. *)
Definition nearest : libm.
Proof.
  refine {| c_pow_2 := λ x, mul x x; c_pow_half := sqrt |}.
  intros x. unfold fgt, SFltb, mul, SFmul.
  destruct x as [s|s| |s m e]; [by destruct s..|done|].
  replace (xorb s s) with false by by destruct s.
  unfold binary_round_aux.
  destruct (shr_fexp _ _ _ _ _) as [mrs' e'].
  destruct (shr_fexp _ _ _ _ _) as [mrs'' e''].
  destruct (shr_m mrs''); [done| |done]. by destruct (_ <=? _)%Z.
Defined.

Abbreviation Point3 := (float * float * float)%type.
Abbreviation Segment := (Point3 * Point3)%type.

Definition px (p : Point3) : float := p.1.1.
Definition py (p : Point3) : float := p.1.2.
Definition pz (p : Point3) : float := p.2.

(** The rational number a finite float stands for. *)
Definition exact (x : float) : Qc :=
  match x with
  | S754_finite s m e => Q2Qc (inject_Z (cond_Zopp s (Zpos m)) * Qpower 2 e)
  | _ => 0%Qc
  end.

Definition exact_point (p : Point3) : Qc * Qc * Qc :=
  (exact (px p), exact (py p), exact (pz p)).

Definition exact_segment (line : Segment)
    : (Qc * Qc * Qc) * (Qc * Qc * Qc) :=
  (exact_point line.1, exact_point line.2).


Definition exact_mean (lines : list Segment) : Qc * Qc * Qc :=
  mean_point (endpoints (exact_segment <$> lines)).

Definition binary64_point (p : Point3) : Prop :=
  is_binary64 (px p) ∧ is_binary64 (py p) ∧ is_binary64 (pz p).
Definition binary64_segment (line : Segment) : Prop :=
  binary64_point line.1 ∧ binary64_point line.2.
Global Instance binary64_segment_dec line : Decision (binary64_segment line).
Proof. unfold binary64_segment, binary64_point. apply _. Defined.

Section arithmetic.
Variable libc : libm.

(** [x ** 2]: [float_pow] settles NaN, the infinities, zero and one by
    itself, takes the absolute value of a negative base (the exponent is
    even) and raises [OverflowError] when [pow] returns an infinity. *)
Definition pow_2 (x : float) : result float :=
  match x with
  | S754_nan => Ok S754_nan
  | S754_infinity _ => Ok (S754_infinity false)
  | S754_zero _ => Ok (S754_zero false)
  | S754_finite _ _ _ =>
      if decide (feq (SFabs x) (of_int 1)) then Ok (of_int 1)
      else match c_pow_2 libc (SFabs x) with
           | S754_infinity _ => Raise OverflowError
           | r => Ok r
           end
  end.

(** [x ** 0.5] for the sum of squares [x], which is not below zero
    ([radicand_sign]): [float_pow] settles NaN, the infinities, zero and one by itself and
    raises [OverflowError] when [pow] returns an infinity. *)
Definition pow_half (x : float) : result float :=
  match x with
  | S754_nan => Ok S754_nan
  | S754_infinity _ => Ok (S754_infinity false)
  | S754_zero _ => Ok (S754_zero false)
  | S754_finite _ _ _ =>
      if decide (feq x (of_int 1)) then Ok (of_int 1)
      else match c_pow_half libc x with
           | S754_infinity _ => Raise OverflowError
           | r => Ok r
           end
  end.

(** [max(zs)]: the first element that no later one exceeds. *)
Definition py_max (zs : list float) : result float :=
  match zs with
  | [] => Raise ValueError
  | z :: zs' => Ok (foldl (λ best y, if decide (fgt y best) then y else best) z zs')
  end.

Definition calcLength (line : Segment) : result float :=
  dx2 ← pow_2 (sub (px line.1) (px line.2));
  dy2 ← pow_2 (sub (py line.1) (py line.2));
  dz2 ← pow_2 (sub (pz line.1) (pz line.2));
  pow_half (add (add dx2 dy2) dz2).

Definition calcMidPoint (line : Segment) : Point3 :=
  let x_mid := div (add (px line.1) (px line.2)) (of_int 2) in
  let y_mid := div (add (py line.1) (py line.2)) (of_int 2) in
  let z_mid := div (add (pz line.1) (pz line.2)) (of_int 2) in
  (x_mid, y_mid, z_mid).

(** The placeholder [((0., 0., 0.), (0., 0., 0.))]. *)
Definition origin_segment : Segment :=
  ((S754_zero false, S754_zero false, S754_zero false),
   (S754_zero false, S754_zero false, S754_zero false)).

Definition idealizeBeam (elementLines : list Segment) : result Segment :=
  let zs := flat_map (λ line, [pz line.1; pz line.2]) elementLines in
  z_max ← py_max zs;
  let topLines :=
    filter (λ line, feq (pz line.1) z_max ∧ feq (pz line.2) z_max) elementLines in
  foldM (λ idealBeam i,
     line_i ← list_get topLines i;
     let init_point := calcMidPoint line_i in
     foldM (λ idealBeam j,
        line_j ← list_get topLines j;
        let end_point := calcMidPoint line_j in
        let candidate := (init_point, end_point) in
        candidate_length ← calcLength candidate;
        ideal_length ← calcLength idealBeam;
        if decide (fgt candidate_length ideal_length)
        then Ok candidate else Ok idealBeam)
       idealBeam (seq i (length topLines - i)))
    origin_segment (seq 0 (length topLines)).

(** *** The beam idealizer by its candidates *)

Definition endpoint_zs (elementLines : list Segment) : list float :=
  flat_map (λ line, [pz line.1; pz line.2]) elementLines.

Definition top_lines (z_max : float) (elementLines : list Segment) : list Segment :=
  filter (λ line, feq (pz line.1) z_max ∧ feq (pz line.2) z_max) elementLines.

(** The segment joining the midpoints of two lines. *)
Definition midpoint_segment (l1 l2 : Segment) : Segment :=
  (calcMidPoint l1, calcMidPoint l2).

(** Every pair of top lines at positions [i ≤ j], in the order of the two
    nested loops. *)
Fixpoint candidates (topLines : list Segment) : list Segment :=
  match topLines with
  | [] => []
  | t :: rest => map (midpoint_segment t) (t :: rest) ++ candidates rest
  end.

(** The body of the inner loop. *)
Definition beam_step (idealBeam candidate : Segment) : result Segment :=
  candidate_length ← calcLength candidate;
  ideal_length ← calcLength idealBeam;
  if decide (fgt candidate_length ideal_length)
  then Ok candidate else Ok idealBeam.

(** [z] is an endpoint z that no endpoint z exceeds. *)
Definition is_z_max (z : float) (lines : list Segment) : Prop :=
  z ∈ endpoint_zs lines ∧ ∀ z', z' ∈ endpoint_zs lines → ¬ fgt z' z.

(** [r] is the first of [cands] whose computed length none exceeds: the
    computed length of every earlier candidate is smaller or NaN. *)
Definition first_longest (r : Segment) (cands : list Segment) : Prop :=
  ∃ pre post len_r,
    cands = pre ++ r :: post
    ∧ calcLength r = Ok len_r
    ∧ Forall (λ c, ∃ len_c, calcLength c = Ok len_c
                            ∧ (fgt len_r len_c ∨ is_nan len_c)) pre
    ∧ Forall (λ c, ∃ len_c, calcLength c = Ok len_c ∧ ¬ fgt len_c len_r) post.

(** The computed length of [c] is greater than [0.0]. *)
Definition positive_length (c : Segment) : Prop :=
  ∃ len_c, calcLength c = Ok len_c ∧ fgt len_c (S754_zero false).

End arithmetic.

(** *** Column idealizer *)

(** [x / n] for a float [x] and an integer [n]: [ZeroDivisionError] when
    [n] is zero, and else the quotient by [float(n)]. *)
Definition py_div (x : float) (n : nat) : result float :=
  if decide (n = 0) then Raise ZeroDivisionError
  else Ok (div x (of_int (Z.of_nat n))).

Definition calcAvgPoint (lines : list Segment) : result Point3 :=
  let '(x_avg, y_avg, z_avg) :=
    foldl (λ '(x_avg, y_avg, z_avg) line,
             (add x_avg (add (px line.1) (px line.2)),
              add y_avg (add (py line.1) (py line.2)),
              add z_avg (add (pz line.1) (pz line.2))))
          (S754_zero false, S754_zero false, S754_zero false) lines in
  x_avg ← py_div x_avg (length lines * 2);
  y_avg ← py_div y_avg (length lines * 2);
  z_avg ← py_div z_avg (length lines * 2);
  Ok (x_avg, y_avg, z_avg).

Definition idealizeColumn (elementLines : list Segment) : result Segment :=
  let '(interestingLines, zs) :=
    foldl (λ '(interestingLines, zs) line,
             if decide (feq (pz line.1) (pz line.2))
             then (interestingLines ++ [line],
                   if decide (Exists (feq (pz line.1)) zs) then zs
                   else zs ++ [pz line.1])
             else (interestingLines, zs))
          ([], []) elementLines in
  '(topLines, bottomLines) ←
    foldM (λ '(topLines, bottomLines) line,
             z_top ← py_max zs;
             if decide (feq (pz line.1) z_top)
             then Ok (topLines ++ [line], bottomLines)
             else Ok (topLines, bottomLines ++ [line]))
          ([], []) interestingLines;
  bottom ← calcAvgPoint bottomLines;
  top ← calcAvgPoint topLines;
  Ok (bottom, top).

(** *** The column idealizer by its partitions *)

Definition horizontals (elementLines : list Segment) : list Segment :=
  filter (λ line, feq (pz line.1) (pz line.2)) elementLines.

(** [z_top] is the level of a horizontal segment that the level of no
    horizontal segment exceeds. *)
Definition is_top_level (z_top : float) (lines : list Segment) : Prop :=
  (∃ s, s ∈ horizontals lines ∧ pz s.1 = z_top)
  ∧ ∀ s, s ∈ horizontals lines → ¬ fgt (pz s.1) z_top.

Definition top_partition (z_top : float) (lines : list Segment) : list Segment :=
  filter (λ line, feq (pz line.1) z_top) (horizontals lines).

Definition bottom_partition (z_top : float) (lines : list Segment) : list Segment :=
  filter (λ line, ¬ feq (pz line.1) z_top) (horizontals lines).

(** [0 + x1 + x2 + ...], added from the left. *)
Definition float_sum (xs : list float) : float := foldl add (S754_zero false) xs.

(** The average [calcAvgPoint] computes of one coordinate: the sum over
    the lines, in their order, of the sum of the two endpoint coordinates,
    divided by twice the number of lines. *)
Definition average_coordinate (coord : Point3 → float) (lines : list Segment)
    : float :=
  div (float_sum ((λ line, add (coord line.1) (coord line.2)) <$> lines))
      (of_int (Z.of_nat (length lines * 2))).

Definition average_point (lines : list Segment) : Point3 :=
  (average_coordinate px lines, average_coordinate py lines,
   average_coordinate pz lines).

(** The levels of the horizontal segments, one of each, as the first loop
    collects them. *)
Definition distinct_levels (zs : list float) (lines : list Segment) : list float :=
  foldl (λ zs line, if decide (Exists (feq (pz line.1)) zs) then zs
                    else zs ++ [pz line.1]) zs lines.

Definition column_collect_step
    : list Segment * list float → Segment → list Segment * list float :=
  λ '(interestingLines, zs) line,
    if decide (feq (pz line.1) (pz line.2))
    then (interestingLines ++ [line],
          if decide (Exists (feq (pz line.1)) zs) then zs else zs ++ [pz line.1])
    else (interestingLines, zs).

Definition column_split_step (zs : list float)
    : list Segment * list Segment → Segment → result (list Segment * list Segment) :=
  λ '(topLines, bottomLines) line,
    z_top ← py_max zs;
    if decide (feq (pz line.1) z_top)
    then Ok (topLines ++ [line], bottomLines)
    else Ok (topLines, bottomLines ++ [line]).

(** A point with integer coordinates. *)
Definition pt (x y z : Z) : Point3 := (of_int x, of_int y, of_int z).

Definition bottom_ring : Segment := (pt 0 0 0, pt 2 0 0).
Definition top_ring : Segment := (pt 0 0 5, pt 2 0 5).

(** A column whose two bottom segments reach 10^16 to either side. *)
Definition wide_column : list Segment :=
  [((of_int (10 ^ 16), of_int 0, of_int 0), (of_int 1, of_int 0, of_int 0));
   ((of_int (- 10 ^ 16), of_int 0, of_int 0), (of_int 1, of_int 0, of_int 0));
   top_ring].

Definition top_line_a : Segment := (pt 0 0 10, pt 4 0 10).
Definition top_line_b : Segment := (pt 0 2 10, pt 4 2 10).




(** A beam that is 2^600 long, with its bottom edge. *)
Definition long_beam : list Segment :=
  [((of_int 0, of_int 0, of_int 0), (ldexp 1 600, of_int 0, of_int 0));
   ((of_int 0, of_int 0, of_int 1), (of_int 0, of_int 1, of_int 1));
   ((ldexp 1 600, of_int 0, of_int 1), (ldexp 1 600, of_int 1, of_int 1))].

End Float64.

(** * Part II: properties *)

(** ** The loops of the beam idealizer *)

Lemma bind_Ok {A B} (a : A) (f : A → result B) : (Ok a ≫= f) = f a.
Proof. reflexivity. Qed.

Lemma foldM_pure {A B} (f : B → A → B) (b : B) (xs : list A) :
  foldM (λ acc x, Ok (f acc x)) b xs = Ok (foldl f b xs).
Proof. revert b. induction xs as [|x xs IH]; intros b; simpl; [done|]. apply IH. Qed.

Lemma foldM_ext {A B} (f g : B → A → result B) (b : B) (xs : list A) :
  (∀ acc x, f acc x = g acc x) → foldM f b xs = foldM g b xs.
Proof.
  intros Hfg. revert b. induction xs as [|x xs IH]; intros b; simpl; [done|].
  rewrite Hfg. destruct (g b x); simpl; [apply IH|done].
Qed.

Lemma list_get_middle {A} (pre post : list A) (x : A) :
  list_get (pre ++ x :: post) (length pre) = Ok x.
Proof. unfold list_get. by rewrite list_lookup_middle. Qed.

(** A loop over [range(k, k+n)] that reads [l[j]] is a loop over the
    corresponding slice of [l]. *)
Lemma foldM_seq_get {A B} (g : B → A → result B) (pre mid post : list A) (b : B) :
  foldM (λ acc j, x ← list_get (pre ++ mid ++ post) j; g acc x) b
        (seq (length pre) (length mid))
  = foldM g b mid.
Proof.
  revert pre b. induction mid as [|x mid IH]; intros pre b; [done|].
  cbn [length seq foldM app].
  rewrite list_get_middle, bind_Ok.
  destruct (g b x) as [b'|e]; [|done]. rewrite !bind_Ok.
  specialize (IH (pre ++ [x]) b').
  rewrite <-(assoc_L (++)) in IH. rewrite length_app in IH. simpl in IH.
  by rewrite Nat.add_1_r in IH.
Qed.

Lemma beam_loops (pre suf : list Segment) (b : Segment) :
  let topLines := pre ++ suf in
  foldM (λ idealBeam i,
     line_i ← list_get topLines i;
     let init_point := calcMidPoint line_i in
     foldM (λ idealBeam j,
        line_j ← list_get topLines j;
        let end_point := calcMidPoint line_j in
        let candidate := (init_point, end_point) in
        if decide (root_gt (calcLength candidate) (calcLength idealBeam))
        then Ok candidate else Ok idealBeam)
       idealBeam (seq i (length topLines - i)))
    b (seq (length pre) (length suf))
  = Ok (foldl beam_step b (candidates suf)).
Proof.
  cbv zeta. revert pre b. induction suf as [|t rest IH]; intros pre b; [done|].
  cbn [length seq foldM].
  rewrite list_get_middle, bind_Ok.
  replace (length (pre ++ t :: rest) - length pre) with (length (t :: rest))
    by (rewrite length_app; lia).
  pose proof (foldM_seq_get
    (λ acc line_j, Ok (beam_step acc (midpoint_segment t line_j)))
    pre (t :: rest) [] b) as Hin.
  rewrite (right_id_L [] (++)) in Hin.
  rewrite (foldM_ext _ (λ acc j, x ← list_get (pre ++ t :: rest) j;
                          Ok (beam_step acc (midpoint_segment t x)))), Hin.
  2:{ intros acc j. destruct (list_get _ j); [|done]. rewrite !bind_Ok.
      unfold beam_step, midpoint_segment. by case_decide. }
  rewrite foldM_pure, bind_Ok.
  specialize (IH (pre ++ [t])).
  rewrite <-(assoc_L (++)) in IH. cbn [app] in IH.
  replace (length (pre ++ [t])) with (S (length pre)) in IH
    by (rewrite length_app; simpl; lia).
  rewrite IH. cbn [candidates]. by rewrite foldl_app, foldl_fmap.
Qed.

Lemma idealizeBeam_scan (elementLines : list Segment) :
  idealizeBeam elementLines =
  z_max ← py_max (endpoint_zs elementLines);
  Ok (foldl beam_step origin_segment (candidates (top_lines z_max elementLines))).
Proof.
  unfold idealizeBeam. fold (endpoint_zs elementLines).
  destruct (py_max _) as [z_max|e]; [|done]. rewrite !bind_Ok.
  fold (top_lines z_max elementLines).
  apply (beam_loops [] (top_lines z_max elementLines)).
Qed.

(** ** Properties of [max] and of the candidate scan *)

(** Closed goals over concrete rationals are decided by evaluation. *)
Ltac by_evaluation := apply (bool_decide_unpack _); vm_compute; exact I.

Lemma foldl_max_spec (z : Qc) (zs : list Qc) :
  let m := foldl (λ m y, if decide (m < y)%Qc then y else m) z zs in
  m ∈ z :: zs ∧ ∀ y, y ∈ z :: zs → (y ≤ m)%Qc.
Proof.
  cbv zeta. revert z. induction zs as [|y zs IH]; intros z; cbn [foldl].
  - split; [left|]. intros y ->%list_elem_of_singleton. apply Qcle_refl.
  - destruct (IH (if decide (z < y)%Qc then y else z)) as [Hin Hle].
    split.
    + case_decide; [by right|].
      apply elem_of_cons in Hin as [->|Hin]; [left|by do 2 right].
    + intros x Hx. apply elem_of_cons in Hx as [->|Hx].
      * case_decide as Hlt.
        -- eapply Qcle_trans; [apply Qclt_le_weak, Hlt|]. apply Hle. left.
        -- apply Hle. left.
      * case_decide as Hlt.
        -- apply Hle. done.
        -- apply elem_of_cons in Hx as [->|Hx].
           ++ eapply Qcle_trans; [apply Qcnot_lt_le, Hlt|]. apply Hle. left.
           ++ apply Hle. by right.
Qed.

Lemma is_z_max_unique z1 z2 lines : is_z_max z1 lines → is_z_max z2 lines → z1 = z2.
Proof. intros [Hin1 Hle1] [Hin2 Hle2]. apply Qcle_antisym; auto. Qed.

Lemma py_max_endpoint_zs (lines : list Segment) :
  lines ≠ [] → ∃ z_max, py_max (endpoint_zs lines) = Ok z_max ∧ is_z_max z_max lines.
Proof.
  destruct lines as [|line lines]; [done|]. intros _.
  unfold is_z_max, endpoint_zs. cbn [flat_map app py_max].
  eexists. split; [reflexivity|]. apply foldl_max_spec.
Qed.




Lemma root_le_trans a b c : root_le a b → root_le b c → root_le a c.
Proof. unfold root_le. apply Qcle_trans. Qed.





Lemma elem_of_top_lines (z_max : Qc) (lines : list Segment) (s : Segment) :
  s ∈ top_lines z_max lines ↔ s ∈ lines ∧ pz s.1 = z_max ∧ pz s.2 = z_max.
Proof. unfold top_lines. rewrite list_elem_of_filter. tauto. Qed.

Lemma elem_of_candidates (tops : list Segment) (c : Segment) :
  c ∈ candidates tops ↔
  ∃ i j a b, i ≤ j ∧ tops !! i = Some a ∧ tops !! j = Some b
             ∧ c = (calcMidPoint a, calcMidPoint b).
Proof.
  induction tops as [|t rest IH]; cbn [candidates].
  { split; [by intros ?%elem_of_nil|]. by intros (i & j & a & b & _ & ? & _). }
  rewrite elem_of_app, list_elem_of_fmap, IH. split.
  - intros [(u & -> & Hu)|(i & j & a & b & Hij & Hi & Hj & ->)].
    + apply list_elem_of_lookup in Hu as [j Hj].
      exists 0, j, t, u. repeat split; [lia|done].
    + exists (S i), (S j), a, b. repeat split; [lia|done..].
  - intros (i & j & a & b & Hij & Hi & Hj & ->). destruct i as [|i].
    + left. injection Hi as ->. exists b. split; [done|].
      by eapply list_elem_of_lookup_2.
    + right. destruct j as [|j]; [lia|].
      exists i, j, a, b. repeat split; [lia|done..].
Qed.


(** ** The symbolic root against the real square root *)

Lemma Qc_square_nonneg (x : Qc) : (0 ≤ x ^ 2)%Qc.
Proof.
  unfold Qcle. cbn [Qcpower]. rewrite Qcmult_1_r.
  change (0 <= Qred (x * x))%Q. rewrite Qred_correct.
  exact (Qpower.Qsqr_nonneg x).
Qed.

Lemma Qc_add_nonneg (x y : Qc) : (0 ≤ x → 0 ≤ y → 0 ≤ x + y)%Qc.
Proof.
  intros Hx Hy. replace 0%Qc with (0 + 0)%Qc by ring.
  by apply Qcplus_le_compat.
Qed.

Lemma calcLength_nonneg (line : Segment) : (0 ≤ radicand (calcLength line))%Qc.
Proof.
  unfold calcLength. cbn [radicand].
  apply Qc_add_nonneg; [apply Qc_add_nonneg|]; apply Qc_square_nonneg.
Qed.

(** Comparing radicands is comparing the real square roots. *)
Lemma root_gt_sound (a b : root) :
  (0 ≤ radicand a)%Qc → (0 ≤ radicand b)%Qc →
  root_gt a b ↔ (root_value b < root_value a)%R.
Proof.
  unfold root_gt, root_value, Qcle, Qclt. intros Ha Hb.
  change (0 <= radicand a)%Q in Ha. change (0 <= radicand b)%Q in Hb.
  apply Qle_Rle in Ha, Hb. rewrite RMicromega.Q2R_0 in Ha, Hb.
  split.
  - intros Hlt%Qlt_Rlt. by apply sqrt_lt_1_alt.
  - intros Hlt%sqrt_lt_0_alt. by apply Rlt_Qlt.
Qed.

(** The test [calcLength(candidate) > calcLength(idealBeam)] of the
    program, on real lengths. *)
Lemma calcLength_gt_sound (candidate idealBeam : Segment) :
  root_gt (calcLength candidate) (calcLength idealBeam)
  ↔ (root_value (calcLength idealBeam) < root_value (calcLength candidate))%R.
Proof. apply root_gt_sound; apply calcLength_nonneg. Qed.

Lemma root_is_value (r : root) (v : Qc) : root_is r v → root_value r = Q2R v.
Proof.
  unfold root_is, root_value, Qcle. intros [Hv ->].
  change (0 <= v)%Q in Hv. apply Qle_Rle in Hv.
  rewrite RMicromega.Q2R_0 in Hv.
  change (Q2R (v * v)%Qc) with (Q2R (Qred (v * v))).
  rewrite (Qeq_eqR _ _ (Qred_correct _)), Q2R_mult.
  by apply sqrt_square.
Qed.

Lemma calcMidPoint_z (line : Segment) (z : Qc) :
  pz line.1 = z → pz line.2 = z → pz (calcMidPoint line) = z.
Proof. intros H1 H2. unfold calcMidPoint, pz at 1. cbn [snd]. rewrite H1, H2. field. by_evaluation. Qed.


(** The result of the beam idealizer on a non-empty list, in terms of the
    candidate scan. *)
Lemma idealizeBeam_result (elementLines : list Segment) :
  elementLines ≠ [] →
  ∃ z_max, is_z_max z_max elementLines
    ∧ idealizeBeam elementLines =
      Ok (foldl beam_step origin_segment (candidates (top_lines z_max elementLines))).
Proof.
  intros Hne. destruct (py_max_endpoint_zs _ Hne) as (z_max & Hmax & Hz).
  exists z_max. split; [done|]. by rewrite idealizeBeam_scan, Hmax.
Qed.

(** ** Claims about the beam idealizer *)

Example idealizeBeam_two_top_lines :
  idealizeBeam [(pt 0 0 0, pt 4 0 0); top_line_a; (pt 0 0 0, pt 0 0 10);
                (pt 0 2 0, pt 4 2 0); top_line_b]
  = Ok (pt 2 0 10, pt 2 2 10).
Proof. by_evaluation. Qed.

(** C2 (as amended).  On a non-empty segment list in which no segment has
    both endpoints at the greatest z, the beam idealizer raises nothing and
    returns the zero-length placeholder at the origin. *)
Theorem idealizeBeam_no_top_line_origin (elementLines : list Segment) :
  elementLines ≠ [] →
  (∀ z_max s, is_z_max z_max elementLines → s ∈ elementLines →
     ¬ (pz s.1 = z_max ∧ pz s.2 = z_max)) →
  idealizeBeam elementLines = Ok origin_segment.
Proof.
  intros Hne Hnone. destruct (idealizeBeam_result _ Hne) as (z_max & Hz & ->).
  assert (top_lines z_max elementLines = []) as ->; [|done].
  apply elem_of_nil_inv. intros s [Hs Htop]%elem_of_top_lines.
  by eapply Hnone.
Qed.

Lemma riser_only_z_max z : is_z_max z riser_only → z = Qc_of_Z 1.
Proof.
  intros Hz. eapply is_z_max_unique; [exact Hz|].
  split; [by_evaluation|].
  intros z' Hz'. unfold riser_only, endpoint_zs in Hz'. cbn [flat_map app] in Hz'.
  apply elem_of_cons in Hz' as [->|Hz']; [by_evaluation|].
  apply list_elem_of_singleton in Hz' as ->. by_evaluation.
Qed.

Lemma idealizeBeam_no_top_line_origin_witness :
  riser_only ≠ []
  ∧ (∀ z_max s, is_z_max z_max riser_only → s ∈ riser_only →
       ¬ (pz s.1 = z_max ∧ pz s.2 = z_max))
  ∧ idealizeBeam riser_only = Ok origin_segment.
Proof.
  assert (∀ z_max s, is_z_max z_max riser_only → s ∈ riser_only →
            ¬ (pz s.1 = z_max ∧ pz s.2 = z_max)) as Hnone.
  { intros z s ->%riser_only_z_max ->%list_elem_of_singleton. by_evaluation. }
  split; [discriminate|]. split; [exact Hnone|].
  apply idealizeBeam_no_top_line_origin; [discriminate|exact Hnone].
Defined.

(** C2 (counterexample).  A single vertical segment has no top line, yet
    the beam idealizer returns a segment instead of raising
    [IdealizationError]. *)
Lemma idealizeBeam_no_top_line_does_not_raise :
  riser_only ≠ []
  ∧ (∀ z_max s, is_z_max z_max riser_only → s ∈ riser_only →
       ¬ (pz s.1 = z_max ∧ pz s.2 = z_max))
  ∧ idealizeBeam riser_only = Ok origin_segment
  ∧ idealizeBeam riser_only ≠ Raise IdealizationError.
Proof.
  split; [discriminate|]. split.
  { intros z s ->%riser_only_z_max ->%list_elem_of_singleton. by_evaluation. }
  split; by_evaluation.
Qed.

(** ** The loops of the column idealizer *)

Example idealizeColumn_two_levels :
  idealizeColumn [(pt 0 0 0, pt 2 0 0); (pt 0 0 0, pt 0 0 5); (pt 0 0 5, pt 2 0 5)]
  = Ok (pt 1 0 0, pt 1 0 5).
Proof. by_evaluation. Qed.

Example idealizeColumn_one_level :
  idealizeColumn [(pt 0 0 5, pt 2 0 5)] = Raise ZeroDivisionError.
Proof. by_evaluation. Qed.

Lemma py_max_spec (zs : list Qc) :
  zs ≠ [] → ∃ m, py_max zs = Ok m ∧ m ∈ zs ∧ ∀ y, y ∈ zs → (y ≤ m)%Qc.
Proof.
  destruct zs as [|z zs]; [done|]. intros _. cbn [py_max].
  eexists. split; [reflexivity|]. apply foldl_max_spec.
Qed.

Lemma elem_of_distinct_levels (zs : list Qc) (lines : list Segment) (z : Qc) :
  z ∈ distinct_levels zs lines ↔ z ∈ zs ∨ ∃ s, s ∈ lines ∧ pz s.1 = z.
Proof.
  unfold distinct_levels. revert zs.
  induction lines as [|line lines IH]; intros zs; cbn [foldl].
  { split; [by left|]. intros [?|(s & []%elem_of_nil & _)]. done. }
  rewrite IH. split.
  - intros [Hz|(s & Hs & <-)].
    + case_decide; [by left|].
      apply elem_of_app in Hz as [Hz|Hz%list_elem_of_singleton]; [by left|].
      right. exists line. split; [left|done].
    + right. exists s. split; [by right|done].
  - intros [Hz|(s & Hs & <-)].
    + left. case_decide; [done|]. apply elem_of_app. by left.
    + apply elem_of_cons in Hs as [->|Hs].
      * left. case_decide; [done|]. apply elem_of_app. right. left.
      * right. by exists s.
Qed.

Lemma idealizeColumn_steps (elementLines : list Segment) :
  idealizeColumn elementLines =
  let '(interestingLines, zs) :=
    foldl column_collect_step ([], []) elementLines in
  '(topLines, bottomLines) ←
    foldM (column_split_step zs) ([], []) interestingLines;
  bottom ← calcAvgPoint bottomLines;
  top ← calcAvgPoint topLines;
  Ok (bottom, top).
Proof. reflexivity. Qed.

Lemma column_first_loop (elementLines interestingLines : list Segment) (zs : list Qc) :
  foldl column_collect_step (interestingLines, zs) elementLines
  = (interestingLines ++ horizontals elementLines,
     distinct_levels zs (horizontals elementLines)).
Proof.
  unfold horizontals, distinct_levels. revert interestingLines zs.
  induction elementLines as [|line lines IH]; intros il zs; cbn [foldl].
  { by rewrite filter_nil, (right_id_L [] (++)). }
  rewrite filter_cons. unfold column_collect_step at 2. cbv beta iota. case_decide.
  - rewrite IH. cbn [foldl]. by rewrite <-(assoc_L (++)).
  - apply IH.
Qed.

Lemma column_second_loop (zs : list Qc) (z_top : Qc)
    (interestingLines topLines bottomLines : list Segment) :
  py_max zs = Ok z_top →
  foldM (column_split_step zs) (topLines, bottomLines) interestingLines
  = Ok (topLines ++ filter (λ line, pz line.1 = z_top) interestingLines,
        bottomLines ++ filter (λ line, pz line.1 ≠ z_top) interestingLines).
Proof.
  intros Hmax. revert topLines bottomLines.
  induction interestingLines as [|line lines IH]; intros tl bl; cbn [foldM].
  { by rewrite !filter_nil, !(right_id_L [] (++)). }
  unfold column_split_step at 2. cbv beta iota. rewrite Hmax, bind_Ok, !filter_cons.
  destruct (decide (pz line.1 = z_top)) as [Heq|Hne].
  - rewrite bind_Ok, IH, decide_False by (by intros ?).
    by rewrite <-(assoc_L (++)).
  - rewrite bind_Ok, IH, decide_True by done.
    by rewrite <-(assoc_L (++)).
Qed.

Lemma calcAvgPoint_nil : calcAvgPoint [] = Raise ZeroDivisionError.
Proof. reflexivity. Qed.

Lemma idealizeColumn_no_horizontal (elementLines : list Segment) :
  horizontals elementLines = [] →
  idealizeColumn elementLines = Raise ZeroDivisionError.
Proof.
  intros Hnone.
  rewrite idealizeColumn_steps, (column_first_loop elementLines [] []), Hnone.
  reflexivity.
Qed.

Lemma is_top_level_unique z1 z2 lines :
  is_top_level z1 lines → is_top_level z2 lines → z1 = z2.
Proof.
  intros [(s1 & Hs1 & <-) Hle1] [(s2 & Hs2 & <-) Hle2].
  apply Qcle_antisym; auto.
Qed.

Lemma py_max_distinct_levels (elementLines : list Segment) :
  horizontals elementLines ≠ [] →
  ∃ z_top, py_max (distinct_levels [] (horizontals elementLines)) = Ok z_top
           ∧ is_top_level z_top elementLines.
Proof.
  intros Hne.
  destruct (py_max_spec (distinct_levels [] (horizontals elementLines)))
    as (m & Hm & Hin & Hle).
  { destruct (horizontals elementLines) as [|s hs] eqn:Hhs; [done|].
    intros Hnil. assert (pz s.1 ∈ distinct_levels [] (s :: hs)) as Hs.
    { apply elem_of_distinct_levels. right. exists s. split; [left|done]. }
    rewrite Hnil in Hs. by apply elem_of_nil in Hs. }
  exists m. split; [done|]. split.
  - apply elem_of_distinct_levels in Hin as [[]%elem_of_nil|Hin]. done.
  - intros s Hs. apply Hle, elem_of_distinct_levels. right. by exists s.
Qed.

Lemma idealizeColumn_partitions (elementLines : list Segment) (z_top : Qc) :
  is_top_level z_top elementLines →
  idealizeColumn elementLines =
  bottom ← calcAvgPoint (bottom_partition z_top elementLines);
  top ← calcAvgPoint (top_partition z_top elementLines);
  Ok (bottom, top).
Proof.
  intros Htop.
  rewrite idealizeColumn_steps, (column_first_loop elementLines [] []). cbn [app].
  destruct (py_max_distinct_levels elementLines) as (m & Hmax & Hm).
  { destruct Htop as [(s & Hs & _) _]. intros Hnil. rewrite Hnil in Hs.
    by apply elem_of_nil in Hs. }
  rewrite (is_top_level_unique _ _ _ Htop Hm).
  by rewrite (column_second_loop _ m _ [] [] Hmax), bind_Ok.
Qed.

(** ** Averages *)

Lemma endpoints_cons (line : Segment) (lines : list Segment) :
  endpoints (line :: lines) = line.1 :: line.2 :: endpoints lines.
Proof. reflexivity. Qed.

Lemma Qc_sum_cons (q : Qc) (qs : list Qc) : Qc_sum (q :: qs) = (q + Qc_sum qs)%Qc.
Proof. reflexivity. Qed.

Lemma calcAvgPoint_sums (lines : list Segment) (x0 y0 z0 : Qc) :
  foldl (λ '(x_avg, y_avg, z_avg) line,
           (x_avg + (px line.1 + px line.2),
            y_avg + (py line.1 + py line.2),
            z_avg + (pz line.1 + pz line.2))%Qc)
        (x0, y0, z0) lines
  = (x0 + Qc_sum (px <$> endpoints lines),
     y0 + Qc_sum (py <$> endpoints lines),
     z0 + Qc_sum (pz <$> endpoints lines))%Qc.
Proof.
  revert x0 y0 z0. induction lines as [|line lines IH]; intros x0 y0 z0.
  - cbn [foldl endpoints flat_map fmap list_fmap Qc_sum foldr].
    by rewrite !Qcplus_0_r.
  - cbn [foldl]. rewrite IH, endpoints_cons, !fmap_cons, !Qc_sum_cons.
    f_equal; [f_equal|]; ring.
Qed.

Lemma length_endpoints (lines : list Segment) :
  length (endpoints lines) = length lines * 2.
Proof.
  induction lines as [|line lines IH]; [done|].
  rewrite endpoints_cons. cbn [length]. rewrite IH. lia.
Qed.

(** On a non-empty list [calcAvgPoint] is the mean of all endpoints, each
    segment contributing two samples. *)
Lemma calcAvgPoint_mean (lines : list Segment) :
  lines ≠ [] → calcAvgPoint lines = Ok (mean_point (endpoints lines)).
Proof.
  intros Hne. unfold calcAvgPoint, mean_point.
  rewrite (calcAvgPoint_sums lines 0 0 0), !Qcplus_0_l, length_endpoints.
  cbv beta iota. unfold py_div.
  destruct (decide (length lines * 2 = 0)) as [Hlen|_]; [|reflexivity].
  destruct lines; [done|]. cbn [length] in Hlen. lia.
Qed.

(** The top partition holds a segment as soon as a top level exists. *)
Lemma top_partition_nonempty (z_top : Qc) (lines : list Segment) :
  is_top_level z_top lines → top_partition z_top lines ≠ [].
Proof.
  intros [(s & Hs & Hz) _] Hnil.
  assert (s ∈ top_partition z_top lines) as Hin
    by (by apply list_elem_of_filter).
  rewrite Hnil in Hin. by apply elem_of_nil in Hin.
Qed.

(** ** Claims about the column idealizer *)

(** C3 (as amended).  When a segment list has no horizontal segment, or
    its horizontal segments leave the top or the bottom partition empty,
    the column idealizer fails: averaging zero points divides by zero and
    raises [ZeroDivisionError]. *)
Theorem idealizeColumn_degenerate_raises (elementLines : list Segment) :
  elementLines ≠ [] →
  (∀ s, s ∈ elementLines → pz s.1 ≠ pz s.2)
  ∨ (∃ z_top, is_top_level z_top elementLines
       ∧ (top_partition z_top elementLines = []
          ∨ bottom_partition z_top elementLines = [])) →
  idealizeColumn elementLines = Raise ZeroDivisionError.
Proof.
  intros _ [Hnone|(z_top & Htop & Hempty)].
  - apply idealizeColumn_no_horizontal, elem_of_nil_inv.
    intros s [Hs Hin]%list_elem_of_filter. by eapply Hnone.
  - destruct Hempty as [Hempty|Hempty].
    + destruct (top_partition_nonempty _ _ Htop Hempty).
    + by rewrite (idealizeColumn_partitions _ _ Htop), Hempty.
Qed.

Lemma idealizeColumn_degenerate_raises_witness :
  single_level ≠ []
  ∧ ((∀ s, s ∈ single_level → pz s.1 ≠ pz s.2)
     ∨ (∃ z_top, is_top_level z_top single_level
          ∧ (top_partition z_top single_level = []
             ∨ bottom_partition z_top single_level = [])))
  ∧ idealizeColumn single_level = Raise ZeroDivisionError.
Proof.
  assert (is_top_level (Qc_of_Z 5) single_level
          ∧ bottom_partition (Qc_of_Z 5) single_level = []) as [Htop Hbot].
  { split; [split|by_evaluation].
    - exists (pt 0 0 5, pt 2 0 5). split; by_evaluation.
    - intros s. replace (horizontals single_level) with [(pt 0 0 5, pt 2 0 5)]
        by by_evaluation.
      intros ->%list_elem_of_singleton. by_evaluation. }
  split; [discriminate|]. split; [right; eauto|].
  apply idealizeColumn_degenerate_raises; [discriminate|right; eauto].
Defined.

(** C3 (counterexample).  A wireframe without horizontal segments and one
    whose horizontal segments lie at a single level make the column
    idealizer raise [ZeroDivisionError], not [IdealizationError]. *)
Lemma idealizeColumn_degenerate_not_IdealizationError :
  (riser_only ≠ []
   ∧ (∀ s, s ∈ riser_only → pz s.1 ≠ pz s.2)
   ∧ idealizeColumn riser_only ≠ Raise IdealizationError)
  ∧ (single_level ≠ []
     ∧ bottom_partition (Qc_of_Z 5) single_level = []
     ∧ idealizeColumn single_level ≠ Raise IdealizationError).
Proof.
  split; (split; [discriminate|]); split; try by_evaluation.
  intros s ->%list_elem_of_singleton. by_evaluation.
Qed.

(** ** Triples, pairs and list comprehensions *)

Lemma length_triples {A} (l : list A) : length (triples l) = length l `div` 3.
Proof.
  induction l as [l IH] using (induction_ltof1 _ length). unfold ltof in IH.
  destruct l as [|x [|y [|z l]]]; [done..|]. cbn [triples length].
  rewrite IH by (cbn [length]; lia).
  change (S (S (S (length l)))) with (3 + length l).
  replace (3 + length l) with (length l + 1 * 3) by lia.
  rewrite Nat.div_add by done. lia.
Qed.

Lemma slice_cons3 {A} (x y z : A) l i :
  slice (x :: y :: z :: l) (S i * 3) (S i * 3 + 3) = slice l (i * 3) (i * 3 + 3).
Proof.
  unfold slice. replace (S i * 3) with (S (S (S (i * 3)))) by lia.
  cbn [drop]. f_equal; lia.
Qed.

(** [triples] is the list comprehension of the program: entry [i] is the
    slice [l[i*3:i*3+3]], for [i] in [range(len(l)//3)]. *)
Lemma triples_lookup {A} (l : list A) (i : nat) (p : A * A * A) :
  triples l !! i = Some p ↔
  i < length l `div` 3 ∧ slice l (i * 3) (i * 3 + 3) = [p.1.1; p.1.2; p.2].
Proof.
  rewrite <-length_triples.
  revert l. induction i as [|i IH]; intros l.
  - destruct l as [|x [|y [|z l]]]; cbn [triples length].
    1-3: split; [done|intros [Hlt _]; lia].
    change (slice (x :: y :: z :: l) (0 * 3) (0 * 3 + 3)) with [x; y; z].
    split.
    + intros [= <-]. split; [lia|done].
    + intros [_ [= -> -> ->]]. by destruct p as [[??]?].
  - destruct l as [|x [|y [|z l]]]; cbn [triples length].
    1-3: split; [done|intros [Hlt _]; lia].
    rewrite slice_cons3, lookup_cons. rewrite IH.
    split; intros [??]; (split; [lia|done]).
Qed.

Lemma length_pairs_of {A} (l : list A) : length (pairs_of l) = length l `div` 2.
Proof.
  induction l as [l IH] using (induction_ltof1 _ length). unfold ltof in IH.
  destruct l as [|a [|b l]]; [done..|]. cbn [pairs_of length].
  rewrite IH by (cbn [length]; lia).
  change (S (S (length l))) with (2 + length l).
  replace (2 + length l) with (length l + 1 * 2) by lia.
  rewrite Nat.div_add by done. lia.
Qed.

Lemma slice_cons2 {A} (a b : A) l i :
  slice (a :: b :: l) (S i * 2) (S i * 2 + 2) = slice l (i * 2) (i * 2 + 2).
Proof.
  unfold slice. replace (S i * 2) with (S (S (i * 2))) by lia.
  cbn [drop]. f_equal; lia.
Qed.

(** Entry [i] of [pairs_of l] is the slice [l[i*2:i*2+2]], for [i] in
    [range(len(l)//2)]. *)
Lemma pairs_of_lookup {A} (l : list A) (i : nat) (p : A * A) :
  pairs_of l !! i = Some p ↔
  i < length l `div` 2 ∧ slice l (i * 2) (i * 2 + 2) = [p.1; p.2].
Proof.
  rewrite <-length_pairs_of.
  revert l. induction i as [|i IH]; intros l.
  - destruct l as [|a [|b l]]; cbn [pairs_of length].
    1-2: split; [done|intros [Hlt _]; lia].
    change (slice (a :: b :: l) (0 * 2) (0 * 2 + 2)) with [a; b].
    split.
    + intros [= <-]. split; [lia|done].
    + intros [_ [= -> ->]]. by destruct p.
  - destruct l as [|a [|b l]]; cbn [pairs_of length].
    1-2: split; [done|intros [Hlt _]; lia].
    rewrite slice_cons2, lookup_cons. rewrite IH.
    split; intros [??]; (split; [lia|done]).
Qed.

(** Values after the last complete triple (pair) do not reach the result. *)
Lemma triples_app_short {A} (l extra : list A) :
  length l `mod` 3 = 0 → length extra < 3 → triples (l ++ extra) = triples l.
Proof.
  induction l as [l IH] using (induction_ltof1 _ length). unfold ltof in IH.
  intros Hmod Hextra. destruct l as [|x [|y [|z l]]].
  - destruct extra as [|? [|? [|? ?]]]; [done..|]. cbn [length] in Hextra. lia.
  - done.
  - done.
  - cbn [app triples]. rewrite IH; [done|cbn [length]; lia| |done].
    cbn [length] in Hmod.
    change (S (S (S (length l)))) with (3 + length l) in Hmod.
    replace (3 + length l) with (length l + 1 * 3) in Hmod by lia.
    by rewrite Nat.Div0.mod_add in Hmod.
Qed.

Lemma pairs_of_app_short {A} (l extra : list A) :
  length l `mod` 2 = 0 → length extra < 2 → pairs_of (l ++ extra) = pairs_of l.
Proof.
  induction l as [l IH] using (induction_ltof1 _ length). unfold ltof in IH.
  intros Hmod Hextra. destruct l as [|a [|b l]].
  - destruct extra as [|? [|? ?]]; [done..|]. cbn [length] in Hextra. lia.
  - done.
  - cbn [app pairs_of]. rewrite IH; [done|cbn [length]; lia| |done].
    cbn [length] in Hmod.
    change (S (S (length l))) with (2 + length l) in Hmod.
    replace (2 + length l) with (length l + 1 * 2) in Hmod by lia.
    by rewrite Nat.Div0.mod_add in Hmod.
Qed.

Lemma elem_of_pairs_of_even {A} (l : list A) (x : A) :
  length l `mod` 2 = 0 → x ∈ l → ∃ p, p ∈ pairs_of l ∧ (p.1 = x ∨ p.2 = x).
Proof.
  induction l as [l IH] using (induction_ltof1 _ length). unfold ltof in IH.
  intros Hmod Hx. destruct l as [|a [|b l]].
  - by apply elem_of_nil in Hx.
  - done.
  - cbn [pairs_of]. apply elem_of_cons in Hx as [->|Hx].
    { exists (a, b). split; [left|by left]. }
    apply elem_of_cons in Hx as [->|Hx].
    { exists (a, b). split; [left|by right]. }
    destruct (IH l) as (p & Hp & Hor); [cbn [length]; lia| |done|].
    + cbn [length] in Hmod.
      change (S (S (length l))) with (2 + length l) in Hmod.
      replace (2 + length l) with (length l + 1 * 2) in Hmod by lia.
      by rewrite Nat.Div0.mod_add in Hmod.
    + exists p. split; [by right|done].
Qed.

Lemma elem_of_pairs_of {A} (l : list A) (a b : A) :
  (a, b) ∈ pairs_of l → a ∈ l ∧ b ∈ l.
Proof.
  induction l as [l IH] using (induction_ltof1 _ length). unfold ltof in IH.
  destruct l as [|x [|y l]]; cbn [pairs_of]; [by intros ?%elem_of_nil..|].
  intros [[= -> ->]|Hin]%elem_of_cons.
  - split; [left|right; left].
  - apply IH in Hin as [??]; [|cbn [length]; lia]. split; by do 2 right.
Qed.

Lemma mapM_result_Ok {A B} (f : A → result B) (xs : list A) (ys : list B) :
  mapM_result f xs = Ok ys ↔ Forall2 (λ x y, f x = Ok y) xs ys.
Proof.
  revert ys. induction xs as [|x xs IH]; intros ys; cbn [mapM_result].
  - split; [intros [= <-]; constructor|by intros ->%Forall2_nil_inv_l].
  - destruct (f x) as [y|e] eqn:Hfx.
    + rewrite bind_Ok. destruct (mapM_result f xs) as [ys'|e] eqn:Hxs.
      * rewrite bind_Ok. split.
        -- intros [= <-]. constructor; [done|]. by apply IH.
        -- intros (y' & ys'' & Hy & Hys & ->)%Forall2_cons_inv_l.
           apply IH in Hys. congruence.
      * split; [done|].
        intros (y' & ys'' & Hy & Hys%IH & ->)%Forall2_cons_inv_l. done.
    + split; [done|].
      intros (y' & ys'' & Hy & _ & ->)%Forall2_cons_inv_l. congruence.
Qed.

Lemma mapM_result_Raise {A B} (f : A → result B) (xs : list A) (e : exn) :
  mapM_result f xs = Raise e → ∃ x, x ∈ xs ∧ f x = Raise e.
Proof.
  induction xs as [|x xs IH]; cbn [mapM_result]; [done|].
  destruct (f x) as [y|e'] eqn:Hfx.
  - rewrite bind_Ok. destruct (mapM_result f xs) as [ys|e'']; [done|].
    intros [= ->]. destruct IH as (x' & ? & ?); [done|].
    exists x'. split; [by right|done].
  - intros [= ->]. exists x. split; [left|done].
Qed.

Lemma mapM_result_is_Ok {A B} (f : A → result B) (xs : list A) :
  (∀ x, x ∈ xs → is_Ok (f x)) → is_Ok (mapM_result f xs).
Proof.
  intros Hall. destruct (mapM_result f xs) as [ys|e] eqn:Hres; [by exists ys|].
  apply mapM_result_Raise in Hres as (x & Hx & Hfx).
  destruct (Hall x Hx) as [y Hy]. congruence.
Qed.

(** A comprehension over [range(k, k+n)] that reads [l[i]] is a
    comprehension over the corresponding slice of [l]. *)
Lemma mapM_result_seq_get {A B} (g : A → result B) (pre mid post : list A) :
  mapM_result (λ i, x ← list_get (pre ++ mid ++ post) i; g x)
              (seq (length pre) (length mid))
  = mapM_result g mid.
Proof.
  revert pre. induction mid as [|x mid IH]; intros pre; [done|].
  cbn [length seq mapM_result app].
  rewrite list_get_middle, bind_Ok.
  specialize (IH (pre ++ [x])).
  rewrite <-(assoc_L (++)) in IH. cbn [app] in IH.
  replace (length (pre ++ [x])) with (S (length pre)) in IH
    by (rewrite length_app; cbn [length]; lia).
  by rewrite IH.
Qed.

Lemma Forall2_Permutation_l {A B} (R : A → B → Prop) (l l' : list A) (k : list B) :
  l ≡ₚ l' → Forall2 R l k → ∃ k', k ≡ₚ k' ∧ Forall2 R l' k'.
Proof.
  intros Hperm. revert k.
  induction Hperm as [|x l l' _ IH|x y l|l l' l'' _ IH1 _ IH2]; intros k Hk.
  - apply Forall2_nil_inv_l in Hk as ->. by exists [].
  - apply Forall2_cons_inv_l in Hk as (z & k0 & Hz & Hk0 & ->).
    destruct (IH _ Hk0) as (k' & Hperm' & Hk').
    exists (z :: k'). split; [by constructor|by constructor].
  - apply Forall2_cons_inv_l in Hk as (z & k0 & Hz & Hk0 & ->).
    apply Forall2_cons_inv_l in Hk0 as (w & k1 & Hw & Hk1 & ->).
    exists (w :: z :: k1). split; [apply perm_swap|by repeat constructor].
  - destruct (IH1 _ Hk) as (k' & Hperm' & Hk').
    destruct (IH2 _ Hk') as (k'' & Hperm'' & Hk'').
    exists k''. split; [by etrans|done].
Qed.

(** ** Python indexing *)

Lemma py_index_nonneg {A} (l : list A) (i : Z) (x : A) :
  (0 ≤ i)%Z → py_index l i = Ok x ↔ l !! Z.to_nat i = Some x.
Proof.
  intros Hi. unfold py_index, list_get. rewrite decide_True by done.
  destruct (l !! Z.to_nat i); split; congruence.
Qed.

Lemma py_index_in_range {A} (l : list A) (i : Z) :
  (- Z.of_nat (length l) ≤ i < Z.of_nat (length l))%Z → is_Ok (py_index l i).
Proof.
  intros Hi. unfold py_index, list_get. case_decide.
  - destruct (lookup_lt_is_Some_2 l (Z.to_nat i)) as [x ->]; [lia|by exists x].
  - rewrite decide_True by lia.
    destruct (lookup_lt_is_Some_2 l (Z.to_nat (Z.of_nat (length l) + i)))
      as [x ->]; [lia|by exists x].
Qed.

Lemma py_index_out_of_range {A} (l : list A) (i : Z) :
  ¬ (- Z.of_nat (length l) ≤ i < Z.of_nat (length l))%Z →
  py_index l i = Raise IndexError.
Proof.
  intros Hi. unfold py_index, list_get. case_decide.
  - by rewrite lookup_ge_None_2 by lia.
  - by rewrite decide_False by lia.
Qed.

Lemma py_index_Raise {A} (l : list A) (i : Z) (e : exn) :
  py_index l i = Raise e → e = IndexError.
Proof.
  unfold py_index, list_get. repeat case_decide;
    repeat match goal with |- context [?l !! ?n] => destruct (l !! n) end;
    congruence.
Qed.

Lemma elem_of_flat_map {A B} (f : A → list B) (l : list A) (y : B) :
  y ∈ flat_map f l ↔ ∃ x, x ∈ l ∧ y ∈ f x.
Proof.
  rewrite list_elem_of_In, in_flat_map. by setoid_rewrite list_elem_of_In.
Qed.

Lemma pairs_of_edge_buffer (line_points : list (Z * Z)) :
  pairs_of (edge_buffer line_points) = line_points.
Proof.
  induction line_points as [|[a b] lps IH]; [done|].
  unfold edge_buffer in *. cbn [flat_map app pairs_of fst snd]. by rewrite IH.
Qed.

(** ** The mesh decoder and the claims about it *)

Section mesh_decoder_properties.
(** The decoder under any iteration order for [list(set(xs))] that lists
    every member once. *)
Variable list_set : list (Z * Z) → list (Z * Z).
Hypothesis list_set_NoDup : ∀ xs, NoDup (list_set xs).
Hypothesis list_set_elem : ∀ xs x, x ∈ list_set xs ↔ x ∈ xs.

Lemma element_lines_resolve (verts : list Qc) (edges : list Z) :
  element_lines list_set verts edges
  = mapM_result (resolve_pair (triples verts)) (list_set (pairs_of edges)).
Proof.
  unfold element_lines. cbv zeta.
  pose proof (mapM_result_seq_get (resolve_pair (triples verts))
                [] (list_set (pairs_of edges)) []) as H.
  rewrite (right_id_L [] (++)) in H. exact H.
Qed.

Lemma resolve_pair_Raise points lp e : resolve_pair points lp = Raise e → e = IndexError.
Proof.
  unfold resolve_pair. destruct (py_index points lp.1) eqn:H1.
  - rewrite bind_Ok. destruct (py_index points lp.2) eqn:H2; [done|].
    intros [= <-]. by eapply py_index_Raise.
  - intros [= <-]. by eapply py_index_Raise.
Qed.

Lemma resolve_pair_valid (verts : list Qc) (a b : Z) :
  (0 ≤ a < Z.of_nat (length verts `div` 3))%Z →
  (0 ≤ b < Z.of_nat (length verts `div` 3))%Z →
  ∃ pa pb, triples verts !! Z.to_nat a = Some pa
           ∧ triples verts !! Z.to_nat b = Some pb
           ∧ resolve_pair (triples verts) (a, b) = Ok (pa, pb).
Proof.
  intros Ha Hb. rewrite <-length_triples in Ha, Hb.
  destruct (lookup_lt_is_Some_2 (triples verts) (Z.to_nat a)) as [pa Hpa]; [lia|].
  destruct (lookup_lt_is_Some_2 (triples verts) (Z.to_nat b)) as [pb Hpb]; [lia|].
  exists pa, pb. split; [done|]. split; [done|]. unfold resolve_pair. cbn [fst snd].
  apply (py_index_nonneg _ _ _ (proj1 Ha)) in Hpa.
  apply (py_index_nonneg _ _ _ (proj1 Hb)) in Hpb.
  by rewrite Hpa, Hpb.
Qed.

Lemma element_lines_valid (verts : list Qc) (edges : list Z) :
  valid_mesh verts edges → is_Ok (element_lines list_set verts edges).
Proof.
  intros (_ & _ & Hrange). rewrite element_lines_resolve.
  apply mapM_result_is_Ok. intros [a b] Hin.
  apply (proj1 (list_set_elem _ _)) in Hin.
  apply elem_of_pairs_of in Hin as [Ha Hb].
  destruct (resolve_pair_valid verts a b) as (pa & pb & _ & _ & ->); eauto.
  by eexists.
Qed.

(** Edge buffers with the same index pairs decode to the same segments,
    up to order. *)
Lemma element_lines_same_pairs (verts : list Qc) (edges edges' : list Z)
    (segs : list Segment) :
  (∀ lp, lp ∈ pairs_of edges ↔ lp ∈ pairs_of edges') →
  element_lines list_set verts edges = Ok segs →
  ∃ segs', element_lines list_set verts edges' = Ok segs' ∧ segs ≡ₚ segs'.
Proof.
  intros Hsame. rewrite !element_lines_resolve. intros Hsegs%mapM_result_Ok.
  assert (list_set (pairs_of edges) ≡ₚ list_set (pairs_of edges')) as Hperm.
  { apply NoDup_Permutation; [done..|]. intros lp.
    by rewrite !list_set_elem. }
  destruct (Forall2_Permutation_l _ _ _ _ Hperm Hsegs) as (segs' & ? & ?).
  exists segs'. split; [by apply mapM_result_Ok|done].
Qed.

(** C5 (as amended).  The decoder never fails with [MalformedMeshError]:
    values after the last complete triple of the vertex buffer and after
    the last complete pair of the edge buffer are dropped silently; with
    [n] points, an index outside [-n ≤ i < n] makes it fail with
    [IndexError], and when all indices are inside it succeeds. *)
Theorem element_lines_tolerates_malformed
    (verts vextra : list Qc) (edges eextra : list Z) :
  length verts `mod` 3 = 0 → length vextra < 3 →
  length edges `mod` 2 = 0 → length eextra < 2 →
  let n := Z.of_nat (length verts `div` 3) in
  element_lines list_set (verts ++ vextra) (edges ++ eextra) = element_lines list_set verts edges
  ∧ element_lines list_set verts edges ≠ Raise MalformedMeshError
  ∧ ((∃ i, i ∈ edges ∧ ¬ (- n ≤ i < n)%Z) →
       element_lines list_set verts edges = Raise IndexError)
  ∧ ((∀ i, i ∈ edges → (- n ≤ i < n)%Z) →
       is_Ok (element_lines list_set verts edges)).
Proof.
  intros Hv Hvx He Hex n. subst n. rewrite <-length_triples.
  split; [|split; [|split]].
  - unfold element_lines. by rewrite triples_app_short, pairs_of_app_short.
  - intros Hraise. rewrite element_lines_resolve in Hraise.
    apply mapM_result_Raise in Hraise as (lp & _ & Hlp).
    by apply resolve_pair_Raise in Hlp.
  - intros (i & Hi & Hout). rewrite element_lines_resolve.
    destruct (elem_of_pairs_of_even _ _ He Hi) as (lp & Hlp & Hor).
    apply (proj2 (list_set_elem _ _)) in Hlp.
    destruct (mapM_result _ _) as [segs|e] eqn:Hres.
    + apply mapM_result_Ok in Hres.
      apply list_elem_of_lookup in Hlp as [k Hk].
      destruct (Forall2_lookup_l _ _ _ _ _ Hres Hk) as (seg & _ & Hseg).
      unfold resolve_pair in Hseg.
      destruct Hor as [<-|<-].
      * by rewrite (py_index_out_of_range _ _ Hout) in Hseg.
      * rewrite (py_index_out_of_range _ lp.2 Hout) in Hseg.
        by destruct (py_index _ lp.1).
    + apply mapM_result_Raise in Hres as (lp' & _ & Hlp').
      by apply resolve_pair_Raise in Hlp' as ->.
  - intros Hin. rewrite element_lines_resolve.
    apply mapM_result_is_Ok. intros [a b] Hab.
    apply (proj1 (list_set_elem _ _)) in Hab.
    apply elem_of_pairs_of in Hab as [Ha Hb].
    destruct (py_index_in_range (triples verts) a (Hin _ Ha)) as [pa Hpa].
    destruct (py_index_in_range (triples verts) b (Hin _ Hb)) as [pb Hpb].
    exists (pa, pb). unfold resolve_pair. cbn [fst snd]. by rewrite Hpa, Hpb.
Qed.

(** C6.  On a valid mesh, the decoder applied to the edge buffer with
    every index pair duplicated and to the edge buffer with duplicate
    pairs removed succeeds on both and yields the same segments: the two
    outputs are permutations of each other, hence equal as sets. *)
Theorem element_lines_dedup_idempotent (verts : list Qc) (edges : list Z) :
  valid_mesh verts edges →
  ∃ segs segs',
    element_lines list_set verts (duplicate_pairs edges) = Ok segs
    ∧ element_lines list_set verts (dedup_pairs edges) = Ok segs'
    ∧ segs ≡ₚ segs'
    ∧ ∀ s, s ∈ segs ↔ s ∈ segs'.
Proof.
  intros Hvalid. destruct (element_lines_valid _ _ Hvalid) as [segs0 Hsegs0].
  destruct (element_lines_same_pairs verts edges (duplicate_pairs edges) segs0)
    as (segs & Hsegs & Hperm); [|done|].
  { intros lp. unfold duplicate_pairs. rewrite pairs_of_edge_buffer.
    rewrite elem_of_flat_map. split.
    - intros Hlp. exists lp. split; [done|left].
    - intros (lp' & Hlp' & Hin). apply elem_of_cons in Hin as [->|Hin]; [done|].
      by apply list_elem_of_singleton in Hin as ->. }
  destruct (element_lines_same_pairs verts edges (dedup_pairs edges) segs0)
    as (segs' & Hsegs' & Hperm'); [|done|].
  { intros lp. unfold dedup_pairs.
    by rewrite pairs_of_edge_buffer, elem_of_remove_dups. }
  exists segs, segs'. split; [done|]. split; [done|].
  assert (segs ≡ₚ segs') as Hss by (by rewrite <-Hperm, Hperm').
  split; [done|]. intros s. by rewrite Hss.
Qed.

(** C7.  On a valid mesh whose edge buffer holds both the index pair
    (a,b) and its reversal (b,a), with a ≠ b, the output holds the
    segment (point[a], point[b]) and the segment (point[b], point[a]) at
    two different positions: reversed pairs are not merged. *)
Theorem element_lines_keeps_reversed_pairs
    (verts : list Qc) (edges : list Z) (a b : Z) :
  valid_mesh verts edges →
  (a, b) ∈ pairs_of edges → (b, a) ∈ pairs_of edges → a ≠ b →
  ∃ segs pa pb,
    element_lines list_set verts edges = Ok segs
    ∧ triples verts !! Z.to_nat a = Some pa
    ∧ triples verts !! Z.to_nat b = Some pb
    ∧ ∃ i j, i ≠ j ∧ segs !! i = Some (pa, pb) ∧ segs !! j = Some (pb, pa).
Proof.
  intros Hvalid Hab Hba Hne.
  destruct (element_lines_valid _ _ Hvalid) as [segs Hsegs].
  destruct Hvalid as (_ & _ & Hrange).
  pose proof (elem_of_pairs_of _ _ _ Hab) as [Ha Hb].
  destruct (resolve_pair_valid verts a b) as (pa & pb & Hpa & Hpb & Hres);
    [by apply Hrange..|].
  destruct (resolve_pair_valid verts b a) as (pb' & pa' & Hpb' & Hpa' & Hres');
    [by apply Hrange..|].
  assert (pa' = pa) as -> by congruence. assert (pb' = pb) as -> by congruence.
  exists segs, pa, pb. split; [done|]. split; [done|]. split; [done|].
  rewrite element_lines_resolve in Hsegs. apply mapM_result_Ok in Hsegs.
  apply (proj2 (list_set_elem _ _)), list_elem_of_lookup in Hab as [i Hi].
  apply (proj2 (list_set_elem _ _)), list_elem_of_lookup in Hba as [j Hj].
  exists i, j. split; [|split].
  - intros ->. rewrite Hi in Hj. congruence.
  - destruct (Forall2_lookup_l _ _ _ _ _ Hsegs Hi) as (seg & Hseg & Hr).
    congruence.
  - destruct (Forall2_lookup_l _ _ _ _ _ Hsegs Hj) as (seg & Hseg & Hr).
    congruence.
Qed.

End mesh_decoder_properties.

Lemma last_seen_order_NoDup xs : NoDup (last_seen_order xs).
Proof. apply NoDup_remove_dups. Qed.

Lemma last_seen_order_elem xs x : x ∈ last_seen_order xs ↔ x ∈ xs.
Proof. apply elem_of_remove_dups. Qed.

Lemma element_lines_tolerates_malformed_witness :
  let verts := two_points in
  let vextra := [Qc_of_Z 7] in
  let edges := [0; 1]%Z in
  let eextra := [0]%Z in
  length verts `mod` 3 = 0 ∧ length vextra < 3
  ∧ length edges `mod` 2 = 0 ∧ length eextra < 2
  ∧ let n := Z.of_nat (length verts `div` 3) in
    element_lines last_seen_order (verts ++ vextra) (edges ++ eextra)
      = element_lines last_seen_order verts edges
    ∧ element_lines last_seen_order verts edges ≠ Raise MalformedMeshError
    ∧ ((∃ i, i ∈ edges ∧ ¬ (- n ≤ i < n)%Z) →
         element_lines last_seen_order verts edges = Raise IndexError)
    ∧ ((∀ i, i ∈ edges → (- n ≤ i < n)%Z) →
         is_Ok (element_lines last_seen_order verts edges)).
Proof.
  cbv zeta. split; [reflexivity|]. split; [cbn; lia|].
  split; [reflexivity|]. split; [cbn; lia|].
  apply (element_lines_tolerates_malformed last_seen_order last_seen_order_elem);
    [reflexivity|cbn; lia|reflexivity|cbn; lia].
Defined.

(** C5 (counterexample).  A vertex buffer of length 7 and an edge buffer of
    length 3 are decoded without error, the leftover values being dropped;
    an index beyond the point list raises [IndexError].  Neither raises
    [MalformedMeshError].  (With a single index pair the iteration order of
    the set is unique.) *)
Lemma element_lines_accepts_leftover_values :
  element_lines last_seen_order (two_points ++ [Qc_of_Z 7]) [0; 1; 0]%Z
    = Ok [(pt 0 0 0, pt 1 1 1)]
  ∧ element_lines last_seen_order two_points [0; 2]%Z = Raise IndexError
  ∧ element_lines last_seen_order two_points [0; 2]%Z ≠ Raise MalformedMeshError.
Proof. repeat split; by_evaluation. Qed.

Lemma two_points_square_edges_valid : valid_mesh two_points square_edges.
Proof.
  split; [reflexivity|]. split; [reflexivity|].
  intros i Hi. change (length two_points `div` 3) with 2.
  unfold square_edges in Hi.
  repeat (apply elem_of_cons in Hi as [->|Hi]; [lia|]).
  by apply elem_of_nil in Hi.
Qed.

Lemma element_lines_dedup_idempotent_witness :
  valid_mesh two_points square_edges
  ∧ ∃ segs segs',
      element_lines last_seen_order two_points (duplicate_pairs square_edges) = Ok segs
      ∧ element_lines last_seen_order two_points (dedup_pairs square_edges) = Ok segs'
      ∧ segs ≡ₚ segs'
      ∧ ∀ s, s ∈ segs ↔ s ∈ segs'.
Proof.
  split; [exact two_points_square_edges_valid|].
  exact (element_lines_dedup_idempotent last_seen_order last_seen_order_NoDup
           last_seen_order_elem _ _ two_points_square_edges_valid).
Defined.

Lemma element_lines_keeps_reversed_pairs_witness :
  valid_mesh two_points square_edges
  ∧ (0, 1)%Z ∈ pairs_of square_edges ∧ (1, 0)%Z ∈ pairs_of square_edges
  ∧ (0 ≠ 1)%Z
  ∧ ∃ segs pa pb,
      element_lines last_seen_order two_points square_edges = Ok segs
      ∧ triples two_points !! Z.to_nat 0 = Some pa
      ∧ triples two_points !! Z.to_nat 1 = Some pb
      ∧ ∃ i j, i ≠ j ∧ segs !! i = Some (pa, pb) ∧ segs !! j = Some (pb, pa).
Proof.
  assert ((0, 1)%Z ∈ pairs_of square_edges) as H01 by (cbn; left).
  assert ((1, 0)%Z ∈ pairs_of square_edges) as H10 by (cbn; right; left).
  split; [exact two_points_square_edges_valid|].
  split; [exact H01|]. split; [exact H10|]. split; [lia|].
  exact (element_lines_keeps_reversed_pairs last_seen_order last_seen_order_elem
           _ _ _ _ two_points_square_edges_valid H01 H10 ltac:(lia)).
Defined.

Example element_lines_square :
  element_lines last_seen_order two_points square_edges
  = Ok [(pt 1 1 1, pt 0 0 0); (pt 0 0 0, pt 1 1 1)].
Proof. by_evaluation. Qed.

(** ** What the serializer leaves in the files *)

Example line_command_ints :
  line_command int_str ((1, 2, 3), (4, 5, 6))%Z = "line 1,2,3 4,5,6 " +:+ newline.
Proof. vm_compute. reflexivity. Qed.

Example str_line_ints :
  str_line int_str ((1, 2, 3), (4, 5, 6))%Z = "((1, 2, 3), (4, 5, 6))".
Proof. vm_compute. reflexivity. Qed.

Example str_replace_no_overlap : str_replace "aa" "b" "aaaaa" = "bba".
Proof. vm_compute. reflexivity. Qed.

Lemma string_app_nil_r (s : string) : s +:+ "" = s.
Proof.
  induction s as [|c s IH]; [done|].
  change (String c (s +:+ "") = String c s). by f_equal.
Qed.

Lemma string_app_assoc (s1 s2 s3 : string) : s1 +:+ (s2 +:+ s3) = (s1 +:+ s2) +:+ s3.
Proof.
  induction s1 as [|c s1 IH]; [done|].
  change (String c (s1 +:+ (s2 +:+ s3)) = String c ((s1 +:+ s2) +:+ s3)).
  by f_equal.
Qed.

Lemma io_bind_unfold {A B} (m : io A) (f : A → io B) (fs : gmap string string) :
  (m ≫= f) fs =
  match m fs with
  | (fs', Ok a) => f a fs'
  | (fs', Raise e) => (fs', Raise e)
  end.
Proof. reflexivity. Qed.

Lemma file_write_lookup (file_name data : string) (fs : gmap string string) (f' : string) :
  (file_write file_name data fs).1 !! f' =
  if decide (f' = file_name) then (λ content, content +:+ data) <$> fs !! f'
  else fs !! f'.
Proof.
  unfold file_write. cbn [fst]. rewrite lookup_alter.
  destruct (decide (file_name = f')) as [->|Hne].
  - by rewrite decide_True.
  - by rewrite decide_False.
Qed.

Lemma for_each_file_write {A} (g : A → string) (file_name : string) (xs : list A)
    (fs : gmap string string) :
  (for_each (λ x, file_write file_name (g x)) xs fs).2 = Ok ()
  ∧ ∀ f', (for_each (λ x, file_write file_name (g x)) xs fs).1 !! f' =
          if decide (f' = file_name)
          then (λ content, content +:+ str_concat (g <$> xs)) <$> fs !! f'
          else fs !! f'.
Proof.
  revert fs. induction xs as [|x xs IH]; intros fs.
  - split; [done|]. intros f'. cbn [for_each mret io_ret fst fmap list_fmap str_concat foldr].
    case_decide; [|done]. destruct (fs !! f'); [|done].
    cbn [fmap option_fmap option_map]. by rewrite string_app_nil_r.
  - cbn [for_each]. rewrite io_bind_unfold.
    change (file_write file_name (g x) fs)
      with ((file_write file_name (g x) fs).1, @Ok () ()).
    destruct (IH (file_write file_name (g x) fs).1) as [Hok Hlook].
    split; [exact Hok|]. intros f'. rewrite Hlook, file_write_lookup.
    case_decide; [|done]. destruct (fs !! f'); [|done].
    cbn [fmap option_fmap option_map list_fmap str_concat foldr].
    by rewrite string_app_assoc.
Qed.

Lemma open_file_lookup (file_name : string) (mode : open_mode)
    (fs : gmap string string) (f' : string) :
  (open_file file_name mode fs).2 = Ok ()
  ∧ (open_file file_name mode fs).1 !! f' =
    if decide (f' = file_name) then Some (opened_content file_name mode fs)
    else fs !! f'.
Proof.
  unfold open_file, opened_content. destruct mode.
  - split; [done|]. cbn [fst]. rewrite lookup_insert.
    destruct (decide (file_name = f')) as [->|Hne].
    + by rewrite decide_True.
    + by rewrite decide_False.
  - destruct (fs !! file_name) as [content|] eqn:Hf; (split; [done|]); cbn [fst].
    + case_decide as Heq; [|done]. by rewrite Heq, Hf.
    + rewrite lookup_insert.
      destruct (decide (file_name = f')) as [->|Hne].
      * by rewrite decide_True.
      * by rewrite decide_False.
Qed.

(** [writeLines] cannot raise; it leaves in [file_name] the opened content
    followed by the header, one command per line and the footer, and
    leaves every other file alone. *)
Lemma writeLines_lookup {A} (coord_str : A → string)
    (lines : list ((A * A * A) * (A * A * A))) (file_name : string)
    (mode : open_mode) (fs : gmap string string) :
  (writeLines coord_str lines file_name mode fs).2 = Ok ()
  ∧ ∀ f', (writeLines coord_str lines file_name mode fs).1 !! f' =
          if decide (f' = file_name)
          then Some (opened_content file_name mode fs +:+ zoom_header
                     +:+ str_concat (line_command coord_str <$> lines)
                     +:+ zoom_footer)
          else fs !! f'.
Proof.
  unfold writeLines. rewrite io_bind_unfold.
  pose proof (open_file_lookup file_name mode fs) as Hopen.
  destruct (open_file file_name mode fs) as [fs1 [[]|e]];
    [|by destruct (Hopen file_name) as [[=] _]].
  cbn [fst snd] in Hopen. rewrite io_bind_unfold.
  change (file_write file_name ("zoom -100,-100,-100 -200,-200,-200" +:+ newline) fs1)
    with ((file_write file_name zoom_header fs1).1, @Ok () ()).
  cbv beta iota. rewrite io_bind_unfold.
  set (fs2 := (file_write file_name zoom_header fs1).1).
  pose proof (for_each_file_write (line_command coord_str) file_name lines fs2)
    as [Hok3 Hlook3].
  destruct (for_each _ lines fs2) as [fs3 r3]. cbn [fst snd] in Hok3, Hlook3.
  subst r3. split; [done|]. intros f'.
  rewrite file_write_lookup, Hlook3. unfold fs2.
  rewrite file_write_lookup. destruct (Hopen f') as [_ ->]. cbn [fst].
  case_decide; [|done].
  cbn [fmap option_fmap option_map]. fold zoom_footer.
  by rewrite !string_app_assoc.
Qed.

(** ** The shape of a segment line *)

Lemma string_app_cons c s t : String c s +:+ t = String c (s +:+ t).
Proof. reflexivity. Qed.

Lemma string_app_nil_l t : "" +:+ t = t.
Proof. reflexivity. Qed.

Lemma replace_go_nil old new : replace_go old new 0 "" = "".
Proof. reflexivity. Qed.

Lemma replace_go_cons_ne (o c : ascii) (old' new s : string) :
  c ≠ o →
  replace_go (String o old') new 0 (String c s)
  = String c (replace_go (String o old') new 0 s).
Proof.
  intros Hc. cbn [replace_go String.prefix].
  by destruct (Ascii.ascii_dec o c) as [->|_].
Qed.

(** A stretch without the first character of [old] is copied. *)
Lemma replace_go_plain_app (o : ascii) (old' new s t : string) :
  no_char o s →
  replace_go (String o old') new 0 (s +:+ t)
  = s +:+ replace_go (String o old') new 0 t.
Proof.
  induction s as [|c s IH]; intros Hs; [done|].
  destruct Hs as [Hc Hs]. rewrite !string_app_cons.
  rewrite replace_go_cons_ne by done. by rewrite IH.
Qed.

Lemma replace_go_char_eq (o : ascii) (new s : string) :
  replace_go (String o "") new 0 (String o s)
  = new +:+ replace_go (String o "") new 0 s.
Proof.
  cbn [replace_go String.prefix String.length Nat.sub].
  destruct (Ascii.ascii_dec o o) as [_|?]; [|done]. by destruct s.
Qed.

(** The three situations in which [),(] is looked for at a [)]. *)
Lemma replace_go_sep_match (new s : string) :
  replace_go "),(" new 0 (String ")" (String "," (String "(" s)))
  = new +:+ replace_go "),(" new 0 s.
Proof. by destruct s. Qed.

Lemma replace_go_sep_paren (new s : string) :
  replace_go "),(" new 0 (String ")" (String ")" s))
  = String ")" (replace_go "),(" new 0 (String ")" s)).
Proof. reflexivity. Qed.

Lemma replace_go_sep_space (new s : string) :
  replace_go "),(" new 0 (String ")" (String " " s))
  = String ")" (replace_go "),(" new 0 (String " " s)).
Proof. reflexivity. Qed.

Ltac string_normal :=
  repeat first [ rewrite <-string_app_assoc | rewrite string_app_cons
               | rewrite string_app_nil_l ].

Ltac replace_steps :=
  repeat first [ rewrite replace_go_plain_app by assumption
               | rewrite replace_go_char_eq
               | rewrite replace_go_sep_match
               | rewrite replace_go_sep_paren
               | rewrite replace_go_sep_space
               | rewrite replace_go_cons_ne by discriminate
               | rewrite replace_go_nil
               | rewrite string_app_nil_l ].

(** For plain coordinate renderings the four replacements turn the tuple
    text into [segment_line]. *)
Lemma line_command_plain {A} (coord_str : A → string)
    (line : (A * A * A) * (A * A * A)) :
  (∀ x, plain (coord_str x)) →
  line_command coord_str line = segment_line coord_str line.
Proof.
  intros Hplain. destruct line as [[[x1 y1] z1] [[x2 y2] z2]].
  destruct (Hplain x1) as (? & ? & ?), (Hplain y1) as (? & ? & ?),
    (Hplain z1) as (? & ? & ?), (Hplain x2) as (? & ? & ?),
    (Hplain y2) as (? & ? & ?), (Hplain z2) as (? & ? & ?).
  unfold line_command, segment_line, str_line, str_point, newline.
  cbv zeta. cbn [fst snd]. unfold str_replace at 4.
  string_normal. replace_steps.
  unfold str_replace at 3. string_normal. replace_steps.
  unfold str_replace at 2. string_normal. replace_steps.
  unfold str_replace. string_normal. replace_steps.
  reflexivity.
Qed.

Lemma pretty_N_char_plain (x : N) :
  pretty_N_char x ≠ " "%char ∧ pretty_N_char x ≠ "("%char
  ∧ pretty_N_char x ≠ ")"%char.
Proof. unfold pretty_N_char. repeat case_match; done. Qed.

Lemma pretty_N_go_plain (x : N) (s : string) : plain s → plain (pretty_N_go x s).
Proof.
  revert s. induction (N.lt_wf_0 x) as [x _ IH]; intros s Hs.
  destruct (decide (x = 0)%N) as [->|Hx]; [by rewrite pretty_N_go_0|].
  rewrite pretty_N_go_step by lia. apply IH; [apply N.div_lt; lia|].
  destruct Hs as (? & ? & ?).
  destruct (pretty_N_char_plain (x `mod` 10)) as (? & ? & ?).
  by repeat split.
Qed.

(** [str] of a Python integer is a sign and digits. *)
Lemma int_str_plain (n : Z) : plain (int_str n).
Proof.
  assert (∀ p : positive, plain (pretty p)) as Hpos.
  { intros p. unfold pretty, pretty_positive, pretty, pretty_N.
    rewrite decide_False by done. apply pretty_N_go_plain. by repeat split. }
  unfold int_str, pretty, pretty_Z. destruct n as [|p|p].
  - by repeat split.
  - apply Hpos.
  - destruct (Hpos p) as (? & ? & ?). rewrite string_app_cons, string_app_nil_l.
    by repeat split.
Qed.

(** ** Claims about the serializer *)

(** C8 (as amended).  For coordinates rendered without space and
    parentheses, [writeLines] cannot fail and leaves in the file the zoom
    header, then for every segment the line [line x1,y1,z1 x2,y2,z2 ]
    (no space between the coordinates of a point, one space between the
    two points, one trailing space) and a newline, then [zoom a].
    Serializing the single-segment list [((1,2,3),(4,5,6))] in mode ["w"]
    leaves exactly the three lines [zoom -100,-100,-100 -200,-200,-200],
    [line 1,2,3 4,5,6 ] and [zoom a], each ended by a newline. *)
Theorem writeLines_format {A} (coord_str : A → string)
    (lines : list ((A * A * A) * (A * A * A)))
    (file_name : string) (mode : open_mode) (fs : gmap string string) :
  (∀ x, plain (coord_str x)) →
  ((writeLines coord_str lines file_name mode fs).2 = Ok ()
   ∧ (writeLines coord_str lines file_name mode fs).1 !! file_name
     = Some (opened_content file_name mode fs +:+ zoom_header
             +:+ str_concat (segment_line coord_str <$> lines)
             +:+ zoom_footer))
  ∧ ((writeLines int_str [((1, 2, 3), (4, 5, 6))%Z] file_name mode_w fs).2 = Ok ()
     ∧ (writeLines int_str [((1, 2, 3), (4, 5, 6))%Z] file_name mode_w fs).1
         !! file_name
       = Some ("zoom -100,-100,-100 -200,-200,-200" +:+ newline
               +:+ "line 1,2,3 4,5,6 " +:+ newline
               +:+ "zoom a" +:+ newline)).
Proof.
  intros Hplain. split.
  - destruct (writeLines_lookup coord_str lines file_name mode fs) as [Hok Hlook].
    split; [exact Hok|]. rewrite Hlook, decide_True by done.
    assert (line_command coord_str <$> lines = segment_line coord_str <$> lines)
      as ->; [|done].
    apply list_fmap_ext. intros _ line _. by apply line_command_plain.
  - destruct (writeLines_lookup int_str [((1, 2, 3), (4, 5, 6))%Z] file_name mode_w fs)
      as [Hok Hlook].
    split; [exact Hok|]. rewrite Hlook, decide_True by done.
    f_equal.
Qed.

Lemma writeLines_format_witness :
  let lines := [((1, 2, 3), (4, 5, 6)); ((-1, 0, 12), (7, 8, 9))]%Z in
  (∀ x, plain (int_str x))
  ∧ ((writeLines int_str lines "3dModel.scr" mode_a ∅).2 = Ok ()
     ∧ (writeLines int_str lines "3dModel.scr" mode_a ∅).1 !! "3dModel.scr"
       = Some (opened_content "3dModel.scr" mode_a ∅ +:+ zoom_header
               +:+ str_concat (segment_line int_str <$> lines)
               +:+ zoom_footer))
  ∧ ((writeLines int_str [((1, 2, 3), (4, 5, 6))%Z] "3dModel.scr" mode_w ∅).2 = Ok ()
     ∧ (writeLines int_str [((1, 2, 3), (4, 5, 6))%Z] "3dModel.scr" mode_w ∅).1
         !! "3dModel.scr"
       = Some ("zoom -100,-100,-100 -200,-200,-200" +:+ newline
               +:+ "line 1,2,3 4,5,6 " +:+ newline
               +:+ "zoom a" +:+ newline)).
Proof.
  split; [exact int_str_plain|].
  exact (writeLines_format int_str _ "3dModel.scr" mode_a ∅ int_str_plain).
Defined.

(** C8 (counterexample).  The file written for [((1,2,3),(4,5,6))] is not
    the three lines without a trailing space: the segment line ends with a
    space before its newline. *)
Lemma writeLines_single_segment_has_trailing_space :
  (writeLines int_str [((1, 2, 3), (4, 5, 6))%Z] "3dModel.scr" mode_w ∅).1
    !! "3dModel.scr"
  ≠ Some ("zoom -100,-100,-100 -200,-200,-200" +:+ newline
          +:+ "line 1,2,3 4,5,6" +:+ newline
          +:+ "zoom a" +:+ newline).
Proof.
  destruct (writeLines_lookup int_str [((1, 2, 3), (4, 5, 6))%Z]
              "3dModel.scr" mode_w ∅) as [_ Hlook].
  rewrite Hlook, decide_True by done. by_evaluation.
Qed.

(** ** Claims about the orchestrator *)

Section pipeline_properties.
Variable list_set : list (Z * Z) → list (Z * Z).
Variable float_str : Qc → string.
Variable ifc_file : string → list ifc_entity.

(** C9 (as amended).  When the geometry kernel yields no beam and no
    column, the run completes without error and leaves both output files
    in existence and empty: neither the zoom header nor the footer is
    written. *)
Theorem process_file_no_elements
    (output_elem_filename output_ideal_filename : string)
    (fs : gmap string string) :
  ifc_file "IfcBeam" = [] → ifc_file "IfcColumn" = [] →
  (process_file list_set float_str ifc_file output_elem_filename output_ideal_filename fs).2 = Ok ()
  ∧ (process_file list_set float_str ifc_file output_elem_filename output_ideal_filename fs).1
      !! output_elem_filename = Some ""
  ∧ (process_file list_set float_str ifc_file output_elem_filename output_ideal_filename fs).1
      !! output_ideal_filename = Some "".
Proof.
  intros Hbeams Hcolumns.
  assert (process_file list_set float_str ifc_file output_elem_filename output_ideal_filename fs
          = (<[output_ideal_filename := ""]> (<[output_elem_filename := ""]> fs),
             Ok ())) as ->.
  { unfold process_file, read_geom. cbn [foldl]. rewrite Hbeams, Hcolumns.
    reflexivity. }
  cbn [fst snd]. split; [done|]. split.
  - destruct (decide (output_ideal_filename = output_elem_filename)) as [->|Hne].
    + by rewrite lookup_insert_eq.
    + by rewrite lookup_insert_ne, lookup_insert_eq.
  - by rewrite lookup_insert_eq.
Qed.

End pipeline_properties.

Lemma process_file_no_elements_witness :
  empty_model "IfcBeam" = [] ∧ empty_model "IfcColumn" = []
  ∧ (process_file last_seen_order float_str_sample empty_model
       "3dModel.scr" "IdealModel.scr" ∅).2 = Ok ()
  ∧ (process_file last_seen_order float_str_sample empty_model
       "3dModel.scr" "IdealModel.scr" ∅).1 !! "3dModel.scr" = Some ""
  ∧ (process_file last_seen_order float_str_sample empty_model
       "3dModel.scr" "IdealModel.scr" ∅).1 !! "IdealModel.scr" = Some "".
Proof.
  split; [reflexivity|]. split; [reflexivity|].
  apply (process_file_no_elements last_seen_order float_str_sample empty_model);
    reflexivity.
Defined.

(** C9 (counterexample).  A run on a model without beams and columns ends
    without error, but neither output file holds the header line followed
    by the footer line: both are empty. *)
Lemma empty_run_writes_no_header :
  (process_file last_seen_order float_str_sample empty_model
     "3dModel.scr" "IdealModel.scr" ∅).2 = Ok ()
  ∧ (process_file last_seen_order float_str_sample empty_model
       "3dModel.scr" "IdealModel.scr" ∅).1 !! "3dModel.scr"
    ≠ Some (zoom_header +:+ zoom_footer)
  ∧ (process_file last_seen_order float_str_sample empty_model
       "3dModel.scr" "IdealModel.scr" ∅).1 !! "IdealModel.scr"
    ≠ Some (zoom_header +:+ zoom_footer).
Proof. repeat split; by_evaluation. Qed.

Example process_file_sample_ideal :
  (process_file last_seen_order float_str_sample sample_model
     "3dModel.scr" "IdealModel.scr" ∅).1 !! "IdealModel.scr"
  = Some (zoom_header +:+ "line 2.0,2.0,10.0 2.0,0.0,10.0 " +:+ newline +:+ zoom_footer
          +:+ zoom_header +:+ "line 1.0,0.0,0.0 1.0,0.0,5.0 " +:+ newline +:+ zoom_footer).
Proof. by_evaluation. Qed.

(** * Part III: further properties *)

(** ** Further properties of the beam idealizer *)




Lemma candidates_midpoints (tops : list Segment) :
  candidates tops = point_pairs (calcMidPoint <$> tops).
Proof.
  induction tops as [|t rest IH]; [done|].
  cbn [candidates fmap list_fmap point_pairs]. rewrite IH. f_equal.
  cbn [map]. f_equal. unfold midpoint_segment.
  rewrite map_map. reflexivity.
Qed.



(** The result of the beam idealizer from the midpoints of the top lines. *)
Lemma idealizeBeam_by_midpoints (elementLines : list Segment) (z_max : Qc) :
  is_z_max z_max elementLines →
  idealizeBeam elementLines =
  Ok (foldl beam_step origin_segment
        (point_pairs (calcMidPoint <$> top_lines z_max elementLines))).
Proof.
  intros Hz. assert (elementLines ≠ []) as Hne.
  { intros ->. destruct Hz as [Hin _]. by apply elem_of_nil in Hin. }
  destruct (idealizeBeam_result _ Hne) as (z & Hz' & ->).
  by rewrite (is_z_max_unique _ _ _ Hz Hz'), candidates_midpoints.
Qed.






Lemma Qc_nonneg_sum_zero (a b : Qc) :
  (0 ≤ a)%Qc → (0 ≤ b)%Qc → (a + b = 0)%Qc → a = 0%Qc ∧ b = 0%Qc.
Proof.
  intros Ha Hb Hab.
  assert (a ≤ 0)%Qc as Ha'.
  { rewrite <-Hab. rewrite <-(Qcplus_0_r a) at 1.
    apply Qcplus_le_compat; [apply Qcle_refl|done]. }
  assert (a = 0%Qc) as -> by (by apply Qcle_antisym).
  split; [done|]. by rewrite Qcplus_0_l in Hab.
Qed.

Lemma Qc_square_zero (x : Qc) : (x ^ 2 = 0)%Qc → x = 0%Qc.
Proof.
  cbn [Qcpower]. rewrite Qcmult_1_r. by intros [?|?]%Qcmult_integral.
Qed.

Lemma Qc_minus_zero (x y : Qc) : (x - y = 0)%Qc → x = y.
Proof. intros H. rewrite <-(Qcplus_0_l y), <-H. ring. Qed.

(** The length of a segment is zero exactly when its endpoints coincide. *)
Lemma calcLength_zero_iff (p q : Point3) :
  radicand (calcLength (p, q)) = 0%Qc ↔ p = q.
Proof.
  split.
  - unfold calcLength. cbn [radicand fst snd]. intros H.
    apply Qc_nonneg_sum_zero in H as [H Hz];
      [|apply Qc_add_nonneg; apply Qc_square_nonneg|apply Qc_square_nonneg].
    apply Qc_nonneg_sum_zero in H as [Hx Hy]; [|apply Qc_square_nonneg..].
    apply Qc_square_zero, Qc_minus_zero in Hx, Hy, Hz.
    destruct p as [[??]?], q as [[??]?]. unfold px, py, pz in *.
    cbn [fst snd] in *. by subst.
  - intros ->. unfold calcLength. cbn [radicand fst snd Qcpower]. ring.
Qed.












(** X4.  The idealized beam is fixed by the top lines: inputs with the same
    greatest z and the same top lines give the same result. *)
Theorem idealizeBeam_determined_by_top_lines
    (elementLines elementLines' : list Segment) (z_max : Qc) :
  is_z_max z_max elementLines → is_z_max z_max elementLines' →
  top_lines z_max elementLines = top_lines z_max elementLines' →
  idealizeBeam elementLines = idealizeBeam elementLines'.
Proof.
  intros Hz Hz' Htops.
  by rewrite (idealizeBeam_by_midpoints _ _ Hz), (idealizeBeam_by_midpoints _ _ Hz'), Htops.
Qed.

Lemma is_z_max_Forall (z : Qc) (lines : list Segment) :
  z ∈ endpoint_zs lines ∧ Forall (λ z', (z' ≤ z)%Qc) (endpoint_zs lines) →
  is_z_max z lines.
Proof. intros [Hin Hall]. split; [done|]. by apply Forall_forall. Qed.

Lemma idealizeBeam_determined_by_top_lines_witness :
  let elementLines := [top_line_a; top_line_b] in
  let elementLines' :=
    [(pt 0 0 0, pt 4 0 0); top_line_a; (pt 0 0 0, pt 0 0 10); top_line_b] in
  is_z_max (Qc_of_Z 10) elementLines ∧ is_z_max (Qc_of_Z 10) elementLines'
  ∧ top_lines (Qc_of_Z 10) elementLines = top_lines (Qc_of_Z 10) elementLines'
  ∧ idealizeBeam elementLines = idealizeBeam elementLines'.
Proof.
  cbv zeta.
  assert (is_z_max (Qc_of_Z 10) [top_line_a; top_line_b]) as H1
    by (apply is_z_max_Forall; by_evaluation).
  assert (is_z_max (Qc_of_Z 10)
            [(pt 0 0 0, pt 4 0 0); top_line_a; (pt 0 0 0, pt 0 0 10); top_line_b])
    as H2 by (apply is_z_max_Forall; by_evaluation).
  assert (top_lines (Qc_of_Z 10) [top_line_a; top_line_b]
          = top_lines (Qc_of_Z 10)
              [(pt 0 0 0, pt 4 0 0); top_line_a; (pt 0 0 0, pt 0 0 10); top_line_b])
    as H3 by by_evaluation.
  split; [exact H1|]. split; [exact H2|]. split; [exact H3|].
  exact (idealizeBeam_determined_by_top_lines _ _ _ H1 H2 H3).
Defined.

(** ** Further properties of the column idealizer *)

Lemma calcAvgPoint_average_of (lines : list Segment) :
  calcAvgPoint lines = average_of (endpoints lines).
Proof.
  destruct lines as [|line lines]; [done|].
  rewrite calcAvgPoint_mean by done. by rewrite endpoints_cons.
Qed.

Lemma Qc_sum_Permutation (qs qs' : list Qc) : qs ≡ₚ qs' → Qc_sum qs = Qc_sum qs'.
Proof.
  induction 1 as [|q l l' _ IH|q1 q2 l|l l' l'' _ IH1 _ IH2].
  - done.
  - by rewrite !Qc_sum_cons, IH.
  - rewrite !Qc_sum_cons. ring.
  - congruence.
Qed.

Lemma mean_point_Permutation (points points' : list Point3) :
  points ≡ₚ points' → mean_point points = mean_point points'.
Proof.
  intros Hperm. unfold mean_point.
  rewrite (Permutation_length Hperm).
  by rewrite (Qc_sum_Permutation (px <$> points) (px <$> points')),
    (Qc_sum_Permutation (py <$> points) (py <$> points')),
    (Qc_sum_Permutation (pz <$> points) (pz <$> points')) by (by rewrite Hperm).
Qed.

Lemma average_of_Permutation (points points' : list Point3) :
  points ≡ₚ points' → average_of points = average_of points'.
Proof.
  intros Hperm. destruct points as [|p points].
  { by apply Permutation_nil_l in Hperm as <-. }
  destruct points' as [|p' points'].
  { by apply Permutation_nil_r in Hperm. }
  cbn [average_of]. f_equal. by apply mean_point_Permutation.
Qed.

(** The three outcomes of the column idealizer. *)
Lemma idealizeColumn_cases (elementLines : list Segment) :
  (horizontals elementLines = []
   ∧ idealizeColumn elementLines = Raise ZeroDivisionError)
  ∨ ∃ z_top, is_top_level z_top elementLines
      ∧ idealizeColumn elementLines =
        bottom ← average_of (endpoints (bottom_partition z_top elementLines));
        top ← average_of (endpoints (top_partition z_top elementLines));
        Ok (bottom, top).
Proof.
  destruct (horizontals elementLines) as [|h hs] eqn:Hhs.
  { left. split; [done|]. by apply idealizeColumn_no_horizontal. }
  right. destruct (py_max_distinct_levels elementLines) as (z_top & _ & Htop).
  { by rewrite Hhs. }
  exists z_top. split; [done|].
  by rewrite (idealizeColumn_partitions _ _ Htop), !calcAvgPoint_average_of.
Qed.

Lemma endpoints_nil_iff (lines : list Segment) : endpoints lines = [] ↔ lines = [].
Proof. by destruct lines. Qed.

Lemma elem_of_horizontals (lines : list Segment) (s : Segment) :
  s ∈ horizontals lines ↔ s ∈ lines ∧ pz s.1 = pz s.2.
Proof. unfold horizontals. rewrite list_elem_of_filter. tauto. Qed.


(** X6.  The column idealizer succeeds exactly when the input holds
    horizontal segments at two different levels; when it fails, the error
    is [ZeroDivisionError], also on the empty list. *)
Theorem idealizeColumn_succeeds_iff (elementLines : list Segment) :
  (is_Ok (idealizeColumn elementLines)
   ↔ ∃ s1 s2, s1 ∈ elementLines ∧ s2 ∈ elementLines
              ∧ pz s1.1 = pz s1.2 ∧ pz s2.1 = pz s2.2 ∧ pz s1.1 ≠ pz s2.1)
  ∧ ∀ e, idealizeColumn elementLines = Raise e → e = ZeroDivisionError.
Proof.
  destruct (idealizeColumn_cases elementLines) as [[Hnone ->]|(z_top & Htop & ->)].
  { split; [|by intros e [= <-]]. split; [by intros [r ?]|].
    intros (s1 & _ & Hs1 & _ & Hh & _).
    assert (s1 ∈ horizontals elementLines) as Hin by (by apply elem_of_horizontals).
    rewrite Hnone in Hin. by apply elem_of_nil in Hin. }
  pose proof (top_partition_nonempty _ _ Htop) as Htopne.
  destruct (top_partition z_top elementLines) as [|t ts] eqn:Htp; [done|].
  destruct (bottom_partition z_top elementLines) as [|b bs] eqn:Hbp.
  - split; [|by intros e [= <-]]. split; [by intros [r ?]|].
    intros (s1 & s2 & Hs1 & Hs2 & Hh1 & Hh2 & Hne). exfalso.
    assert (∀ s, s ∈ elementLines → pz s.1 = pz s.2 → pz s.1 = z_top) as Hall.
    { intros s Hs Hh. destruct (decide (pz s.1 = z_top)) as [|Hne']; [done|].
      assert (s ∈ bottom_partition z_top elementLines) as Hin.
      { apply list_elem_of_filter. split; [done|]. by apply elem_of_horizontals. }
      rewrite Hbp in Hin. by apply elem_of_nil in Hin. }
    apply Hne. by rewrite (Hall s1), (Hall s2).
  - rewrite !endpoints_cons. cbn [average_of]. rewrite !bind_Ok.
    split; [|done]. split; [|by eexists].
    intros _.
    assert (t ∈ top_partition z_top elementLines) as Ht by (rewrite Htp; left).
    assert (b ∈ bottom_partition z_top elementLines) as Hb by (rewrite Hbp; left).
    apply list_elem_of_filter in Ht as [Htz [Ht Hth]%elem_of_horizontals].
    apply list_elem_of_filter in Hb as [Hbz [Hb Hbh]%elem_of_horizontals].
    exists t, b. repeat split; try done. congruence.
Qed.

Lemma is_top_level_same_elements (z_top : Qc) (lines lines' : list Segment) :
  (∀ s, s ∈ horizontals lines ↔ s ∈ horizontals lines') →
  is_top_level z_top lines → is_top_level z_top lines'.
Proof.
  intros Hsame [(s & Hs & Hz) Hle]. split.
  - exists s. split; [by apply (proj1 (Hsame _))|done].
  - intros s' Hs'. by apply Hle, (proj2 (Hsame _)).
Qed.

(** The outcome is fixed by the endpoints of the two partitions, up to
    order. *)
Lemma idealizeColumn_by_endpoints (lines lines' : list Segment) (z_top : Qc) :
  is_top_level z_top lines → is_top_level z_top lines' →
  endpoints (bottom_partition z_top lines) ≡ₚ endpoints (bottom_partition z_top lines') →
  endpoints (top_partition z_top lines) ≡ₚ endpoints (top_partition z_top lines') →
  idealizeColumn lines = idealizeColumn lines'.
Proof.
  intros Htop Htop' Hb Ht.
  destruct (idealizeColumn_cases lines) as [[Hnone _]|(z & Hz & ->)].
  { destruct Htop as [(s & Hs & _) _]. rewrite Hnone in Hs.
    by apply elem_of_nil in Hs. }
  destruct (idealizeColumn_cases lines') as [[Hnone _]|(z' & Hz' & ->)].
  { destruct Htop' as [(s & Hs & _) _]. rewrite Hnone in Hs.
    by apply elem_of_nil in Hs. }
  rewrite <-(is_top_level_unique _ _ _ Htop Hz).
  rewrite <-(is_top_level_unique _ _ _ Htop' Hz').
  by rewrite (average_of_Permutation _ _ Hb), (average_of_Permutation _ _ Ht).
Qed.

Lemma endpoints_Permutation (lines lines' : list Segment) :
  lines ≡ₚ lines' → endpoints lines ≡ₚ endpoints lines'.
Proof. intros Hperm. unfold endpoints. by apply Permutation_flat_map. Qed.

Lemma idealizeColumn_Permutation (elementLines elementLines' : list Segment) :
  elementLines ≡ₚ elementLines' →
  idealizeColumn elementLines = idealizeColumn elementLines'.
Proof.
  intros Hperm.
  assert (horizontals elementLines ≡ₚ horizontals elementLines') as Hh
    by (unfold horizontals; by rewrite Hperm).
  destruct (idealizeColumn_cases elementLines) as [[Hnone ->]|(z & Hz & _)].
  { rewrite Hnone in Hh. apply Permutation_nil_l in Hh.
    by rewrite idealizeColumn_no_horizontal. }
  assert (is_top_level z elementLines') as Hz'.
  { eapply is_top_level_same_elements; [|exact Hz]. intros s. by rewrite Hh. }
  apply (idealizeColumn_by_endpoints _ _ z Hz Hz');
    apply endpoints_Permutation; unfold bottom_partition, top_partition;
    by rewrite Hh.
Qed.

Lemma Forall2_filter_related {A} (R : A → A → Prop) (P Q : A → Prop)
    `{∀ x, Decision (P x)} `{∀ x, Decision (Q x)} (l l' : list A) :
  (∀ x y, R x y → P x ↔ Q y) →
  Forall2 R l l' → Forall2 R (filter P l) (filter Q l').
Proof.
  intros HPQ. induction 1 as [|x y l l' Hxy _ IH]; [constructor|].
  rewrite !filter_cons. destruct (decide (P x)) as [HP|HP].
  - rewrite decide_True by (by apply (HPQ x y)). by constructor.
  - by rewrite decide_False by (by rewrite <-(HPQ x y)).
Qed.

(** [line'] is the horizontal segment [line], possibly with its endpoints
    exchanged. *)
Lemma same_or_flipped_horizontals (lines lines' : list Segment) :
  Forall2 same_or_flipped lines lines' →
  Forall2 (λ s s', same_or_flipped s s' ∧ pz s.1 = pz s.2)
          (horizontals lines) (horizontals lines').
Proof.
  unfold horizontals. induction 1 as [|s s' l l' Hs _ IH]; [constructor|].
  rewrite !filter_cons.
  assert (pz s'.1 = pz s'.2 ↔ pz s.1 = pz s.2) as Hiff.
  { destruct Hs as [->| ->]; [done|]. cbn [swap_ends fst snd]. split; by intros ->. }
  destruct (decide (pz s.1 = pz s.2)) as [Hh|Hh].
  - rewrite decide_True by (by apply Hiff). by constructor.
  - by rewrite decide_False by (by rewrite Hiff).
Qed.

Lemma flipped_horizontal_level (s s' : Segment) :
  same_or_flipped s s' ∧ pz s.1 = pz s.2 → pz s'.1 = pz s.1.
Proof. intros [[->| ->] Hh]; [done|]. cbn [swap_ends fst snd]. done. Qed.

Lemma flipped_endpoints (lines lines' : list Segment) :
  Forall2 (λ s s', same_or_flipped s s' ∧ pz s.1 = pz s.2) lines lines' →
  endpoints lines ≡ₚ endpoints lines'.
Proof.
  induction 1 as [|s s' l l' [Hs _] _ IH]; [done|].
  rewrite !endpoints_cons. destruct Hs as [->| ->].
  - by rewrite IH.
  - cbn [swap_ends fst snd]. rewrite IH. apply perm_swap.
Qed.

(** X8.  Exchanging the endpoints of any segments of the input leaves the
    idealized column unchanged. *)
Theorem idealizeColumn_flip_invariant (elementLines elementLines' : list Segment) :
  Forall2 same_or_flipped elementLines elementLines' →
  idealizeColumn elementLines' = idealizeColumn elementLines.
Proof.
  intros Hflip%same_or_flipped_horizontals.
  destruct (idealizeColumn_cases elementLines) as [[Hnone ->]|(z & Hz & _)].
  { rewrite Hnone in Hflip. apply Forall2_nil_inv_l in Hflip.
    by apply idealizeColumn_no_horizontal. }
  assert (is_top_level z elementLines') as Hz'.
  { destruct Hz as [(s & Hs & Hsz) Hle]. split.
    - apply list_elem_of_lookup in Hs as [i Hi].
      destruct (Forall2_lookup_l _ _ _ _ _ Hflip Hi) as (s' & Hi' & Hss').
      exists s'. split; [by eapply list_elem_of_lookup_2|].
      by rewrite (flipped_horizontal_level _ _ Hss').
    - intros s' Hs'. apply list_elem_of_lookup in Hs' as [i Hi'].
      destruct (Forall2_lookup_r _ _ _ _ _ Hflip Hi') as (s0 & Hi & Hss').
      rewrite (flipped_horizontal_level _ _ Hss').
      apply Hle. by eapply list_elem_of_lookup_2. }
  symmetry. apply (idealizeColumn_by_endpoints _ _ z Hz Hz');
    apply flipped_endpoints; unfold bottom_partition, top_partition;
    (eapply Forall2_filter_related; [|exact Hflip]);
    intros s s' Hss'; by rewrite (flipped_horizontal_level _ _ Hss').
Qed.

Lemma idealizeColumn_flip_invariant_witness :
  Forall2 same_or_flipped two_levels [swap_ends bottom_ring; (pt 0 0 0, pt 0 0 5); top_ring]
  ∧ idealizeColumn [swap_ends bottom_ring; (pt 0 0 0, pt 0 0 5); top_ring]
    = idealizeColumn two_levels.
Proof.
  assert (Forall2 same_or_flipped two_levels
            [swap_ends bottom_ring; (pt 0 0 0, pt 0 0 5); top_ring]) as H.
  { constructor; [by right|]. constructor; [by left|].
    constructor; [by left|]. constructor. }
  split; [exact H|]. exact (idealizeColumn_flip_invariant _ _ H).
Defined.

(** *** Levels of the idealized column *)

Lemma Qc_of_nat_pos (n : nat) : n ≠ 0 → (0 < Qc_of_Z (Z.of_nat n))%Qc.
Proof.
  intros Hn. rewrite <-Z2Qc_inj_0.
  apply (proj1 (Z2Qc_inj_lt 0 (Z.of_nat n))). lia.
Qed.

Lemma Qc_sum_const (c : Qc) (qs : list Qc) :
  (∀ q, q ∈ qs → q = c) → Qc_sum qs = (Qc_of_Z (Z.of_nat (length qs)) * c)%Qc.
Proof.
  induction qs as [|q qs IH]; intros Hall.
  - cbn [length Qc_sum foldr]. change (Z.of_nat 0) with 0%Z.
    rewrite Z2Qc_inj_0. ring.
  - rewrite Qc_sum_cons, IH by (intros ??; apply Hall; by right).
    rewrite (Hall q) by left. cbn [length].
    rewrite Nat2Z.inj_succ, <-Z.add_1_r, Z2Qc_inj_add, Z2Qc_inj_1. ring.
Qed.

Lemma Qc_sum_lt (c : Qc) (qs : list Qc) :
  qs ≠ [] → (∀ q, q ∈ qs → (q < c)%Qc) →
  (Qc_sum qs < Qc_of_Z (Z.of_nat (length qs)) * c)%Qc.
Proof.
  induction qs as [|q qs IH]; [done|]. intros _ Hall.
  rewrite Qc_sum_cons. cbn [length].
  rewrite Nat2Z.inj_succ, <-Z.add_1_r, Z2Qc_inj_add, Z2Qc_inj_1.
  replace ((Qc_of_Z (Z.of_nat (length qs)) + 1) * c)%Qc
    with (c + Qc_of_Z (Z.of_nat (length qs)) * c)%Qc by ring.
  destruct qs as [|q' qs].
  - cbn [length Qc_sum foldr]. change (Z.of_nat 0) with 0%Z.
    rewrite Z2Qc_inj_0, Qcmult_0_l, !Qcplus_0_r. apply Hall. left.
  - eapply Qclt_trans.
    + apply Qcplus_lt_mono_r, Hall. left.
    + apply Qcplus_lt_mono_l, IH; [done|]. intros ??. apply Hall. by right.
Qed.

Lemma Qc_div_lt (x c n : Qc) : (0 < n)%Qc → (x < n * c)%Qc → (x / n < c)%Qc.
Proof.
  intros Hn Hx. apply (Qcmult_lt_mono_pos_r _ _ n Hn).
  replace (x / n * n)%Qc with x; [by rewrite (Qcmult_comm c)|].
  field. by apply Qclt_not_eq in Hn.
Qed.

Lemma mean_point_z_const (c : Qc) (points : list Point3) :
  points ≠ [] → (∀ p, p ∈ points → pz p = c) → pz (mean_point points) = c.
Proof.
  intros Hne Hall. unfold mean_point, pz at 1. cbn [snd].
  rewrite (Qc_sum_const c), length_fmap.
  - field. apply not_eq_sym, Qclt_not_eq, Qc_of_nat_pos. by destruct points.
  - intros q (p & -> & Hp)%list_elem_of_fmap. by apply Hall.
Qed.

Lemma mean_point_z_lt (c : Qc) (points : list Point3) :
  points ≠ [] → (∀ p, p ∈ points → (pz p < c)%Qc) → (pz (mean_point points) < c)%Qc.
Proof.
  intros Hne Hall. unfold mean_point, pz at 1. cbn [snd].
  apply Qc_div_lt; [apply Qc_of_nat_pos; by destruct points|].
  rewrite <-(length_fmap pz). apply Qc_sum_lt; [by destruct points|].
  intros q (p & -> & Hp)%list_elem_of_fmap. by apply Hall.
Qed.

Lemma elem_of_endpoints (lines : list Segment) (p : Point3) :
  p ∈ endpoints lines ↔ ∃ s, s ∈ lines ∧ (p = s.1 ∨ p = s.2).
Proof.
  unfold endpoints. rewrite elem_of_flat_map. split.
  - intros (s & Hs & Hp). exists s. split; [done|].
    apply elem_of_cons in Hp as [->|Hp]; [by left|].
    apply list_elem_of_singleton in Hp as ->. by right.
  - intros (s & Hs & [->| ->]); exists s; (split; [done|]); [left|right; left].
Qed.

(** ** Further properties of the mesh decoder *)

Lemma py_index_negative {A} (l : list A) (i : Z) (x : A) :
  (i < 0)%Z → py_index l i = Ok x →
  l !! Z.to_nat (Z.of_nat (length l) + i) = Some x.
Proof.
  intros Hi. unfold py_index, list_get. rewrite decide_False by lia.
  case_decide; [|done]. by destruct (l !! _) as [y|]; intros [= ->].
Qed.

Lemma py_index_elem_of {A} (l : list A) (i : Z) (x : A) :
  py_index l i = Ok x → x ∈ l.
Proof.
  unfold py_index, list_get. repeat case_decide; [| |done];
    (destruct (l !! _) as [y|] eqn:Hy; [|done]); intros [= ->];
    by eapply list_elem_of_lookup_2.
Qed.

Section mesh_decoder_more.
Variable list_set : list (Z * Z) → list (Z * Z).
Hypothesis list_set_NoDup : ∀ xs, NoDup (list_set xs).
Hypothesis list_set_elem : ∀ xs x, x ∈ list_set xs ↔ x ∈ xs.

Lemma element_lines_Forall2 (verts : list Qc) (edges : list Z) (segs : list Segment) :
  element_lines list_set verts edges = Ok segs ↔
  Forall2 (λ lp s, resolve_pair (triples verts) lp = Ok s)
          (list_set (pairs_of edges)) segs.
Proof. rewrite element_lines_resolve. apply mapM_result_Ok. Qed.

Lemma resolve_pair_Ok (points : list Point3) (lp : Z * Z) (s : Segment) :
  resolve_pair points lp = Ok s ↔
  py_index points lp.1 = Ok s.1 ∧ py_index points lp.2 = Ok s.2.
Proof.
  unfold resolve_pair. destruct s as [p q]. cbn [fst snd].
  destruct (py_index points lp.1) as [p'|e]; [|split; [done|by intros [[=] _]]].
  rewrite bind_Ok.
  destruct (py_index points lp.2) as [q'|e]; [|split; [done|by intros [_ [=]]]].
  rewrite bind_Ok. split; [by intros [= -> ->]|by intros [[= ->] [= ->]]].
Qed.

(** X10.  The decoder emits one segment per distinct index pair. *)
Theorem element_lines_length (verts : list Qc) (edges : list Z) (segs : list Segment) :
  element_lines list_set verts edges = Ok segs →
  length segs = length (remove_dups (pairs_of edges)).
Proof.
  intros Hsegs%element_lines_Forall2. rewrite <-(Forall2_length _ _ _ Hsegs).
  apply Permutation_length, NoDup_Permutation;
    [done|apply NoDup_remove_dups|].
  intros lp. by rewrite list_set_elem, elem_of_remove_dups.
Qed.

(** X11.  The segments of the output are exactly those named by the index
    pairs of the edge buffer, and their endpoints are points of the vertex
    buffer. *)
Theorem element_lines_elem_of (verts : list Qc) (edges : list Z) (segs : list Segment) :
  element_lines list_set verts edges = Ok segs →
  ∀ s, s ∈ segs ↔
       ∃ a b, (a, b) ∈ pairs_of edges
              ∧ py_index (triples verts) a = Ok s.1
              ∧ py_index (triples verts) b = Ok s.2
              ∧ s.1 ∈ triples verts ∧ s.2 ∈ triples verts.
Proof.
  intros Hsegs%element_lines_Forall2 s. split.
  - intros [i Hi]%list_elem_of_lookup.
    destruct (Forall2_lookup_r _ _ _ _ _ Hsegs Hi) as ([a b] & Hlp & Hres).
    apply resolve_pair_Ok in Hres as [Ha Hb]. cbn [fst snd] in Ha, Hb.
    exists a, b. split.
    { apply (proj1 (list_set_elem _ _)). by eapply list_elem_of_lookup_2. }
    split; [done|]. split; [done|]. split; by eapply py_index_elem_of.
  - intros (a & b & Hab & Ha & Hb & _).
    apply (proj2 (list_set_elem _ _)), list_elem_of_lookup in Hab as [i Hi].
    destruct (Forall2_lookup_l _ _ _ _ _ Hsegs Hi) as (s' & Hs' & Hres).
    apply resolve_pair_Ok in Hres as [Ha' Hb']. cbn [fst snd] in Ha', Hb'.
    assert (s' = s) as ->.
    { destruct s, s'. cbn [fst snd] in *. congruence. }
    by eapply list_elem_of_lookup_2.
Qed.

(** X12.  A negative edge index is not rejected: it counts from the end of
    the point list, as long as it stays within it. *)
Theorem element_lines_negative_index
    (verts : list Qc) (edges : list Z) (segs : list Segment) (a b : Z) :
  element_lines list_set verts edges = Ok segs →
  (a, b) ∈ pairs_of edges → (a < 0)%Z →
  ∃ p q, triples verts !! Z.to_nat (Z.of_nat (length verts `div` 3) + a) = Some p
         ∧ py_index (triples verts) b = Ok q
         ∧ (p, q) ∈ segs.
Proof.
  intros Hsegs%element_lines_Forall2 Hab Ha.
  apply (proj2 (list_set_elem _ _)), list_elem_of_lookup in Hab as [i Hi].
  destruct (Forall2_lookup_l _ _ _ _ _ Hsegs Hi) as ([p q] & Hs & Hres).
  apply resolve_pair_Ok in Hres as [Hp Hq]. cbn [fst snd] in Hp, Hq.
  exists p, q. split.
  - rewrite <-length_triples. by apply py_index_negative.
  - split; [done|]. by eapply list_elem_of_lookup_2.
Qed.
End mesh_decoder_more.

Lemma element_lines_length_witness :
  element_lines last_seen_order two_points square_edges
    = Ok [(pt 1 1 1, pt 0 0 0); (pt 0 0 0, pt 1 1 1)]
  ∧ length [(pt 1 1 1, pt 0 0 0); (pt 0 0 0, pt 1 1 1)]
    = length (remove_dups (pairs_of square_edges)).
Proof.
  assert (element_lines last_seen_order two_points square_edges
          = Ok [(pt 1 1 1, pt 0 0 0); (pt 0 0 0, pt 1 1 1)]) as H by by_evaluation.
  split; [exact H|].
  exact (element_lines_length last_seen_order last_seen_order_NoDup
           last_seen_order_elem _ _ _ H).
Defined.

Lemma element_lines_elem_of_witness :
  element_lines last_seen_order two_points square_edges
    = Ok [(pt 1 1 1, pt 0 0 0); (pt 0 0 0, pt 1 1 1)]
  ∧ ∀ s, s ∈ [(pt 1 1 1, pt 0 0 0); (pt 0 0 0, pt 1 1 1)] ↔
         ∃ a b, (a, b) ∈ pairs_of square_edges
                ∧ py_index (triples two_points) a = Ok s.1
                ∧ py_index (triples two_points) b = Ok s.2
                ∧ s.1 ∈ triples two_points ∧ s.2 ∈ triples two_points.
Proof.
  assert (element_lines last_seen_order two_points square_edges
          = Ok [(pt 1 1 1, pt 0 0 0); (pt 0 0 0, pt 1 1 1)]) as H by by_evaluation.
  split; [exact H|].
  exact (element_lines_elem_of last_seen_order last_seen_order_elem _ _ _ H).
Defined.

Lemma element_lines_negative_index_witness :
  element_lines last_seen_order two_points [-1; 0]%Z = Ok [(pt 1 1 1, pt 0 0 0)]
  ∧ (-1, 0)%Z ∈ pairs_of [-1; 0]%Z ∧ (-1 < 0)%Z
  ∧ ∃ p q, triples two_points
             !! Z.to_nat (Z.of_nat (length two_points `div` 3) + -1) = Some p
           ∧ py_index (triples two_points) 0 = Ok q
           ∧ (p, q) ∈ [(pt 1 1 1, pt 0 0 0)].
Proof.
  assert (element_lines last_seen_order two_points [-1; 0]%Z
          = Ok [(pt 1 1 1, pt 0 0 0)]) as H by by_evaluation.
  assert ((-1, 0)%Z ∈ pairs_of [-1; 0]%Z) as Hin by (cbn; left).
  split; [exact H|]. split; [exact Hin|]. split; [lia|].
  exact (element_lines_negative_index last_seen_order last_seen_order_elem
           _ _ _ _ _ H Hin ltac:(lia)).
Defined.

Lemma reversed_order_NoDup xs : NoDup (reversed_order xs).
Proof. unfold reversed_order. rewrite reverse_Permutation. apply NoDup_remove_dups. Qed.

Lemma reversed_order_elem xs x : x ∈ reversed_order xs ↔ x ∈ xs.
Proof. unfold reversed_order. by rewrite elem_of_reverse, elem_of_remove_dups. Qed.

Section set_order_independence.
Variables list_set list_set' : list (Z * Z) → list (Z * Z).
Hypothesis list_set_NoDup : ∀ xs, NoDup (list_set xs).
Hypothesis list_set_elem : ∀ xs x, x ∈ list_set xs ↔ x ∈ xs.
Hypothesis list_set'_NoDup : ∀ xs, NoDup (list_set' xs).
Hypothesis list_set'_elem : ∀ xs x, x ∈ list_set' xs ↔ x ∈ xs.

Lemma list_set_orders_Permutation (xs : list (Z * Z)) : list_set xs ≡ₚ list_set' xs.
Proof.
  apply NoDup_Permutation; [done..|]. intros x.
  by rewrite list_set_elem, list_set'_elem.
Qed.

Lemma element_lines_orders_Ok (verts : list Qc) (edges : list Z) (segs : list Segment) :
  element_lines list_set verts edges = Ok segs →
  ∃ segs', element_lines list_set' verts edges = Ok segs' ∧ segs ≡ₚ segs'.
Proof.
  rewrite !element_lines_resolve. intros Hsegs%mapM_result_Ok.
  destruct (Forall2_Permutation_l _ _ _ _ (list_set_orders_Permutation _) Hsegs)
    as (segs' & ? & ?).
  exists segs'. split; [by apply mapM_result_Ok|done].
Qed.

Lemma element_lines_orders_Raise (verts : list Qc) (edges : list Z) (e : exn) :
  element_lines list_set verts edges = Raise e →
  element_lines list_set' verts edges = Raise e.
Proof.
  rewrite !element_lines_resolve. intros Hraise.
  apply mapM_result_Raise in Hraise as (lp & Hlp & Hres).
  pose proof (resolve_pair_Raise _ _ _ Hres) as ->.
  destruct (mapM_result _ (list_set' _)) as [segs'|e'] eqn:Hres'.
  - apply mapM_result_Ok in Hres'.
    apply (proj1 (list_set_elem _ _)), (proj2 (list_set'_elem _ _)) in Hlp.
    apply list_elem_of_lookup in Hlp as [i Hi].
    destruct (Forall2_lookup_l _ _ _ _ _ Hres' Hi) as (s & _ & Hs). congruence.
  - apply mapM_result_Raise in Hres' as (lp' & _ & Hlp').
    by apply resolve_pair_Raise in Hlp' as ->.
Qed.
End set_order_independence.

(** X13.  Whatever the iteration order of the set, the decoder fails with the
    same error or yields the same segments up to order. *)
Theorem element_lines_set_order_independent
    (list_set list_set' : list (Z * Z) → list (Z * Z))
    (verts : list Qc) (edges : list Z) :
  (∀ xs, NoDup (list_set xs)) → (∀ xs x, x ∈ list_set xs ↔ x ∈ xs) →
  (∀ xs, NoDup (list_set' xs)) → (∀ xs x, x ∈ list_set' xs ↔ x ∈ xs) →
  match element_lines list_set verts edges, element_lines list_set' verts edges with
  | Ok segs, Ok segs' => segs ≡ₚ segs'
  | Raise e, Raise e' => e = e'
  | _, _ => False
  end.
Proof.
  intros H1 H2 H1' H2'.
  destruct (element_lines list_set verts edges) as [segs|e] eqn:Hres.
  - destruct (element_lines_orders_Ok list_set list_set' H1 H2 H1' H2' _ _ _ Hres)
      as (segs' & -> & Hperm). done.
  - by rewrite (element_lines_orders_Raise list_set list_set' H2 H2' _ _ _ Hres).
Qed.

Lemma element_lines_set_order_independent_witness :
  (∀ xs, NoDup (last_seen_order xs)) ∧ (∀ xs x, x ∈ last_seen_order xs ↔ x ∈ xs)
  ∧ (∀ xs, NoDup (reversed_order xs)) ∧ (∀ xs x, x ∈ reversed_order xs ↔ x ∈ xs)
  ∧ match element_lines last_seen_order two_points square_edges,
          element_lines reversed_order two_points square_edges with
    | Ok segs, Ok segs' => segs ≡ₚ segs'
    | Raise e, Raise e' => e = e'
    | _, _ => False
    end.
Proof.
  split; [exact last_seen_order_NoDup|]. split; [exact last_seen_order_elem|].
  split; [exact reversed_order_NoDup|]. split; [exact reversed_order_elem|].
  exact (element_lines_set_order_independent last_seen_order reversed_order
           two_points square_edges last_seen_order_NoDup last_seen_order_elem
           reversed_order_NoDup reversed_order_elem).
Defined.



(** ** The dictionaries of [read_geom] *)

Lemma read_geom_lookup (ifc_file : string → list ifc_entity)
    (ObjTypes : list string) (ObjType : string) :
  read_geom ifc_file ObjTypes !! ObjType
  = if decide (ObjType ∈ ObjTypes) then Some (collect_entities (ifc_file ObjType))
    else None.
Proof.
  unfold read_geom. fold collect_entities.
  assert (∀ m : gmap string ifc_values,
    foldl (λ objects_geometry T,
             <[T := collect_entities (ifc_file T)]> objects_geometry) m ObjTypes
      !! ObjType
    = if decide (ObjType ∈ ObjTypes) then Some (collect_entities (ifc_file ObjType))
      else m !! ObjType) as Hgen.
  { induction ObjTypes as [|T Ts IH]; intros m; cbn [foldl].
    - rewrite decide_False; [done|]. by intros ?%elem_of_nil.
    - rewrite IH. destruct (decide (ObjType ∈ Ts)) as [Hin|Hnin].
      + rewrite decide_True; [done|]. by right.
      + destruct (decide (T = ObjType)) as [->|Hne].
        * rewrite lookup_insert_eq, decide_True; [done|]. by left.
        * rewrite lookup_insert_ne by done. rewrite decide_False; [done|].
          intros [?|?]%elem_of_cons; congruence. }
  rewrite Hgen. by rewrite lookup_empty.
Qed.

Lemma collect_entities_snoc (entities : list ifc_entity) (entity : ifc_entity) :
  collect_entities (entities ++ [entity])
  = {| ios_vertices :=
         <[GlobalId entity := shape_verts entity]>
           (ios_vertices (collect_entities entities));
       ios_edges :=
         <[GlobalId entity := shape_edges entity]>
           (ios_edges (collect_entities entities));
       ios_elements :=
         dict_set (GlobalId entity) (Tag entity)
                  (ios_elements (collect_entities entities)) |}.
Proof. unfold collect_entities. by rewrite foldl_app. Qed.

Lemma dict_set_keys {V} (k : string) (v : V) (d : list (string * V)) :
  (dict_set k v d).*1 = if decide (k ∈ d.*1) then d.*1 else d.*1 ++ [k].
Proof.
  induction d as [|[k' v'] d IH]; cbn [dict_set fmap list_fmap fst].
  - rewrite decide_False; [done|]. by intros ?%elem_of_nil.
  - destruct (decide (k' = k)) as [->|Hne]; cbn [fmap list_fmap fst].
    + rewrite decide_True; [done|]. by left.
    + change (list_fmap _ _ fst ?l) with (l.*1). rewrite IH.
      destruct (decide (k ∈ d.*1)) as [Hin|Hnin].
      * rewrite decide_True; [done|]. by right.
      * rewrite decide_False; [done|]. intros [?|?]%elem_of_cons; congruence.
Qed.

Lemma dict_set_fresh {V} (k : string) (v : V) (d : list (string * V)) :
  k ∉ d.*1 → dict_set k v d = d ++ [(k, v)].
Proof.
  induction d as [|[k' v'] d IH]; intros Hk; cbn [dict_set app]; [done|].
  cbn [fmap list_fmap fst] in Hk. apply not_elem_of_cons in Hk as [Hne Hk].
  rewrite decide_False by done. by rewrite IH.
Qed.

Lemma dict_set_elem_eq {V} (k : string) (v : V) (d : list (string * V)) :
  (k, v) ∈ dict_set k v d.
Proof.
  induction d as [|[k' v'] d IH]; cbn [dict_set]; [by left|].
  destruct (decide (k' = k)) as [->|Hne]; [by left|by right].
Qed.

Lemma dict_set_elem_ne {V} (k k' : string) (v v' : V) (d : list (string * V)) :
  k' ≠ k → (k', v') ∈ dict_set k v d ↔ (k', v') ∈ d.
Proof.
  intros Hne. induction d as [|[k0 v0] d IH]; cbn [dict_set].
  - rewrite list_elem_of_singleton, elem_of_nil. split; [|done]. by intros [= ? ?].
  - destruct (decide (k0 = k)) as [->|Hne0].
    + rewrite !elem_of_cons. split; (intros [[= ? ?]|?]; [done|by right]).
    + rewrite !elem_of_cons, IH. done.
Qed.

Lemma dict_set_elem_inv {V} (k k' : string) (v v' : V) (d : list (string * V)) :
  (k', v') ∈ dict_set k v d → (k' = k ∧ v' = v) ∨ (k', v') ∈ d.
Proof.
  induction d as [|[k0 v0] d IH]; cbn [dict_set].
  - intros [= -> ->]%list_elem_of_singleton. by left.
  - destruct (decide (k0 = k)) as [->|Hne0].
    + intros [[= -> ->]|?]%elem_of_cons; [by left|]. right. by right.
    + intros [[= -> ->]|Hin]%elem_of_cons; [right; by left|].
      destruct (IH Hin) as [?|?]; [by left|]. right. by right.
Qed.

Lemma NoDup_fst_functional {K V} (d : list (K * V)) (k : K) (v1 v2 : V) :
  NoDup d.*1 → (k, v1) ∈ d → (k, v2) ∈ d → v1 = v2.
Proof.
  induction d as [|[k' v'] d IH]; cbn [fmap list_fmap fst].
  - by intros _ ?%elem_of_nil.
  - intros [Hk Hnd]%NoDup_cons [H1|H1]%elem_of_cons [H2|H2]%elem_of_cons;
      simplify_eq.
    + done.
    + destruct Hk. apply list_elem_of_fmap. by exists (k', v2).
    + destruct Hk. apply list_elem_of_fmap. by exists (k', v1).
    + by apply IH.
Qed.

(** The keys of [ios_elements] are the GlobalIds of the entities, each
    once, in the order of their first occurrence. *)
Lemma collect_entities_keys (entities : list ifc_entity) :
  (ios_elements (collect_entities entities)).*1
  = reverse (remove_dups (reverse (GlobalId <$> entities))).
Proof.
  induction entities as [|entity entities IH] using rev_ind; [done|].
  rewrite collect_entities_snoc. cbn [ios_elements].
  rewrite dict_set_keys, IH, fmap_app, reverse_app.
  cbn [fmap list_fmap reverse rev_append app remove_dups].
  fold (reverse (GlobalId <$> entities)).
  destruct (decide_rel elem_of (GlobalId entity) (reverse (GlobalId <$> entities)))
    as [Hin|Hnin].
  - rewrite decide_True; [done|].
    by rewrite elem_of_reverse, elem_of_remove_dups.
  - rewrite decide_False; [by rewrite <-reverse_cons|].
    by rewrite elem_of_reverse, elem_of_remove_dups.
Qed.

Lemma collect_entities_keys_elem (entities : list ifc_entity) (k : string) :
  k ∈ (ios_elements (collect_entities entities)).*1
  ↔ ∃ entity, entity ∈ entities ∧ GlobalId entity = k.
Proof.
  rewrite collect_entities_keys, elem_of_reverse, elem_of_remove_dups,
    elem_of_reverse, list_elem_of_fmap.
  split; intros (entity & ? & ?); by exists entity.
Qed.

Lemma collect_entities_keys_NoDup (entities : list ifc_entity) :
  NoDup (ios_elements (collect_entities entities)).*1.
Proof.
  rewrite collect_entities_keys, reverse_Permutation. apply NoDup_remove_dups.
Qed.

Lemma collect_entities_dom (entities : list ifc_entity) (k : string) :
  (is_Some (ios_vertices (collect_entities entities) !! k)
   ↔ k ∈ (ios_elements (collect_entities entities)).*1)
  ∧ (is_Some (ios_edges (collect_entities entities) !! k)
     ↔ k ∈ (ios_elements (collect_entities entities)).*1).
Proof.
  induction entities as [|entity entities [IHv IHe]] using rev_ind.
  - cbn. rewrite !lookup_empty, !is_Some_alt, elem_of_nil. done.
  - rewrite collect_entities_snoc. cbn [ios_vertices ios_edges ios_elements].
    rewrite dict_set_keys.
    assert (k ∈ (if decide (GlobalId entity ∈ (ios_elements (collect_entities entities)).*1)
                 then (ios_elements (collect_entities entities)).*1
                 else (ios_elements (collect_entities entities)).*1 ++ [GlobalId entity])
            ↔ k = GlobalId entity ∨ k ∈ (ios_elements (collect_entities entities)).*1)
      as ->.
    { case_decide.
      - split; [by right|]. by intros [->|?].
      - rewrite elem_of_app, list_elem_of_singleton. tauto. }
    destruct (decide (GlobalId entity = k)) as [<-|Hne].
    + rewrite !lookup_insert_eq. split; (split; [by left|by eauto]).
    + rewrite !lookup_insert_ne by done. rewrite IHv, IHe.
      split; (split; [by right|]); by intros [?|?].
Qed.

(** The entity that comes last among those of its GlobalId fills the
    three dictionaries. *)
Lemma collect_entities_last (pre post : list ifc_entity) (entity : ifc_entity) :
  (∀ later, later ∈ post → GlobalId later ≠ GlobalId entity) →
  ios_vertices (collect_entities (pre ++ entity :: post)) !! GlobalId entity
    = Some (shape_verts entity)
  ∧ ios_edges (collect_entities (pre ++ entity :: post)) !! GlobalId entity
    = Some (shape_edges entity)
  ∧ (GlobalId entity, Tag entity)
    ∈ ios_elements (collect_entities (pre ++ entity :: post)).
Proof.
  induction post as [|later post IH] using rev_ind; intros Hpost.
  - rewrite collect_entities_snoc. cbn [ios_vertices ios_edges ios_elements].
    rewrite !lookup_insert_eq. split; [done|]. split; [done|]. apply dict_set_elem_eq.
  - assert (GlobalId later ≠ GlobalId entity) as Hne.
    { apply Hpost. rewrite elem_of_app, list_elem_of_singleton. by right. }
    destruct IH as (IHv & IHe & IHt).
    { intros l Hl. apply Hpost. rewrite elem_of_app. by left. }
    replace (pre ++ entity :: post ++ [later])
      with ((pre ++ entity :: post) ++ [later]) by by rewrite <-app_assoc.
    rewrite collect_entities_snoc. cbn [ios_vertices ios_edges ios_elements].
    rewrite !lookup_insert_ne by done. split; [done|]. split; [done|].
    apply dict_set_elem_ne; [congruence|done].
Qed.

(** With pairwise distinct GlobalIds the elements are the entities, in
    the order of the model. *)
Lemma collect_entities_distinct (entities : list ifc_entity) :
  NoDup (GlobalId <$> entities) →
  ios_elements (collect_entities entities)
  = (λ entity, (GlobalId entity, Tag entity)) <$> entities.
Proof.
  induction entities as [|entity entities IH] using rev_ind; intros Hnd; [done|].
  rewrite fmap_app in Hnd. apply NoDup_app in Hnd as (Hnd & Hdisj & _).
  rewrite collect_entities_snoc. cbn [ios_elements].
  rewrite dict_set_fresh, IH, fmap_app; [done..|].
  rewrite collect_entities_keys_elem. intros (entity' & Hin & Heq).
  apply (Hdisj (GlobalId entity)).
  - apply list_elem_of_fmap. by exists entity'.
  - cbn. by left.
Qed.

Section read_geom_properties.
Variable ifc_file : string → list ifc_entity.

(** X15.  [read_geom] has an entry for exactly the requested types. *)
Theorem read_geom_requested_types (ObjTypes : list string) (ObjType : string) :
  is_Some (read_geom ifc_file ObjTypes !! ObjType) ↔ ObjType ∈ ObjTypes.
Proof.
  rewrite read_geom_lookup. case_decide; rewrite is_Some_alt; tauto.
Qed.

(** X16.  The result depends on the set of requested types only. *)
Theorem read_geom_type_set (ObjTypes ObjTypes' : list string) :
  (∀ ObjType, ObjType ∈ ObjTypes ↔ ObjType ∈ ObjTypes') →
  read_geom ifc_file ObjTypes = read_geom ifc_file ObjTypes'.
Proof.
  intros Hsame. apply map_eq. intros ObjType. rewrite !read_geom_lookup.
  destruct (decide (ObjType ∈ ObjTypes)) as [Hin|Hnin].
  - rewrite decide_True; [done|]. by apply Hsame.
  - rewrite decide_False; [done|]. by rewrite <-Hsame.
Qed.

(** X17.  The three dictionaries of a type have the same keys: the GlobalIds
    of its entities, each once. *)
Theorem read_geom_keys (ObjTypes : list string) (ObjType : string)
    (vals : ifc_values) :
  read_geom ifc_file ObjTypes !! ObjType = Some vals →
  NoDup (ios_elements vals).*1
  ∧ ∀ key,
      (key ∈ (ios_elements vals).*1
       ↔ ∃ entity, entity ∈ ifc_file ObjType ∧ GlobalId entity = key)
      ∧ (is_Some (ios_vertices vals !! key) ↔ key ∈ (ios_elements vals).*1)
      ∧ (is_Some (ios_edges vals !! key) ↔ key ∈ (ios_elements vals).*1).
Proof.
  rewrite read_geom_lookup. case_decide; [|done]. intros [= <-].
  split; [apply collect_entities_keys_NoDup|]. intros key.
  split; [apply collect_entities_keys_elem|]. apply collect_entities_dom.
Qed.

(** X18.  Of the entities that share a GlobalId the last one is kept: its
    vertices, edges and tag are what the dictionaries hold. *)
Theorem read_geom_last_entity_wins (ObjTypes : list string) (ObjType : string)
    (pre post : list ifc_entity) (entity : ifc_entity) :
  ObjType ∈ ObjTypes →
  ifc_file ObjType = pre ++ entity :: post →
  (∀ later, later ∈ post → GlobalId later ≠ GlobalId entity) →
  ∃ vals,
    read_geom ifc_file ObjTypes !! ObjType = Some vals
    ∧ ios_vertices vals !! GlobalId entity = Some (shape_verts entity)
    ∧ ios_edges vals !! GlobalId entity = Some (shape_edges entity)
    ∧ ∀ tag, (GlobalId entity, tag) ∈ ios_elements vals ↔ tag = Tag entity.
Proof.
  intros Hin Hfile Hpost. exists (collect_entities (ifc_file ObjType)).
  rewrite read_geom_lookup, decide_True by done. split; [done|].
  rewrite Hfile. destruct (collect_entities_last pre post entity Hpost)
    as (Hv & He & Ht).
  split; [done|]. split; [done|]. intros tag. split; [|by intros ->].
  intros Htag.
  pose proof (collect_entities_keys_NoDup (pre ++ entity :: post)) as Hnd.
  by apply (NoDup_fst_functional _ (GlobalId entity) tag (Tag entity) Hnd).
Qed.
End read_geom_properties.

Lemma read_geom_type_set_witness :
  (∀ ObjType, ObjType ∈ ["IfcBeam"; "IfcColumn"]
              ↔ ObjType ∈ ["IfcColumn"; "IfcBeam"; "IfcBeam"])
  ∧ read_geom sample_model ["IfcBeam"; "IfcColumn"]
    = read_geom sample_model ["IfcColumn"; "IfcBeam"; "IfcBeam"].
Proof.
  assert (∀ ObjType : string, ObjType ∈ ["IfcBeam"; "IfcColumn"]
                     ↔ ObjType ∈ ["IfcColumn"; "IfcBeam"; "IfcBeam"]) as H.
  { intros ObjType. rewrite !elem_of_cons, elem_of_nil. tauto. }
  split; [exact H|].
  exact (read_geom_type_set sample_model _ _ H).
Defined.

Lemma read_geom_keys_witness :
  read_geom duplicate_id_model ["IfcBeam"; "IfcColumn"] !! "IfcBeam"
  = Some (collect_entities (duplicate_id_model "IfcBeam"))
  ∧ NoDup (ios_elements (collect_entities (duplicate_id_model "IfcBeam"))).*1
  ∧ ∀ key,
      (key ∈ (ios_elements (collect_entities (duplicate_id_model "IfcBeam"))).*1
       ↔ ∃ entity, entity ∈ duplicate_id_model "IfcBeam" ∧ GlobalId entity = key)
      ∧ (is_Some (ios_vertices (collect_entities (duplicate_id_model "IfcBeam")) !! key)
         ↔ key ∈ (ios_elements (collect_entities (duplicate_id_model "IfcBeam"))).*1)
      ∧ (is_Some (ios_edges (collect_entities (duplicate_id_model "IfcBeam")) !! key)
         ↔ key ∈ (ios_elements (collect_entities (duplicate_id_model "IfcBeam"))).*1).
Proof.
  assert (read_geom duplicate_id_model ["IfcBeam"; "IfcColumn"] !! "IfcBeam"
          = Some (collect_entities (duplicate_id_model "IfcBeam"))) as H
    by reflexivity.
  split; [exact H|].
  exact (read_geom_keys duplicate_id_model _ _ _ H).
Defined.

Lemma read_geom_last_entity_wins_witness :
  let first := {| GlobalId := "b1"; Tag := "B-1";
                  shape_verts := Qc_of_Z <$> [0; 0; 10; 4; 0; 10]%Z;
                  shape_edges := [0; 1]%Z |} in
  let second := {| GlobalId := "b2"; Tag := "B-2";
                   shape_verts := Qc_of_Z <$> [0; 0; 0; 1; 0; 0]%Z;
                   shape_edges := [0; 1]%Z |} in
  let last := {| GlobalId := "b1"; Tag := "B-3";
                 shape_verts := Qc_of_Z <$> [0; 0; 7; 4; 0; 7]%Z;
                 shape_edges := [1; 0]%Z |} in
  "IfcBeam" ∈ ["IfcBeam"; "IfcColumn"]
  ∧ duplicate_id_model "IfcBeam" = [first; second] ++ last :: []
  ∧ (∀ later, later ∈ [] → GlobalId later ≠ GlobalId last)
  ∧ ∃ vals,
      read_geom duplicate_id_model ["IfcBeam"; "IfcColumn"] !! "IfcBeam" = Some vals
      ∧ ios_vertices vals !! "b1" = Some (Qc_of_Z <$> [0; 0; 7; 4; 0; 7]%Z)
      ∧ ios_edges vals !! "b1" = Some [1; 0]%Z
      ∧ ∀ tag, ("b1", tag) ∈ ios_elements vals ↔ tag = "B-3".
Proof.
  intros first second last.
  assert ("IfcBeam" ∈ ["IfcBeam"; "IfcColumn"]) as H1 by by left.
  assert (duplicate_id_model "IfcBeam" = [first; second] ++ last :: []) as H2
    by reflexivity.
  assert (∀ later : ifc_entity, later ∈ [] → GlobalId later ≠ GlobalId last) as H3
    by by intros later ?%elem_of_nil.
  split; [exact H1|]. split; [exact H2|]. split; [exact H3|].
  exact (read_geom_last_entity_wins duplicate_id_model _ _ _ _ _ H1 H2 H3).
Defined.

(** ** [abstract_elements_by_type] *)

Lemma foldM_Raise_inv {A B} (f : B → A → result B) (acc : B) (xs : list A) (e : exn) :
  foldM f acc xs = Raise e → ∃ acc' x, x ∈ xs ∧ f acc' x = Raise e.
Proof.
  revert acc. induction xs as [|x xs IH]; intros acc; cbn [foldM]; [done|].
  destruct (f acc x) as [acc'|e'] eqn:Hf.
  - rewrite bind_Ok. intros (acc'' & x' & ? & ?)%IH. exists acc'', x'.
    split; [by right|done].
  - intros [= ->]. exists acc, x. split; [by left|done].
Qed.

Lemma foldM_invariant {A B} (P : B → Prop) (f : B → A → result B) (acc : B)
    (xs : list A) (r : B) :
  P acc →
  (∀ acc x acc', x ∈ xs → P acc → f acc x = Ok acc' → P acc') →
  foldM f acc xs = Ok r → P r.
Proof.
  revert acc. induction xs as [|x xs IH]; intros acc Hacc Hstep; cbn [foldM].
  - by intros [= <-].
  - destruct (f acc x) as [acc'|e'] eqn:Hf; [|done]. rewrite bind_Ok.
    apply IH.
    + eapply Hstep; [by left|done..].
    + intros acc0 x0 acc0' Hx0. apply Hstep. by right.
Qed.

Lemma foldM_ext_in {A B} (f g : B → A → result B) (b : B) (xs : list A) :
  (∀ acc x, x ∈ xs → f acc x = g acc x) → foldM f b xs = foldM g b xs.
Proof.
  revert b. induction xs as [|x xs IH]; intros b Hfg; cbn [foldM]; [done|].
  rewrite Hfg by by left. destruct (g b x); [|done]. rewrite !bind_Ok.
  apply IH. intros acc x' Hx'. apply Hfg. by right.
Qed.

Lemma foldM_fmap {A A' B} (h : A → A') (f : B → A' → result B) (b : B) (xs : list A) :
  foldM f b (h <$> xs) = foldM (λ acc x, f acc (h x)) b xs.
Proof.
  revert b. induction xs as [|x xs IH]; intros b; cbn [foldM fmap list_fmap]; [done|].
  destruct (f b (h x)); [|done]. rewrite !bind_Ok. apply IH.
Qed.

(** A loop that files each result under a fresh key builds the list of
    the results. *)
Lemma foldM_dict_set_fresh {A V} (g : A → result (string * V)) (lab : A → string)
    (acc : list (string * V)) (xs : list A) :
  NoDup (lab <$> xs) →
  (∀ x, x ∈ xs → lab x ∉ acc.*1) →
  (∀ x kv, g x = Ok kv → kv.1 = lab x) →
  foldM (λ acc x, kv ← g x; Ok (dict_set kv.1 kv.2 acc)) acc xs
  = (ys ← mapM_result g xs; Ok (acc ++ ys)).
Proof.
  intros Hnd Hacc Hlab. revert acc Hacc.
  induction xs as [|x xs IH]; intros acc Hacc; cbn [foldM mapM_result].
  - rewrite bind_Ok. by rewrite app_nil_r.
  - cbn [fmap list_fmap] in Hnd. apply NoDup_cons in Hnd as [Hx Hnd].
    destruct (g x) as [[k v]|e] eqn:Hgx; [|done]. rewrite !bind_Ok.
    pose proof (Hlab _ _ Hgx) as Hk. cbn [fst snd] in *.
    rewrite dict_set_fresh by (rewrite Hk; apply Hacc; by left).
    rewrite IH; [|done|].
    + destruct (mapM_result g xs) as [ys|e]; [|done]. rewrite !bind_Ok.
      by rewrite <-app_assoc.
    + intros x' Hx'. rewrite fmap_app, elem_of_app. intros [Hin|Hin].
      * revert Hin. apply Hacc. by right.
      * cbn in Hin. apply list_elem_of_singleton in Hin.
        apply Hx. rewrite <-Hk, <-Hin. by apply list_elem_of_fmap_2.
Qed.

Lemma element_lines_Raise (list_set : list (Z * Z) → list (Z * Z))
    (verts : list Qc) (edges : list Z) (e : exn) :
  element_lines list_set verts edges = Raise e → e = IndexError.
Proof.
  rewrite element_lines_resolve. intros (lp & _ & Hlp)%mapM_result_Raise.
  by apply resolve_pair_Raise in Hlp.
Qed.

Lemma no_char_app_inj (c : ascii) (k1 k2 r1 r2 : string) :
  no_char c k1 → no_char c k2 →
  k1 +:+ String c r1 = k2 +:+ String c r2 → k1 = k2 ∧ r1 = r2.
Proof.
  revert k2. induction k1 as [|a k1 IH]; intros [|b k2]; cbn [no_char];
    rewrite ?string_app_nil_l, ?string_app_cons.
  - by intros _ _ [= ->].
  - intros _ [Hb _] [= ? ?]. congruence.
  - intros [Ha _] _ [= ? ?]. congruence.
  - intros [_ H1] [_ H2] [= -> Heq]. destruct (IH _ H1 H2 Heq) as [-> ->]. done.
Qed.

(** Labels tell elements apart when no GlobalId contains a space. *)
Lemma element_label_inj (key key' tag tag' : string) :
  no_char " " key → no_char " " key' →
  element_label key tag = element_label key' tag' → key = key' ∧ tag = tag'.
Proof.
  intros Hk Hk'. unfold element_label.
  rewrite !string_app_cons, !string_app_nil_l. intros [= Heq].
  destruct (no_char_app_inj _ _ _ _ _ Hk Hk' Heq) as [-> [= ->]]. done.
Qed.

Lemma element_labels_NoDup (entities : list ifc_entity) :
  NoDup (GlobalId <$> entities) →
  (∀ entity, entity ∈ entities → no_char " " (GlobalId entity)) →
  NoDup ((λ entity, element_label (GlobalId entity) (Tag entity)) <$> entities).
Proof.
  induction entities as [|entity entities IH]; cbn [fmap list_fmap];
    intros Hnd Hplain; [constructor|].
  apply NoDup_cons in Hnd as [Hnew Hnd]. apply NoDup_cons. split.
  - intros (entity' & Heq & Hin)%list_elem_of_fmap.
    apply element_label_inj in Heq as [Heq _].
    + apply Hnew. rewrite Heq. by apply list_elem_of_fmap_2.
    + apply Hplain. by left.
    + apply Hplain. by right.
  - apply IH; [done|]. intros entity' Hin. apply Hplain. by right.
Qed.

Section abstract_properties.
Variable list_set : list (Z * Z) → list (Z * Z).

Lemma abstract_elements_by_type_keys (vals : ifc_values)
    (out : list (string * list Segment)) :
  abstract_elements_by_type list_set vals = Ok out →
  ∀ label, label ∈ out.*1
           ↔ ∃ key tag, (key, tag) ∈ ios_elements vals ∧ label = element_label key tag.
Proof.
  unfold abstract_elements_by_type.
  assert (∀ (xs : list (string * string)) (acc : list (string * list Segment)) out,
    foldM (λ lines_for_type '(key, tag),
             verts ← dict_get (ios_vertices vals) key;
             edges ← dict_get (ios_edges vals) key;
             lines ← element_lines list_set verts edges;
             Ok (dict_set ("UUID: " +:+ key +:+ " Tag:" +:+ tag) lines lines_for_type))
          acc xs = Ok out →
    ∀ label, label ∈ out.*1
             ↔ label ∈ acc.*1
               ∨ ∃ key tag, (key, tag) ∈ xs ∧ label = element_label key tag) as Hgen.
  { clear out. induction xs as [|[key tag] xs IH]; intros acc out; cbn [foldM].
    - intros [= <-] label. split; [by left|]. intros [?|(? & ? & ?%elem_of_nil & _)]; done.
    - destruct (dict_get (ios_vertices vals) key) as [verts|]; [|done].
      rewrite bind_Ok.
      destruct (dict_get (ios_edges vals) key) as [edges|]; [|done].
      rewrite bind_Ok.
      destruct (element_lines list_set verts edges) as [lines|]; [|done].
      rewrite !bind_Ok. intros Hout label. rewrite (IH _ _ Hout), dict_set_keys.
      fold (element_label key tag).
      assert (label ∈ (if decide (element_label key tag ∈ acc.*1) then acc.*1
                       else acc.*1 ++ [element_label key tag])
              ↔ label ∈ acc.*1 ∨ label = element_label key tag) as ->.
      { case_decide.
        - split; [by left|]. by intros [?| ->].
        - by rewrite elem_of_app, list_elem_of_singleton. }
      split.
      + intros [[?| ->]|(k & t & ? & ?)]; [by left| |].
        * right. exists key, tag. split; [by left|done].
        * right. exists k, t. split; [by right|done].
      + intros [?|(k & t & [[= -> ->]|?]%elem_of_cons & ->)].
        * left. by left.
        * left. by right.
        * right. by exists k, t. }
  intros Hout label. rewrite (Hgen _ _ _ Hout). cbn [fmap list_fmap].
  rewrite elem_of_nil. tauto.
Qed.

Lemma abstract_elements_by_type_entries (vals : ifc_values)
    (out : list (string * list Segment)) :
  abstract_elements_by_type list_set vals = Ok out →
  NoDup out.*1
  ∧ ∀ label lines, (label, lines) ∈ out →
      ∃ key tag verts edges,
        (key, tag) ∈ ios_elements vals
        ∧ label = element_label key tag
        ∧ ios_vertices vals !! key = Some verts
        ∧ ios_edges vals !! key = Some edges
        ∧ element_lines list_set verts edges = Ok lines.
Proof.
  unfold abstract_elements_by_type.
  apply (foldM_invariant
    (λ out : list (string * list Segment),
       NoDup out.*1
       ∧ ∀ label lines, (label, lines) ∈ out →
           ∃ key tag verts edges,
             (key, tag) ∈ ios_elements vals
             ∧ label = element_label key tag
             ∧ ios_vertices vals !! key = Some verts
             ∧ ios_edges vals !! key = Some edges
             ∧ element_lines list_set verts edges = Ok lines)).
  - split; [constructor|]. by intros ?? ?%elem_of_nil.
  - intros acc [key tag] acc' Hin [Hnd Hacc]. unfold dict_get.
    destruct (ios_vertices vals !! key) as [verts|] eqn:Hv; [|done].
    rewrite bind_Ok.
    destruct (ios_edges vals !! key) as [edges|] eqn:He; [|done].
    rewrite bind_Ok.
    destruct (element_lines list_set verts edges) as [lines|] eqn:Hl; [|done].
    rewrite bind_Ok. intros [= <-]. split.
    + rewrite dict_set_keys. case_decide; [done|].
      apply NoDup_app. split; [done|]. split; [|apply NoDup_singleton].
      intros k Hk ->%list_elem_of_singleton. done.
    + intros label lines' [[-> ->]|Hin']%dict_set_elem_inv.
      * by exists key, tag, verts, edges.
      * by apply Hacc.
Qed.

(** X19.  A successful run of [abstract_elements_by_type] has one entry per
    label of an element, and every entry holds the segments decoded from
    the buffers of an element with that label. *)
Theorem abstract_elements_by_type_sound (vals : ifc_values)
    (out : list (string * list Segment)) :
  abstract_elements_by_type list_set vals = Ok out →
  NoDup out.*1
  ∧ (∀ label, label ∈ out.*1
              ↔ ∃ key tag, (key, tag) ∈ ios_elements vals
                           ∧ label = element_label key tag)
  ∧ ∀ label lines, (label, lines) ∈ out →
      ∃ key tag verts edges,
        (key, tag) ∈ ios_elements vals
        ∧ label = element_label key tag
        ∧ ios_vertices vals !! key = Some verts
        ∧ ios_edges vals !! key = Some edges
        ∧ element_lines list_set verts edges = Ok lines.
Proof.
  intros Hout. destruct (abstract_elements_by_type_entries _ _ Hout) as [Hnd Hent].
  split; [done|]. split; [|done]. by apply abstract_elements_by_type_keys.
Qed.

Lemma abstract_collect_entities_Raise (entities : list ifc_entity) (e : exn) :
  abstract_elements_by_type list_set (collect_entities entities) = Raise e →
  e = IndexError.
Proof.
  unfold abstract_elements_by_type.
  intros (acc & [key tag] & Hin & Hstep)%foldM_Raise_inv.
  assert (key ∈ (ios_elements (collect_entities entities)).*1) as Hkey.
  { apply list_elem_of_fmap. by exists (key, tag). }
  destruct (collect_entities_dom entities key) as [Hv He].
  apply Hv in Hkey as Hverts. apply He in Hkey as Hedges.
  destruct Hverts as [verts Hverts]. destruct Hedges as [edges Hedges].
  unfold dict_get in Hstep. rewrite Hverts, Hedges, !bind_Ok in Hstep.
  destruct (element_lines list_set verts edges) as [lines|e'] eqn:Hl; [done|].
  injection Hstep as <-. by apply element_lines_Raise in Hl.
Qed.

(** X20.  On the dictionaries of [read_geom] no lookup of
    [abstract_elements_by_type] fails: the only exception is the
    [IndexError] of an edge that points outside the vertices. *)
Theorem abstract_elements_by_type_only_IndexError
    (ifc_file : string → list ifc_entity) (ObjTypes : list string)
    (ObjType : string) (vals : ifc_values) (e : exn) :
  read_geom ifc_file ObjTypes !! ObjType = Some vals →
  abstract_elements_by_type list_set vals = Raise e →
  e = IndexError.
Proof.
  rewrite read_geom_lookup. case_decide; [|done]. intros [= <-].
  apply abstract_collect_entities_Raise.
Qed.

Lemma abstract_collect_entities_distinct (entities : list ifc_entity) :
  NoDup (GlobalId <$> entities) →
  (∀ entity, entity ∈ entities → no_char " " (GlobalId entity)) →
  abstract_elements_by_type list_set (collect_entities entities)
  = mapM_result (decode_entity list_set) entities.
Proof.
  intros Hnd Hplain. unfold abstract_elements_by_type.
  rewrite collect_entities_distinct, foldM_fmap by done.
  rewrite (foldM_ext_in _
             (λ acc entity, kv ← decode_entity list_set entity;
                            Ok (dict_set kv.1 kv.2 acc))).
  - rewrite (foldM_dict_set_fresh _
               (λ entity, element_label (GlobalId entity) (Tag entity))).
    + by destruct (mapM_result _ entities).
    + by apply element_labels_NoDup.
    + by intros ?? ?%elem_of_nil.
    + intros entity kv. unfold decode_entity.
      destruct (element_lines _ _ _); [|done]. by intros [= <-].
  - intros acc entity Hin.
    apply list_elem_of_split in Hin as (pre & post & ->).
    destruct (collect_entities_last pre post entity) as (Hv & He & _).
    { intros later Hlater Heq. rewrite fmap_app in Hnd.
      apply NoDup_app in Hnd as (_ & _ & Hnd). cbn [fmap list_fmap] in Hnd.
      apply NoDup_cons in Hnd as [Hnew _]. apply Hnew.
      rewrite <-Heq. by apply list_elem_of_fmap_2. }
    unfold dict_get, decode_entity. rewrite Hv, He, !bind_Ok.
    by destruct (element_lines _ _ _).
Qed.

(** X21.  When the entities of a type have pairwise distinct GlobalIds
    without a space, reading and abstracting them decodes every entity on
    its own, in the order of the model, and stops at the first one that
    fails. *)
Theorem abstract_elements_by_type_distinct_ids
    (ifc_file : string → list ifc_entity) (ObjTypes : list string)
    (ObjType : string) :
  ObjType ∈ ObjTypes →
  NoDup (GlobalId <$> ifc_file ObjType) →
  (∀ entity, entity ∈ ifc_file ObjType → no_char " " (GlobalId entity)) →
  ∃ vals,
    read_geom ifc_file ObjTypes !! ObjType = Some vals
    ∧ abstract_elements_by_type list_set vals
      = mapM_result (decode_entity list_set) (ifc_file ObjType).
Proof.
  intros Hin Hnd Hplain. exists (collect_entities (ifc_file ObjType)).
  rewrite read_geom_lookup, decide_True by done. split; [done|].
  by apply abstract_collect_entities_distinct.
Qed.
End abstract_properties.

Lemma abstract_elements_by_type_sound_witness :
  let vals := collect_entities (duplicate_id_model "IfcBeam") in
  let out := [("UUID: b1 Tag:B-3", [(pt 4 0 7, pt 0 0 7)]);
              ("UUID: b2 Tag:B-2", [(pt 0 0 0, pt 1 0 0)])] in
  abstract_elements_by_type last_seen_order vals = Ok out
  ∧ NoDup out.*1
  ∧ (∀ label, label ∈ out.*1
              ↔ ∃ key tag, (key, tag) ∈ ios_elements vals
                           ∧ label = element_label key tag)
  ∧ ∀ label lines, (label, lines) ∈ out →
      ∃ key tag verts edges,
        (key, tag) ∈ ios_elements vals
        ∧ label = element_label key tag
        ∧ ios_vertices vals !! key = Some verts
        ∧ ios_edges vals !! key = Some edges
        ∧ element_lines last_seen_order verts edges = Ok lines.
Proof.
  intros vals out.
  assert (abstract_elements_by_type last_seen_order vals = Ok out) as H
    by by_evaluation.
  split; [exact H|].
  exact (abstract_elements_by_type_sound last_seen_order vals out H).
Defined.

Lemma abstract_elements_by_type_only_IndexError_witness :
  read_geom dangling_edge_model ["IfcBeam"; "IfcColumn"] !! "IfcBeam"
  = Some (collect_entities (dangling_edge_model "IfcBeam"))
  ∧ abstract_elements_by_type last_seen_order
      (collect_entities (dangling_edge_model "IfcBeam")) = Raise IndexError
  ∧ IndexError = IndexError.
Proof.
  assert (read_geom dangling_edge_model ["IfcBeam"; "IfcColumn"] !! "IfcBeam"
          = Some (collect_entities (dangling_edge_model "IfcBeam"))) as H1
    by reflexivity.
  assert (abstract_elements_by_type last_seen_order
            (collect_entities (dangling_edge_model "IfcBeam")) = Raise IndexError)
    as H2 by by_evaluation.
  split; [exact H1|]. split; [exact H2|].
  exact (abstract_elements_by_type_only_IndexError last_seen_order
           dangling_edge_model _ _ _ _ H1 H2).
Defined.

Lemma abstract_elements_by_type_distinct_ids_witness :
  let decode := decode_entity last_seen_order in
  (mapM_result decode (edgeless_beam_model "IfcBeam")
   = Ok [("UUID: b1 Tag:B-1", [(pt 0 2 10, pt 4 2 10); (pt 0 0 10, pt 4 0 10)]);
         ("UUID: b2 Tag:B-2", [])]
   ∧ "IfcBeam" ∈ ["IfcBeam"; "IfcColumn"]
   ∧ NoDup (GlobalId <$> edgeless_beam_model "IfcBeam")
   ∧ (∀ entity, entity ∈ edgeless_beam_model "IfcBeam"
                → no_char " " (GlobalId entity))
   ∧ ∃ vals,
       read_geom edgeless_beam_model ["IfcBeam"; "IfcColumn"] !! "IfcBeam" = Some vals
       ∧ abstract_elements_by_type last_seen_order vals
         = mapM_result decode (edgeless_beam_model "IfcBeam"))
  ∧ (mapM_result decode (failing_middle_model "IfcBeam") = Raise IndexError
     ∧ "IfcBeam" ∈ ["IfcBeam"; "IfcColumn"]
     ∧ NoDup (GlobalId <$> failing_middle_model "IfcBeam")
     ∧ (∀ entity, entity ∈ failing_middle_model "IfcBeam"
                  → no_char " " (GlobalId entity))
     ∧ ∃ vals,
         read_geom failing_middle_model ["IfcBeam"; "IfcColumn"] !! "IfcBeam"
         = Some vals
         ∧ abstract_elements_by_type last_seen_order vals
           = mapM_result decode (failing_middle_model "IfcBeam")).
Proof.
  intros decode.
  assert ("IfcBeam" ∈ ["IfcBeam"; "IfcColumn"]) as H1 by by left.
  assert (NoDup (GlobalId <$> edgeless_beam_model "IfcBeam")) as H2 by by_evaluation.
  assert (∀ entity, entity ∈ edgeless_beam_model "IfcBeam"
                    → no_char " " (GlobalId entity)) as H3.
  { intros entity [->|[->|[]%elem_of_nil]%elem_of_cons]%elem_of_cons;
      by repeat split. }
  assert (NoDup (GlobalId <$> failing_middle_model "IfcBeam")) as H2'
    by by_evaluation.
  assert (∀ entity, entity ∈ failing_middle_model "IfcBeam"
                    → no_char " " (GlobalId entity)) as H3'.
  { intros entity
      [->|[->|[->|[]%elem_of_nil]%elem_of_cons]%elem_of_cons]%elem_of_cons;
      by repeat split. }
  split.
  - split; [by_evaluation|]. split; [exact H1|]. split; [exact H2|].
    split; [exact H3|].
    exact (abstract_elements_by_type_distinct_ids last_seen_order
             edgeless_beam_model _ _ H1 H2 H3).
  - split; [by_evaluation|]. split; [exact H1|]. split; [exact H2'|].
    split; [exact H3'|].
    exact (abstract_elements_by_type_distinct_ids last_seen_order
             failing_middle_model _ _ H1 H2' H3').
Defined.

(** Without the condition on spaces an element can be lost: the two beams
    of [colliding_labels_model] get the same label, and the segments of
    the second replace those of the first. *)
Example abstract_elements_by_type_label_collision :
  abstract_elements_by_type last_seen_order
    (collect_entities (colliding_labels_model "IfcBeam"))
  = Ok [("UUID: a Tag: Tag:b", [(pt 0 0 0, pt 1 0 0)])].
Proof. by_evaluation. Qed.

(** ** File effect of [writeLines] *)

(** X22.  [writeLines] leaves every other file alone; in mode ["w"] the file
    holds the block of this call whatever it held before, in mode ["a"] the
    block follows the previous content. *)
Theorem writeLines_file_effect {A} (coord_str : A → string)
    (lines : list ((A * A * A) * (A * A * A))) (file_name other : string)
    (mode : open_mode) (fs : gmap string string) :
  other ≠ file_name →
  (writeLines coord_str lines file_name mode fs).2 = Ok ()
  ∧ (writeLines coord_str lines file_name mode fs).1 !! other = fs !! other
  ∧ (writeLines coord_str lines file_name mode fs).1 !! file_name
    = Some (match mode with
            | mode_w => scr_block coord_str lines
            | mode_a => default "" (fs !! file_name) +:+ scr_block coord_str lines
            end).
Proof.
  intros Hne. destruct (writeLines_lookup coord_str lines file_name mode fs)
    as [Hok Hlook].
  split; [done|]. split.
  - by rewrite Hlook, decide_False.
  - rewrite Hlook, decide_True by done. by destruct mode.
Qed.

Lemma writeLines_file_effect_witness :
  "IdealModel.scr" ≠ "3dModel.scr"
  ∧ (writeLines int_str [((1, 2, 3), (4, 5, 6))%Z] "3dModel.scr" mode_a
       {["3dModel.scr" := "old"; "IdealModel.scr" := "kept"]}).2 = Ok ()
  ∧ (writeLines int_str [((1, 2, 3), (4, 5, 6))%Z] "3dModel.scr" mode_a
       {["3dModel.scr" := "old"; "IdealModel.scr" := "kept"]}).1 !! "IdealModel.scr"
    = ({["3dModel.scr" := "old"; "IdealModel.scr" := "kept"]} : gmap string string)
        !! "IdealModel.scr"
  ∧ (writeLines int_str [((1, 2, 3), (4, 5, 6))%Z] "3dModel.scr" mode_a
       {["3dModel.scr" := "old"; "IdealModel.scr" := "kept"]}).1 !! "3dModel.scr"
    = Some (default "" (({["3dModel.scr" := "old"; "IdealModel.scr" := "kept"]}
                           : gmap string string) !! "3dModel.scr")
            +:+ scr_block int_str [((1, 2, 3), (4, 5, 6))%Z]).
Proof.
  assert ("IdealModel.scr" ≠ "3dModel.scr") as H by discriminate.
  split; [exact H|].
  exact (writeLines_file_effect int_str [((1, 2, 3), (4, 5, 6))%Z]
           "3dModel.scr" "IdealModel.scr" mode_a
           {["3dModel.scr" := "old"; "IdealModel.scr" := "kept"]} H).
Defined.

(** ** The loops of [process_file] *)


Lemma for_each_app {A} (f : A → io ()) (xs ys : list A) (fs : gmap string string) :
  for_each f (xs ++ ys) fs
  = match for_each f xs fs with
    | (fs', Ok _) => for_each f ys fs'
    | (fs', Raise e) => (fs', Raise e)
    end.
Proof.
  revert fs. induction xs as [|x xs IH]; intros fs; cbn [for_each app]; [done|].
  rewrite !io_bind_unfold. destruct (f x fs) as [fs' [[]|e]]; [apply IH|done].
Qed.

Lemma for_each_fmap {A B} (h : A → B) (f : B → io ()) (xs : list A) :
  for_each f (h <$> xs) = for_each (λ x, f (h x)) xs.
Proof.
  induction xs as [|x xs IH]; cbn [for_each fmap list_fmap]; [done|].
  change (list_fmap A B h xs) with (h <$> xs). by rewrite IH.
Qed.

Lemma for_each_frame {A} (f : A → io ()) (xs : list A) (file : string) :
  (∀ x fs, (f x fs).1 !! file = fs !! file) →
  ∀ fs, (for_each f xs fs).1 !! file = fs !! file.
Proof.
  intros Hf. induction xs as [|x xs IH]; intros fs; cbn [for_each]; [done|].
  rewrite io_bind_unfold. specialize (Hf x fs).
  destruct (f x fs) as [fs' [[]|e]]; cbn [fst] in *; [|done].
  by rewrite IH.
Qed.

Section export_properties.
Variable float_str : Qc → string.
Variables output_elem_filename output_ideal_filename : string.

Lemma export_job_run (job : (list Segment → result Segment) * list Segment)
    (fs : gmap string string) :
  export_job float_str output_elem_filename output_ideal_filename job fs
  = match job.1 job.2 with
    | Ok ideal =>
        ((writeLines float_str [ideal] output_ideal_filename mode_a
            (writeLines float_str job.2 output_elem_filename mode_a fs).1).1,
         Ok ())
    | Raise e =>
        ((writeLines float_str job.2 output_elem_filename mode_a fs).1, Raise e)
    end.
Proof.
  unfold export_job. rewrite io_bind_unfold.
  destruct (writeLines_lookup float_str job.2 output_elem_filename mode_a fs)
    as [Hok _].
  destruct (writeLines float_str job.2 output_elem_filename mode_a fs)
    as [fs1 r1]. cbn [fst snd] in *. subst r1.
  rewrite io_bind_unfold. unfold io_of_result.
  destruct (job.1 job.2) as [ideal|e]; [|done].
  destruct (writeLines_lookup float_str [ideal] output_ideal_filename mode_a fs1)
    as [Hok _].
  destruct (writeLines float_str [ideal] output_ideal_filename mode_a fs1)
    as [fs2 r2]. cbn [fst snd] in *. by subst r2.
Qed.

Lemma export_job_frame (job : (list Segment → result Segment) * list Segment)
    (fs : gmap string string) (file : string) :
  file ≠ output_elem_filename → file ≠ output_ideal_filename →
  (export_job float_str output_elem_filename output_ideal_filename job fs).1 !! file
  = fs !! file.
Proof.
  intros Hne1 Hne2. rewrite export_job_run.
  destruct (writeLines_lookup float_str job.2 output_elem_filename mode_a fs)
    as [_ Hlook1].
  destruct (job.1 job.2) as [ideal|e]; cbn [fst].
  - destruct (writeLines_lookup float_str [ideal] output_ideal_filename mode_a
                (writeLines float_str job.2 output_elem_filename mode_a fs).1)
      as [_ Hlook2].
    by rewrite Hlook2, decide_False, Hlook1, decide_False.
  - by rewrite Hlook1, decide_False.
Qed.


Hypothesis distinct_files : output_elem_filename ≠ output_ideal_filename.


End export_properties.

(** ** The run of [process_file] *)

Lemma for_each_ext {A} (f g : A → io ()) (xs : list A) :
  (∀ x, f x = g x) → for_each f xs = for_each g xs.
Proof.
  intros Hfg. induction xs as [|x xs IH]; cbn [for_each]; [done|].
  by rewrite Hfg, IH.
Qed.

Lemma io_bind_of_result {A B} (r : result A) (f : A → io B)
    (fs : gmap string string) :
  (io_of_result r ≫= f) fs
  = match r with Ok a => f a fs | Raise e => (fs, Raise e) end.
Proof. by destruct r. Qed.



Section process_file_properties.
Variable list_set : list (Z * Z) → list (Z * Z).
Variable float_str : Qc → string.
Variable ifc_file : string → list ifc_entity.
Variables output_elem_filename output_ideal_filename : string.

Lemma decoded_elements_unfold (ObjType : string) :
  ObjType ∈ ["IfcBeam"; "IfcColumn"] →
  dict_get (read_geom ifc_file ["IfcBeam"; "IfcColumn"]) ObjType
    = Ok (collect_entities (ifc_file ObjType))
  ∧ decoded_elements list_set ifc_file ObjType
    = abstract_elements_by_type list_set (collect_entities (ifc_file ObjType)).
Proof.
  intros Hin. unfold decoded_elements, dict_get.
  by rewrite read_geom_lookup, decide_True.
Qed.

Lemma decoded_elements_Raise (ObjType : string) (e : exn) :
  ObjType ∈ ["IfcBeam"; "IfcColumn"] →
  decoded_elements list_set ifc_file ObjType = Raise e → e = IndexError.
Proof.
  intros Hin. destruct (decoded_elements_unfold _ Hin) as [_ ->].
  apply abstract_collect_entities_Raise.
Qed.

(** The run: decode both types, truncate both files, export every
    element. *)
Lemma process_file_unfold (fs : gmap string string) :
  process_file list_set float_str ifc_file output_elem_filename
               output_ideal_filename fs
  = match decoded_elements list_set ifc_file "IfcBeam" with
    | Raise e => (fs, Raise e)
    | Ok beams =>
        match decoded_elements list_set ifc_file "IfcColumn" with
        | Raise e => (fs, Raise e)
        | Ok columns =>
            for_each (export_job float_str output_elem_filename
                                 output_ideal_filename)
                     (export_jobs beams columns)
                     (<[output_ideal_filename := ""]>
                        (<[output_elem_filename := ""]> fs))
        end
    end.
Proof.
  destruct (decoded_elements_unfold "IfcBeam") as [Hb ->]; [by left|].
  destruct (decoded_elements_unfold "IfcColumn") as [Hc ->]; [right; by left|].
  unfold process_file. cbv zeta. rewrite Hb, Hc.
  rewrite io_bind_of_result. cbv beta iota.
  rewrite io_bind_of_result. cbv beta iota.
  rewrite io_bind_of_result.
  destruct (abstract_elements_by_type list_set (collect_entities (ifc_file "IfcBeam")))
    as [beams|e]; [|done].
  rewrite io_bind_of_result.
  destruct (abstract_elements_by_type list_set (collect_entities (ifc_file "IfcColumn")))
    as [columns|e]; [|done].
  rewrite io_bind_unfold. unfold open_file at 1. cbv beta iota.
  rewrite io_bind_unfold. unfold open_file at 1. cbv beta iota.
  unfold export_jobs. rewrite for_each_app, !for_each_fmap.
  rewrite (for_each_ext _ (λ x, export_job float_str output_elem_filename
                                   output_ideal_filename (idealizeBeam, x.2)) beams)
    by by intros [key lines].
  rewrite (for_each_ext _ (λ x, export_job float_str output_elem_filename
                                   output_ideal_filename (idealizeColumn, x.2)) columns)
    by by intros [key lines].
  by rewrite io_bind_unfold.
Qed.
End process_file_properties.






Section process_file_run.
Variable list_set : list (Z * Z) → list (Z * Z).
Variable float_str : Qc → string.
Variable ifc_file : string → list ifc_entity.
Variables output_elem_filename output_ideal_filename : string.

(** X23.  A run changes no file other than its two output files. *)
Theorem process_file_frame (fs : gmap string string) (file : string) :
  file ≠ output_elem_filename → file ≠ output_ideal_filename →
  (process_file list_set float_str ifc_file output_elem_filename
     output_ideal_filename fs).1 !! file = fs !! file.
Proof.
  intros Hne1 Hne2. rewrite process_file_unfold.
  destruct (decoded_elements list_set ifc_file "IfcBeam") as [beams|e]; [|done].
  destruct (decoded_elements list_set ifc_file "IfcColumn") as [columns|e]; [|done].
  rewrite for_each_frame.
  - by rewrite !lookup_insert_ne.
  - intros job fs'. by apply export_job_frame.
Qed.

(** X24.  When the decoding of the beams or of the columns fails, the run
    ends with that [IndexError] before it opens a file: the file system is
    as it was, and an output file of an earlier run keeps its content. *)
Theorem process_file_decode_failure (fs : gmap string string) (e : exn) :
  decoded_elements list_set ifc_file "IfcBeam" = Raise e
  ∨ (is_Ok (decoded_elements list_set ifc_file "IfcBeam")
     ∧ decoded_elements list_set ifc_file "IfcColumn" = Raise e) →
  process_file list_set float_str ifc_file output_elem_filename
     output_ideal_filename fs
  = (fs, Raise e)
  ∧ e = IndexError.
Proof.
  rewrite process_file_unfold. intros [Hb|[[beams Hb] Hc]].
  - rewrite Hb. split; [done|].
    eapply decoded_elements_Raise; [|done]. by left.
  - rewrite Hb, Hc. split; [done|].
    eapply decoded_elements_Raise; [|done]. right. by left.
Qed.



End process_file_run.

Lemma process_file_frame_witness :
  "notes.txt" ≠ "3dModel.scr" ∧ "notes.txt" ≠ "IdealModel.scr"
  ∧ (process_file last_seen_order float_str_sample sample_model
       "3dModel.scr" "IdealModel.scr" {["notes.txt" := "keep"]}).1 !! "notes.txt"
    = ({["notes.txt" := "keep"]} : gmap string string) !! "notes.txt".
Proof.
  assert ("notes.txt" ≠ "3dModel.scr") as H1 by discriminate.
  assert ("notes.txt" ≠ "IdealModel.scr") as H2 by discriminate.
  split; [exact H1|]. split; [exact H2|].
  exact (process_file_frame last_seen_order float_str_sample sample_model
           "3dModel.scr" "IdealModel.scr" {["notes.txt" := "keep"]} "notes.txt"
           H1 H2).
Defined.

Lemma process_file_decode_failure_witness :
  (decoded_elements last_seen_order dangling_edge_model "IfcBeam" = Raise IndexError
   ∨ (is_Ok (decoded_elements last_seen_order dangling_edge_model "IfcBeam")
      ∧ decoded_elements last_seen_order dangling_edge_model "IfcColumn"
        = Raise IndexError))
  ∧ process_file last_seen_order float_str_sample dangling_edge_model
      "3dModel.scr" "IdealModel.scr" {["3dModel.scr" := "earlier run"]}
    = ({["3dModel.scr" := "earlier run"]}, Raise IndexError)
  ∧ IndexError = IndexError.
Proof.
  assert (decoded_elements last_seen_order dangling_edge_model "IfcBeam"
          = Raise IndexError
          ∨ (is_Ok (decoded_elements last_seen_order dangling_edge_model "IfcBeam")
             ∧ decoded_elements last_seen_order dangling_edge_model "IfcColumn"
               = Raise IndexError)) as H.
  { left. by_evaluation. }
  split; [exact H|].
  exact (process_file_decode_failure last_seen_order float_str_sample
           dangling_edge_model "3dModel.scr" "IdealModel.scr"
           {["3dModel.scr" := "earlier run"]} IndexError H).
Defined.



(** * Part IV: properties in binary64 arithmetic

    The properties of the two idealizers that depend on how coordinates
    are added, squared and compared, over the definitions of [Float64]. *)

(** ** The order of binary64 numbers *)

Ltac compare_cases :=
  repeat match goal with
  | |- context [Z.compare ?a ?b] => destruct (Z.compare_spec a b); subst
  | H : context [Z.compare ?a ?b] |- _ => destruct (Z.compare_spec a b); subst
  | |- context [Pos.compare_cont Eq ?a ?b] =>
      change (Pos.compare_cont Eq a b) with (Pos.compare a b);
      destruct (Pos.compare_spec a b); subst
  | H : context [Pos.compare_cont Eq ?a ?b] |- _ =>
      change (Pos.compare_cont Eq a b) with (Pos.compare a b) in H;
      destruct (Pos.compare_spec a b); subst
  end;
  cbn [CompOpp] in *; try discriminate; try reflexivity; try lia.

Lemma SFcompare_Lt_trans (a b c : spec_float) :
  SFcompare a b = Some Lt → SFcompare b c = Some Lt → SFcompare a c = Some Lt.
Proof.
  destruct a as [sa|sa| |sa ma ea], b as [sb|sb| |sb mb eb], c as [sc|sc| |sc mc ec];
    cbn [SFcompare]; try discriminate;
    repeat match goal with s : bool |- _ => destruct s end;
    try discriminate; try reflexivity;
    intros H1 H2; compare_cases.
Qed.

Lemma SFcompare_antisym (a b : spec_float) :
  SFcompare b a = CompOpp <$> SFcompare a b.
Proof.
  destruct a as [sa|sa| |sa ma ea], b as [sb|sb| |sb mb eb];
    cbn [SFcompare fmap option_fmap option_map];
    repeat match goal with s : bool |- _ => destruct s end;
    try reflexivity; f_equal; compare_cases.
Qed.

Lemma SFcompare_Eq_Lt (a b c : spec_float) :
  SFcompare a b = Some Eq → SFcompare b c = Some Lt → SFcompare a c = Some Lt.
Proof.
  destruct a as [sa|sa| |sa ma ea], b as [sb|sb| |sb mb eb], c as [sc|sc| |sc mc ec];
    cbn [SFcompare]; try discriminate;
    repeat match goal with s : bool |- _ => destruct s end;
    try discriminate; try reflexivity;
    intros H1 H2; compare_cases.
Qed.

Lemma SFcompare_Lt_Eq (a b c : spec_float) :
  SFcompare a b = Some Lt → SFcompare b c = Some Eq → SFcompare a c = Some Lt.
Proof.
  destruct a as [sa|sa| |sa ma ea], b as [sb|sb| |sb mb eb], c as [sc|sc| |sc mc ec];
    cbn [SFcompare]; try discriminate;
    repeat match goal with s : bool |- _ => destruct s end;
    try discriminate; try reflexivity;
    intros H1 H2; compare_cases.
Qed.

Lemma SFcompare_Eq_trans (a b c : spec_float) :
  SFcompare a b = Some Eq → SFcompare b c = Some Eq → SFcompare a c = Some Eq.
Proof.
  destruct a as [sa|sa| |sa ma ea], b as [sb|sb| |sb mb eb], c as [sc|sc| |sc mc ec];
    cbn [SFcompare]; try discriminate;
    repeat match goal with s : bool |- _ => destruct s end;
    try discriminate; try reflexivity;
    intros H1 H2; compare_cases.
Qed.

Lemma SFcompare_nan (a b : spec_float) :
  SFcompare a b = None ↔ a = S754_nan ∨ b = S754_nan.
Proof.
  destruct a as [sa|sa| |sa ma ea], b as [sb|sb| |sb mb eb]; cbn [SFcompare];
    split; try discriminate; try tauto; intros [?|?]; discriminate.
Qed.

Section float_order.
Import Float64.

Lemma fgt_spec (x y : float) : fgt x y ↔ SFcompare y x = Some Lt.
Proof.
  unfold fgt, SFltb. destruct (SFcompare y x) as [[]|]; split; congruence.
Qed.

Lemma feq_spec (x y : float) : feq x y ↔ SFcompare x y = Some Eq.
Proof.
  unfold feq, SFeqb. destruct (SFcompare x y) as [[]|]; split; congruence.
Qed.

Lemma fgt_trans (x y z : float) : fgt x y → fgt y z → fgt x z.
Proof. rewrite !fgt_spec. intros H1 H2. by eapply SFcompare_Lt_trans. Qed.

Lemma fgt_irrefl (x : float) : ¬ fgt x x.
Proof.
  rewrite fgt_spec. intros H. pose proof (SFcompare_antisym x x) as Ha.
  rewrite H in Ha. discriminate.
Qed.

Lemma fgt_asym (x y : float) : fgt x y → ¬ fgt y x.
Proof. intros H1 H2. exact (fgt_irrefl _ (fgt_trans _ _ _ H1 H2)). Qed.

Lemma fgt_not_nan (x y : float) : fgt x y → ¬ is_nan x ∧ ¬ is_nan y.
Proof.
  rewrite fgt_spec. unfold is_nan. intros H.
  split; intros ->; by destruct y + destruct x.
Qed.

Lemma feq_not_nan (x y : float) : feq x y → ¬ is_nan x ∧ ¬ is_nan y.
Proof.
  rewrite feq_spec. unfold is_nan. intros H.
  split; intros ->; by destruct y + destruct x.
Qed.

Lemma feq_refl (x : float) : ¬ is_nan x → feq x x.
Proof.
  rewrite feq_spec. unfold is_nan. intros Hx.
  destruct (SFcompare x x) as [c|] eqn:Hc.
  - pose proof (SFcompare_antisym x x) as Ha. rewrite Hc in Ha.
    destruct c; done.
  - apply SFcompare_nan in Hc. tauto.
Qed.

Lemma feq_sym (x y : float) : feq x y → feq y x.
Proof.
  rewrite !feq_spec. intros H. by rewrite SFcompare_antisym, H.
Qed.

Lemma feq_trans (x y z : float) : feq x y → feq y z → feq x z.
Proof. rewrite !feq_spec. apply SFcompare_Eq_trans. Qed.

(** Numbers that are not NaN are comparable. *)
Lemma float_trichotomy (x y : float) :
  ¬ is_nan x → ¬ is_nan y → fgt x y ∨ feq x y ∨ fgt y x.
Proof.
  intros Hx Hy. rewrite !fgt_spec, feq_spec.
  destruct (SFcompare x y) as [c|] eqn:Hc.
  - rewrite (SFcompare_antisym x y), Hc. destruct c; cbn; tauto.
  - apply SFcompare_nan in Hc. unfold is_nan in *. tauto.
Qed.

Lemma feq_fgt (x y z : float) : feq x y → fgt z y → fgt z x.
Proof. rewrite feq_spec, !fgt_spec. apply SFcompare_Eq_Lt. Qed.

Lemma fgt_feq (x y z : float) : fgt x y → feq x z → fgt z y.
Proof.
  rewrite feq_spec, !fgt_spec. intros H1 H2.
  apply (SFcompare_Lt_Eq y x z H1 H2).
Qed.

(** [y ≤ x < z] gives [y < z]. *)
Lemma not_fgt_fgt (x y z : float) :
  ¬ is_nan x → ¬ is_nan y → ¬ fgt y x → fgt z x → fgt z y.
Proof.
  intros Hx Hy Hle Hlt.
  destruct (float_trichotomy y x) as [?|[Heq|Hgt]]; [done..| |].
  - by eapply feq_fgt.
  - by eapply fgt_trans.
Qed.
End float_order.

(** ** Loops that may raise *)

Lemma foldM_app {A B} (f : B → A → result B) (b : B) (xs ys : list A) :
  foldM f b (xs ++ ys) = (b' ← foldM f b xs; foldM f b' ys).
Proof.
  revert b. induction xs as [|x xs IH]; intros b; cbn [foldM app]; [done|].
  destruct (f b x) as [b'|e]; [|done]. rewrite !bind_Ok. apply IH.
Qed.

Lemma foldM_cons {A B} (f : B → A → result B) (b : B) (x : A) (xs : list A) :
  foldM f b (x :: xs) = (b' ← f b x; foldM f b' xs).
Proof. reflexivity. Qed.

(** ** The sign of a sum of squares *)

Section sum_of_squares.
Import Float64.
Variable libc : libm.

Lemma binary_round_aux_sign (m e : Z) (l : location) :
  ¬ fgt (S754_zero false) (binary_round_aux prec emax false m e l).
Proof.
  unfold fgt, SFltb, binary_round_aux.
  destruct (shr_fexp _ _ _ _ _) as [mrs' e'].
  destruct (shr_fexp _ _ _ _ _) as [mrs'' e''].
  destruct (shr_m mrs''); [done| |done]. by destruct (_ <=? _)%Z.
Qed.

Lemma add_sign (x y : float) :
  ¬ fgt (S754_zero false) x → ¬ fgt (S754_zero false) y →
  ¬ fgt (S754_zero false) (add x y).
Proof.
  destruct x as [sx|sx| |sx mx ex], y as [sy|sy| |sy my ey];
    try (by repeat match goal with s : bool |- _ => destruct s end).
  destruct sx; [by intros []|]. destruct sy; [by intros _ []|]. intros _ _.
  unfold add, SFadd. cbn [cond_Zopp Z.add binary_normalize binary_round].
  change (Z.pos ?a + Z.pos ?b)%Z with (Z.pos (a + b)).
  unfold binary_normalize, binary_round.
  destruct (shl_align _ _ _). apply binary_round_aux_sign.
Qed.

Lemma pow_2_sign (x r : float) :
  pow_2 libc x = Ok r → ¬ fgt (S754_zero false) r.
Proof.
  unfold pow_2. destruct x as [s|s| |s m e]; try by intros [= <-].
  case_decide; [by intros [= <-]|].
  pose proof (c_pow_2_sign libc (SFabs (S754_finite s m e))) as Hsign.
  destruct (c_pow_2 libc _); try done; by intros [= <-].
Qed.

(** The sum of squares under [** 0.5] is not below zero: the branch of
    [float_pow] for a negative base is never taken. *)
Lemma radicand_sign (dx dy dz dx2 dy2 dz2 : float) :
  pow_2 libc dx = Ok dx2 → pow_2 libc dy = Ok dy2 → pow_2 libc dz = Ok dz2 →
  ¬ fgt (S754_zero false) (add (add dx2 dy2) dz2).
Proof.
  intros Hx Hy Hz. repeat apply add_sign; by eapply pow_2_sign.
Qed.
End sum_of_squares.

(** ** The loops of the beam idealizer in binary64 arithmetic *)

Section float_beam.
Import Float64.
Variable libc : libm.

Lemma pow_2_Raise (x : float) (e : exn) :
  pow_2 libc x = Raise e → e = OverflowError.
Proof.
  unfold pow_2. destruct x; try done. case_decide; [done|].
  destruct (c_pow_2 libc _); try done. by intros [= <-].
Qed.

Lemma pow_half_Raise (x : float) (e : exn) :
  pow_half libc x = Raise e → e = OverflowError.
Proof.
  unfold pow_half. destruct x; try done. case_decide; [done|].
  destruct (c_pow_half libc _); try done. by intros [= <-].
Qed.

Lemma calcLength_Raise (line : Segment) (e : exn) :
  calcLength libc line = Raise e → e = OverflowError.
Proof.
  unfold calcLength.
  destruct (pow_2 libc (sub (px line.1) (px line.2))) eqn:H1;
    [|intros [= <-]; by eapply pow_2_Raise].
  rewrite bind_Ok.
  destruct (pow_2 libc (sub (py line.1) (py line.2))) eqn:H2;
    [|intros [= <-]; by eapply pow_2_Raise].
  rewrite bind_Ok.
  destruct (pow_2 libc (sub (pz line.1) (pz line.2))) eqn:H3;
    [|intros [= <-]; by eapply pow_2_Raise].
  rewrite bind_Ok. apply pow_half_Raise.
Qed.

Lemma float_calcLength_origin : calcLength libc origin_segment = Ok (S754_zero false).
Proof. reflexivity. Qed.

Lemma foldl_float_max (z : float) (zs : list float) :
  let best := foldl (λ best y, if decide (fgt y best) then y else best) z zs in
  best ∈ z :: zs ∧ (best = z ∨ fgt best z) ∧ ∀ y, y ∈ zs → ¬ fgt y best.
Proof.
  cbv zeta. revert z. induction zs as [|y zs IH]; intros z; cbn [foldl].
  { split; [by left|]. split; [by left|]. by intros y ?%elem_of_nil. }
  destruct (decide (fgt y z)) as [Hgt|Hgt].
  - destruct (IH y) as (Hin & Hbest & Hall). split; [by right|]. split.
    + right. destruct Hbest as [->|Hbest]; [done|]. by eapply fgt_trans.
    + intros y' [->|Hy']%elem_of_cons; [|by apply Hall].
      destruct Hbest as [->|Hbest]; [apply fgt_irrefl|by apply fgt_asym].
  - destruct (IH z) as (Hin & Hbest & Hall). split.
    { apply elem_of_cons in Hin as [->|Hin]; [by left|]. right. by right. }
    split; [done|].
    intros y' [->|Hy']%elem_of_cons; [|by apply Hall].
    destruct Hbest as [->|Hbest]; [done|].
    intros Hy. apply Hgt. by eapply fgt_trans.
Qed.

Lemma py_max_float_spec (zs : list float) :
  zs ≠ [] → ∃ best, py_max zs = Ok best ∧ best ∈ zs ∧ ∀ y, y ∈ zs → ¬ fgt y best.
Proof.
  destruct zs as [|z zs]; [done|]. intros _. cbn [py_max].
  eexists. split; [reflexivity|].
  destruct (foldl_float_max z zs) as (Hin & Hbest & Hall). split; [done|].
  intros y [->|Hy]%elem_of_cons; [|by apply Hall].
  destruct Hbest as [->|Hbest]; [apply fgt_irrefl|by apply fgt_asym].
Qed.

Lemma py_max_float_Raise (zs : list float) (e : exn) :
  py_max zs = Raise e → zs = [] ∧ e = ValueError.
Proof. destruct zs; [by intros [= <-]|done]. Qed.

Lemma py_max_float_endpoint_zs (elementLines : list Segment) :
  elementLines ≠ [] →
  ∃ z_max, py_max (endpoint_zs elementLines) = Ok z_max ∧ is_z_max z_max elementLines.
Proof.
  intros Hne. destruct (py_max_float_spec (endpoint_zs elementLines))
    as (z & Hz & Hin & Hall); [by destruct elementLines|].
  by exists z.
Qed.

Lemma float_beam_loops (pre suf : list Segment) (b : Segment) :
  let topLines := pre ++ suf in
  foldM (λ idealBeam i,
     line_i ← list_get topLines i;
     let init_point := calcMidPoint line_i in
     foldM (λ idealBeam j,
        line_j ← list_get topLines j;
        let end_point := calcMidPoint line_j in
        let candidate := (init_point, end_point) in
        candidate_length ← calcLength libc candidate;
        ideal_length ← calcLength libc idealBeam;
        if decide (fgt candidate_length ideal_length)
        then Ok candidate else Ok idealBeam)
       idealBeam (seq i (length topLines - i)))
    b (seq (length pre) (length suf))
  = foldM (beam_step libc) b (candidates suf).
Proof.
  cbv zeta. revert pre b. induction suf as [|t rest IH]; intros pre b; [done|].
  cbn [length seq foldM].
  rewrite list_get_middle, bind_Ok.
  replace (length (pre ++ t :: rest) - length pre) with (length (t :: rest))
    by (rewrite length_app; cbn [length]; lia).
  pose proof (foldM_seq_get
    (λ acc line_j, beam_step libc acc (midpoint_segment t line_j))
    pre (t :: rest) [] b) as Hin.
  rewrite (right_id_L [] (++)) in Hin.
  rewrite (foldM_ext _ (λ acc j, x ← list_get (pre ++ t :: rest) j;
                          beam_step libc acc (midpoint_segment t x))), Hin.
  2:{ intros acc j. by destruct (list_get _ j). }
  cbn [candidates]. rewrite foldM_app, foldM_fmap.
  destruct (foldM _ b (t :: rest)) as [b'|e]; [|done]. rewrite bind_Ok.
  specialize (IH (pre ++ [t]) b').
  rewrite <-(assoc_L (++)) in IH. cbn [app] in IH.
  replace (length (pre ++ [t])) with (S (length pre)) in IH
    by (rewrite length_app; cbn [length]; lia).
  exact IH.
Qed.

Lemma float_idealizeBeam_scan (elementLines : list Segment) :
  idealizeBeam libc elementLines =
  z_max ← py_max (endpoint_zs elementLines);
  foldM (beam_step libc) origin_segment (candidates (top_lines z_max elementLines)).
Proof.
  unfold idealizeBeam. fold (endpoint_zs elementLines).
  destruct (py_max _) as [z_max|e]; [|done]. rewrite !bind_Ok.
  fold (top_lines z_max elementLines).
  apply (float_beam_loops [] (top_lines z_max elementLines)).
Qed.

Lemma float_elem_of_top_lines (z_max : float) (lines : list Segment) (s : Segment) :
  s ∈ top_lines z_max lines
  ↔ s ∈ lines ∧ feq (pz s.1) z_max ∧ feq (pz s.2) z_max.
Proof. unfold top_lines. rewrite list_elem_of_filter. tauto. Qed.

Lemma float_elem_of_candidates (tops : list Segment) (c : Segment) :
  c ∈ candidates tops ↔
  ∃ i j a b, i ≤ j ∧ tops !! i = Some a ∧ tops !! j = Some b
             ∧ c = (calcMidPoint a, calcMidPoint b).
Proof.
  induction tops as [|t rest IH]; cbn [candidates].
  { split; [by intros ?%elem_of_nil|]. by intros (i & j & a & b & _ & ? & _). }
  rewrite elem_of_app, list_elem_of_fmap, IH. split.
  - intros [(u & -> & Hu)|(i & j & a & b & Hij & Hi & Hj & ->)].
    + apply list_elem_of_lookup in Hu as [j Hj].
      exists 0, j, t, u. repeat split; [lia|done].
    + exists (S i), (S j), a, b. repeat split; [lia|done..].
  - intros (i & j & a & b & Hij & Hi & Hj & ->). destruct i as [|i].
    + left. injection Hi as ->. exists b. split; [done|].
      by eapply list_elem_of_lookup_2.
    + right. destruct j as [|j]; [lia|].
      exists i, j, a, b. repeat split; [lia|done..].
Qed.

(** The scan raises when the length of a candidate overflows; otherwise it
    keeps the start value when no candidate is longer, and ends on the
    first longest candidate when one is. *)
Lemma float_beam_scan_spec (b : Segment) (len_b : float) (cands : list Segment) :
  calcLength libc b = Ok len_b → ¬ is_nan len_b →
  ((∃ c, c ∈ cands ∧ calcLength libc c = Raise OverflowError)
   ∧ foldM (beam_step libc) b cands = Raise OverflowError)
  ∨ (foldM (beam_step libc) b cands = Ok b
     ∧ Forall (λ c, ∃ len_c, calcLength libc c = Ok len_c ∧ ¬ fgt len_c len_b) cands)
  ∨ (∃ r len_r, foldM (beam_step libc) b cands = Ok r
       ∧ calcLength libc r = Ok len_r ∧ fgt len_r len_b
       ∧ first_longest libc r cands).
Proof.
  revert b len_b. induction cands as [|c cands IH]; intros b len_b Hb Hnan.
  { right. left. by split. }
  rewrite (foldM_cons (beam_step libc) b c cands).
  destruct (calcLength libc c) as [len_c|e] eqn:Hc.
  2:{ pose proof (calcLength_Raise _ _ Hc) as ->. left. split.
      - exists c. split; [by left|done].
      - unfold beam_step. by rewrite Hc. }
  destruct (decide (fgt len_c len_b)) as [Hgt|Hgt].
  - assert (beam_step libc b c = Ok c) as ->.
    { unfold beam_step. by rewrite Hc, bind_Ok, Hb, bind_Ok, decide_True. }
    rewrite !bind_Ok.
    destruct (IH c len_c Hc) as [[(c' & Hin & Hc') ->]|[[-> Hall]|Hfirst]].
    + by apply fgt_not_nan in Hgt as [? _].
    + left. split; [|done]. exists c'. split; [by right|done].
    + right. right. exists c, len_c. split; [done|]. split; [done|].
      split; [done|]. exists [], cands, len_c. by repeat split.
    + destruct Hfirst as (r & len_r & -> & Hr & Hgt' & pre & post & len_r'
                          & -> & Hr' & Hpre & Hpost).
      right. right. exists r, len_r. split; [done|]. split; [done|].
      split; [by eapply fgt_trans|].
      exists (c :: pre), post, len_r'. split; [done|]. split; [done|].
      split; [|done]. constructor; [|done].
      exists len_c. split; [done|]. left. congruence.
  - assert (beam_step libc b c = Ok b) as ->.
    { unfold beam_step. by rewrite Hc, bind_Ok, Hb, bind_Ok, decide_False. }
    rewrite !bind_Ok.
    destruct (IH b len_b Hb Hnan) as [[(c' & Hin & Hc') ->]|[[-> Hall]|Hfirst]].
    + left. split; [|done]. exists c'. split; [by right|done].
    + right. left. split; [done|]. constructor; [|done]. by exists len_c.
    + destruct Hfirst as (r & len_r & -> & Hr & Hgt' & pre & post & len_r'
                          & -> & Hr' & Hpre & Hpost).
      right. right. exists r, len_r. split; [done|]. split; [done|].
      split; [done|].
      exists (c :: pre), post, len_r'. split; [done|]. split; [done|].
      split; [|done]. constructor; [|done].
      exists len_c. split; [done|].
      destruct (decide (is_nan len_c)) as [?|Hc_nan]; [by right|left].
      assert (len_r' = len_r) as -> by congruence.
      by eapply (not_fgt_fgt len_b).
Qed.

(** The outcomes of the beam idealizer on a non-empty list. *)
Lemma float_idealizeBeam_cases (elementLines : list Segment) :
  elementLines ≠ [] →
  ∃ z_max,
    py_max (endpoint_zs elementLines) = Ok z_max
    ∧ is_z_max z_max elementLines
    ∧ idealizeBeam libc elementLines
      = foldM (beam_step libc) origin_segment
              (candidates (top_lines z_max elementLines))
    ∧ (((∃ c, c ∈ candidates (top_lines z_max elementLines)
              ∧ calcLength libc c = Raise OverflowError)
        ∧ idealizeBeam libc elementLines = Raise OverflowError)
       ∨ ((∀ c, c ∈ candidates (top_lines z_max elementLines) →
             ∃ len_c, calcLength libc c = Ok len_c
                      ∧ ¬ fgt len_c (S754_zero false))
          ∧ idealizeBeam libc elementLines = Ok origin_segment)
       ∨ (∃ r, idealizeBeam libc elementLines = Ok r
               ∧ positive_length libc r
               ∧ first_longest libc r (candidates (top_lines z_max elementLines)))).
Proof.
  intros Hne. destruct (py_max_float_endpoint_zs _ Hne) as (z_max & Hmax & Hz).
  exists z_max. split; [done|]. split; [done|].
  assert (idealizeBeam libc elementLines
          = foldM (beam_step libc) origin_segment
                  (candidates (top_lines z_max elementLines))) as Hscan.
  { by rewrite float_idealizeBeam_scan, Hmax. }
  split; [done|]. rewrite Hscan.
  destruct (float_beam_scan_spec origin_segment (S754_zero false)
              (candidates (top_lines z_max elementLines)) float_calcLength_origin)
    as [[Hc ->]|[[-> Hall]|(r & len_r & -> & Hr & Hgt & Hfirst)]]; [done|..].
  - by left.
  - right. left. split; [|done]. by apply Forall_forall.
  - right. right. exists r. split; [done|]. split; [by exists len_r|done].
Qed.

Lemma float_first_longest_elem (r : Segment) (cands : list Segment) :
  first_longest libc r cands → r ∈ cands.
Proof.
  intros (pre & post & len_r & -> & _). apply elem_of_app. right. by left.
Qed.
End float_beam.

(** ** Doubling and halving a binary64 number *)

Section double_half.
Import Float64.

Lemma fexp_unfold (x : Z) : fexp prec emax x = Z.max (x - 53) (-1074).
Proof. reflexivity. Qed.

(** Rounding a number that is a float already. *)
Lemma binary_round_aux_exact (s : bool) (m : positive) (e : Z) :
  fexp prec emax (Zpos (digits2_pos m) + e) = e → (e ≤ 971)%Z →
  binary_round_aux prec emax s (Zpos m) e loc_Exact = S754_finite s m e.
Proof.
  intros Hcan He. unfold binary_round_aux, shr_fexp.
  cbn [Zdigits2 shr_record_of_loc]. rewrite Hcan, Z.sub_diag.
  cbn [shr shr_m loc_of_shr_record round_nearest_even Zdigits2 shr_record_of_loc].
  rewrite Hcan, Z.sub_diag. cbn [shr shr_m].
  replace (e <=? emax - prec)%Z with true; [done|].
  symmetry. apply Z.leb_le. unfold emax, prec. lia.
Qed.

(** Rounding twice a 53-bit mantissa. *)
Lemma binary_round_aux_double (s : bool) (m : positive) (e : Z) :
  fexp prec emax (Zpos (digits2_pos m) + 1 + e) = (e + 1)%Z →
  binary_round_aux prec emax s (Zpos m~0) e loc_Exact
  = if (e + 1 <=? 971)%Z then S754_finite s m (e + 1) else S754_infinity s.
Proof.
  intros Hcan. unfold binary_round_aux, shr_fexp.
  cbn [Zdigits2 shr_record_of_loc digits2_pos]. rewrite Pos2Z.inj_succ.
  replace (Z.succ (Zpos (digits2_pos m)) + e)%Z
    with (Zpos (digits2_pos m) + 1 + e)%Z by lia.
  rewrite Hcan. replace (e + 1 - e)%Z with 1%Z by lia.
  cbn [shr SpecFloat.iter_pos shr_1 shr_m loc_of_shr_record round_nearest_even
       Zdigits2 shr_record_of_loc orb].
  replace (Zpos (digits2_pos m) + (e + 1))%Z
    with (Zpos (digits2_pos m) + 1 + e)%Z by lia.
  rewrite Hcan, Z.sub_diag. cbn [shr shr_m]. done.
Qed.

Lemma shl_align_ge (m : positive) (e e' : Z) :
  (e ≤ e')%Z → shl_align m e e' = (m, e).
Proof. intros He. unfold shl_align. destruct (e' - e)%Z eqn:Hd; [done..|lia]. Qed.

Lemma bounded_inv (m : positive) (e : Z) :
  bounded prec emax m e = true →
  Z.max (Zpos (digits2_pos m) + e - 53) (-1074) = e ∧ (e ≤ 971)%Z.
Proof.
  unfold bounded, canonical_mantissa. rewrite fexp_unfold.
  intros [Hc He]%andb_true_iff. apply Z.eqb_eq in Hc. apply Z.leb_le in He.
  split; [done|]. unfold emax, prec in He. lia.
Qed.

(** [x + x] for a float [x]: the exponent goes up by one, or the mantissa
    of a subnormal number doubles. *)
Lemma float_double (s : bool) (m : positive) (e : Z) :
  bounded prec emax m e = true →
  add (S754_finite s m e) (S754_finite s m e)
  = if decide (Zpos (digits2_pos m) = 53%Z)
    then if (e + 1 <=? 971)%Z then S754_finite s m (e + 1) else S754_infinity s
    else S754_finite s m~0 e.
Proof.
  intros [Hcan He]%bounded_inv.
  assert (add (S754_finite s m e) (S754_finite s m e)
          = binary_round prec emax s m~0 e) as ->.
  { unfold add, SFadd. rewrite Z.min_id, shl_align_ge by lia. cbn [fst].
    destruct s; cbn [cond_Zopp].
    - by replace (- Z.pos m + - Z.pos m)%Z with (Zneg m~0) by lia.
    - by replace (Z.pos m + Z.pos m)%Z with (Zpos m~0) by lia. }
  unfold binary_round. cbn [digits2_pos]. rewrite Pos2Z.inj_succ.
  rewrite shl_align_ge by (rewrite fexp_unfold; lia).
  destruct (decide (Zpos (digits2_pos m) = 53%Z)) as [Hd|Hd].
  - apply binary_round_aux_double. rewrite fexp_unfold. lia.
  - apply binary_round_aux_exact; [|done]. cbn [digits2_pos].
    rewrite Pos2Z.inj_succ, fexp_unfold. lia.
Qed.

Lemma div_eucl_exact (q : Z) :
  Z.div_eucl (q * 4503599627370496) 4503599627370496 = (q, 0%Z).
Proof.
  pose proof (Z_div_mod (q * 4503599627370496) 4503599627370496) as H.
  destruct (Z.div_eucl _ _) as [q' r']. destruct H as [H1 H2]; [done|].
  f_equal; lia.
Qed.

(** The quotient by two of a float with an even mantissa or an exponent
    above the least. *)
Lemma float_halve_core (M : positive) (E : Z) (q : positive) (k : positive) :
  (Z.min (Z.max (Zpos (digits2_pos M) + E - 2 - 53) (-1074)) (E + 51)
   = E + 51 - Zpos k)%Z →
  (Zpos M * 2 ^ Zpos k = Zpos q * 4503599627370496)%Z →
  SFdiv_core_binary prec emax (Zpos M) E 4503599627370496 (-51)
  = (Zpos q, (E + 51 - Zpos k)%Z, loc_Exact).
Proof.
  intros He' Hq. unfold SFdiv_core_binary. cbn [Zdigits2].
  change (Zpos (digits2_pos 4503599627370496)) with 53%Z.
  rewrite fexp_unfold.
  replace (Zpos (digits2_pos M) + E - (53 + -51) - 53)%Z
    with (Zpos (digits2_pos M) + E - 2 - 53)%Z by lia.
  replace (E - -51)%Z with (E + 51)%Z by lia.
  rewrite He'. replace (E + 51 - (E + 51 - Zpos k))%Z with (Zpos k) by lia.
  rewrite Z.shiftl_mul_pow2 by lia. rewrite Hq, div_eucl_exact. done.
Qed.

Lemma float_div_two (s : bool) (M : positive) (E : Z) :
  div (S754_finite s M E) (of_int 2)
  = let '(mz, ez, lz) :=
      SFdiv_core_binary prec emax (Zpos M) E 4503599627370496 (-51) in
    binary_round_aux prec emax s mz ez lz.
Proof.
  unfold div. change (of_int 2) with (S754_finite false 4503599627370496 (-51)).
  cbn [SFdiv]. by rewrite xorb_false_r.
Qed.

(** Doubling a float and halving the result gives the float back, unless
    the double is out of range. *)
Lemma float_double_half (s : bool) (m : positive) (e : Z) :
  bounded prec emax m e = true →
  add (S754_finite s m e) (S754_finite s m e) = S754_infinity s
  ∨ div (add (S754_finite s m e) (S754_finite s m e)) (of_int 2)
    = S754_finite s m e.
Proof.
  intros Hb. rewrite (float_double s m e Hb).
  apply bounded_inv in Hb as [Hcan He].
  destruct (decide (Zpos (digits2_pos m) = 53%Z)) as [Hd|Hd].
  - destruct (e + 1 <=? 971)%Z eqn:Hle; [right|by left].
    apply Z.leb_le in Hle. rewrite float_div_two.
    destruct (decide (e = (-1074)%Z)) as [->|Hmin].
    + rewrite (float_halve_core m (-1074 + 1) m 52) by (rewrite ?Hd; lia).
      apply binary_round_aux_exact; [rewrite fexp_unfold|]; lia.
    + rewrite (float_halve_core m (e + 1) m~0 53) by (rewrite ?Hd; lia).
      rewrite binary_round_aux_double by (rewrite fexp_unfold; lia).
      replace (e + 1 + 51 - 53 + 1)%Z with e by lia.
      by rewrite (proj2 (Z.leb_le e 971)) by lia.
  - right. rewrite float_div_two.
    pose proof (Pos2Z.is_pos (digits2_pos m)) as Hpos.
    assert (e = (-1074)%Z) as -> by lia.
    rewrite (float_halve_core m~0 (-1074) m 51).
    + apply binary_round_aux_exact; [rewrite fexp_unfold|]; lia.
    + cbn [digits2_pos]. rewrite Pos2Z.inj_succ. lia.
    + lia.
Qed.
End double_half.

Section midpoint_levels.
Import Float64.

Lemma feq_finite_inv (s : bool) (m : positive) (e : Z) (z : float) :
  feq z (S754_finite s m e) → z = S754_finite s m e.
Proof.
  rewrite feq_spec.
  destruct z as [sz|sz| |sz mz ez]; cbn [SFcompare]; try discriminate;
    destruct s, sz; try discriminate; intros H; compare_cases.
Qed.

Lemma add_nan_r (x : float) : add x S754_nan = S754_nan.
Proof. by destruct x. Qed.

(** The midpoint of two coordinates equal to a binary64 number [z] is
    equal to [z], unless the double of [z] is out of range: then the
    midpoint of any two such coordinates is the same infinity. *)
Lemma midpoint_level (z : float) :
  is_binary64 z →
  (∀ z1 z2, feq z1 z → feq z2 z → feq (div (add z1 z2) (of_int 2)) z)
  ∨ (∃ s, ∀ z1 z2, feq z1 z → feq z2 z →
            div (add z1 z2) (of_int 2) = S754_infinity s).
Proof.
  intros Hz. destruct z as [s|s| |s m e].
  - left. intros z1 z2 H1%feq_spec H2%feq_spec. apply feq_spec.
    destruct z1 as [s1|s1| |s1 m1 e1], z2 as [s2|s2| |s2 m2 e2];
      cbn [SFcompare] in H1, H2;
      repeat match goal with b : bool |- _ => destruct b end;
      try discriminate; reflexivity.
  - left. intros z1 z2 H1%feq_spec H2%feq_spec. apply feq_spec.
    destruct z1 as [s1|s1| |s1 m1 e1], z2 as [s2|s2| |s2 m2 e2];
      cbn [SFcompare] in H1, H2;
      repeat match goal with b : bool |- _ => destruct b end;
      try discriminate; reflexivity.
  - left. intros z1 z2 H1. by apply feq_not_nan in H1 as [_ []].
  - destruct (float_double_half s m e Hz) as [Hinf|Hhalf].
    + right. exists s. intros z1 z2 ->%feq_finite_inv ->%feq_finite_inv.
      rewrite Hinf. by destruct s.
    + left. intros z1 z2 ->%feq_finite_inv ->%feq_finite_inv.
      rewrite Hhalf. by apply feq_refl.
Qed.

(** Between two points at the same infinite level no length is
    computed: the result is NaN. *)
Lemma calcLength_infinite_level (libc : libm) (p q : Point3) (s : bool)
    (len : float) :
  pz p = S754_infinity s → pz q = S754_infinity s →
  calcLength libc (p, q) = Ok len → is_nan len.
Proof.
  intros Hp Hq. unfold calcLength. cbn [fst snd]. rewrite Hp, Hq.
  destruct (pow_2 libc (sub (px p) (px q))) as [dx2|]; [|done].
  rewrite bind_Ok.
  destruct (pow_2 libc (sub (py p) (py q))) as [dy2|]; [|done].
  rewrite bind_Ok.
  assert (sub (S754_infinity s) (S754_infinity s) = S754_nan) as ->
    by by destruct s.
  cbn [pow_2]. rewrite bind_Ok, add_nan_r. by intros [= <-].
Qed.

Lemma endpoint_zs_binary64 (elementLines : list Segment) (z : float) :
  Forall binary64_segment elementLines → z ∈ endpoint_zs elementLines →
  is_binary64 z.
Proof.
  intros Hall (line & Hline & Hz)%elem_of_flat_map.
  rewrite Forall_forall in Hall. destruct (Hall line Hline) as [(_ & _ & H1) (_ & _ & H2)].
  apply elem_of_cons in Hz as [->|Hz]; [done|].
  by apply list_elem_of_singleton in Hz as ->.
Qed.
End midpoint_levels.

Section float_beam_claims.
Import Float64.


(** C10 (as amended).  In binary64 arithmetic, on a non-empty list of
    segments with binary64 coordinates the beam idealizer raises
    [OverflowError] when the computation of the length of a candidate
    overflows, and raises nothing else; when it returns, the result is the
    origin placeholder or joins the midpoints of two top lines, and then
    both its endpoints have a z equal to [z_max], an endpoint z that no
    endpoint z of the input exceeds. *)
Theorem float_idealizeBeam_overflow_origin_or_top_midpoints
    (libc : libm) (elementLines : list Segment) :
  elementLines ≠ [] →
  Forall binary64_segment elementLines →
  ∃ z_max,
    py_max (endpoint_zs elementLines) = Ok z_max
    ∧ is_z_max z_max elementLines
    ∧ (((∃ c, c ∈ candidates (top_lines z_max elementLines)
              ∧ calcLength libc c = Raise OverflowError)
        ∧ idealizeBeam libc elementLines = Raise OverflowError)
       ∨ idealizeBeam libc elementLines = Ok origin_segment
       ∨ ∃ a b r,
           (a ∈ elementLines ∧ feq (pz a.1) z_max ∧ feq (pz a.2) z_max)
           ∧ (b ∈ elementLines ∧ feq (pz b.1) z_max ∧ feq (pz b.2) z_max)
           ∧ r = (calcMidPoint a, calcMidPoint b)
           ∧ idealizeBeam libc elementLines = Ok r
           ∧ feq (pz r.1) z_max ∧ feq (pz r.2) z_max).
Proof.
  intros Hne Hvalid.
  destruct (float_idealizeBeam_cases libc _ Hne)
    as (z_max & Hmax & Hz & _ & [?|[[_ ?]|(r & Hr & Hpos & Hfirst)]]);
    exists z_max; (split; [done|]); (split; [done|]); [by left|right; by left|].
  right. right.
  apply float_first_longest_elem, float_elem_of_candidates in Hfirst
    as (i & j & a & b & _ & Ha & Hb & ->).
  apply list_elem_of_lookup_2, float_elem_of_top_lines in Ha, Hb.
  exists a, b, (calcMidPoint a, calcMidPoint b).
  split; [done|]. split; [done|]. split; [done|]. split; [done|].
  destruct Ha as (_ & Ha1 & Ha2), Hb as (_ & Hb1 & Hb2).
  destruct (midpoint_level z_max) as [Hlevel|[s Hinf]].
  { eapply endpoint_zs_binary64; [done|]. by destruct Hz. }
  - split; by apply Hlevel.
  - destruct Hpos as (len & Hlen & Hgt). exfalso.
    apply (calcLength_infinite_level libc _ _ s) in Hlen.
    + by apply fgt_not_nan in Hgt as [? _].
    + by apply Hinf.
    + by apply Hinf.
Qed.

(** X1.  In binary64 arithmetic the beam idealizer raises [ValueError]
    exactly on the empty list; on a non-empty list the only exception is
    [OverflowError], raised exactly when the computation of the length of
    a candidate overflows. *)
Theorem float_idealizeBeam_raises
    (libc : libm) (elementLines : list Segment) (e : exn) :
  idealizeBeam libc elementLines = Raise e
  ↔ (elementLines = [] ∧ e = ValueError)
    ∨ (e = OverflowError
       ∧ ∃ z_max c, py_max (endpoint_zs elementLines) = Ok z_max
                    ∧ c ∈ candidates (top_lines z_max elementLines)
                    ∧ calcLength libc c = Raise OverflowError).
Proof.
  destruct elementLines as [|line lines].
  { split.
    - intros [= <-]. by left.
    - intros [[_ ->]|(_ & z_max & c & [=] & _)]. done. }
  destruct (float_idealizeBeam_cases libc (line :: lines))
    as (z_max & Hmax & _ & _ & Hcases); [done|].
  split.
  - intros Hraise. right.
    destruct Hcases as [[(c & Hc & Hlen) Hres]|[[_ Hres]|(r & Hres & _)]];
      [|congruence..].
    split; [congruence|]. by exists z_max, c.
  - intros [[[=] _]|(-> & z & c & Hz & Hc & Hlen)].
    assert (z = z_max) as -> by congruence.
    destruct Hcases as [[_ Hres]|[[Hall Hres]|(r & Hres & _ & Hfirst)]]; [done|..].
    + destruct (Hall c Hc) as (len_c & ? & _). congruence.
    + destruct Hfirst as (pre & post & len_r & Hcands & Hr & Hpre & Hpost).
      rewrite Hcands in Hc. rewrite Forall_forall in Hpre, Hpost.
      apply elem_of_app in Hc as [Hc|[->|Hc]%elem_of_cons].
      * destruct (Hpre c Hc) as (? & ? & _). congruence.
      * congruence.
      * destruct (Hpost c Hc) as (? & ? & _). congruence.
Qed.
End float_beam_claims.

Section float_beam_examples.
Import Float64.


Example float_idealizeBeam_two_top_lines :
  idealizeBeam nearest
    [(pt 0 0 0, pt 4 0 0); top_line_a; (pt 0 0 0, pt 0 0 10);
     (pt 0 2 0, pt 4 2 0); top_line_b]
  = Ok (pt 2 0 10, pt 2 2 10).
Proof. by_evaluation. Qed.


Lemma float_idealizeBeam_overflow_origin_or_top_midpoints_witness :
  let elementLines :=
    [(pt 0 0 0, pt 4 0 0); top_line_a; (pt 0 0 0, pt 0 0 10);
     (pt 0 2 0, pt 4 2 0); top_line_b] in
  elementLines ≠ [] ∧ Forall binary64_segment elementLines ∧
  ∃ z_max,
    py_max (endpoint_zs elementLines) = Ok z_max
    ∧ is_z_max z_max elementLines
    ∧ (((∃ c, c ∈ candidates (top_lines z_max elementLines)
              ∧ calcLength nearest c = Raise OverflowError)
        ∧ idealizeBeam nearest elementLines = Raise OverflowError)
       ∨ idealizeBeam nearest elementLines = Ok origin_segment
       ∨ ∃ a b r,
           (a ∈ elementLines ∧ feq (pz a.1) z_max ∧ feq (pz a.2) z_max)
           ∧ (b ∈ elementLines ∧ feq (pz b.1) z_max ∧ feq (pz b.2) z_max)
           ∧ r = (calcMidPoint a, calcMidPoint b)
           ∧ idealizeBeam nearest elementLines = Ok r
           ∧ feq (pz r.1) z_max ∧ feq (pz r.2) z_max).
Proof.
  intros elementLines.
  assert (Forall binary64_segment elementLines) as Hvalid by by_evaluation.
  split; [discriminate|]. split; [exact Hvalid|].
  apply float_idealizeBeam_overflow_origin_or_top_midpoints;
    [discriminate|exact Hvalid].
Defined.

(** C10 (counterexample).  The beam idealizer is not total on non-empty
    lists: on a beam 2^600 long, whose two top lines lie 2^600 apart, the
    square of the distance of their midpoints exceeds the range of binary64
    and the call raises [OverflowError]. *)
Lemma float_idealizeBeam_long_beam_raises :
  long_beam ≠ []
  ∧ Forall binary64_segment long_beam
  ∧ idealizeBeam nearest long_beam = Raise OverflowError.
Proof. split; [discriminate|]. split; by_evaluation. Qed.
End float_beam_examples.

(** ** When the beam idealizer returns the placeholder *)

Section float_beam_origin.
Import Float64.
Variable libc : libm.

(** [x - x] is a zero, or NaN when [x] is not finite. *)
Lemma sub_diag (x : float) : sub x x = S754_nan ∨ ∃ s, sub x x = S754_zero s.
Proof.
  destruct x as [s|s| |s m e].
  - right. destruct s; by eexists.
  - left. by destruct s.
  - by left.
  - right. unfold sub, SFsub. rewrite Z.sub_diag. by eexists.
Qed.

Lemma pow_2_diag (x : float) :
  pow_2 libc (sub x x) = Ok S754_nan ∨ pow_2 libc (sub x x) = Ok (S754_zero false).
Proof. destruct (sub_diag x) as [->|[s ->]]; [by left|by right]. Qed.

(** The computed length of a segment from a point to itself is zero or
    NaN. *)
Lemma calcLength_diag (p : Point3) :
  ∃ len, calcLength libc (p, p) = Ok len ∧ ¬ fgt len (S754_zero false).
Proof.
  unfold calcLength. cbn [fst snd].
  destruct (pow_2_diag (px p)) as [->| ->], (pow_2_diag (py p)) as [->| ->],
    (pow_2_diag (pz p)) as [->| ->]; rewrite !bind_Ok; eexists; split;
    try reflexivity; by_evaluation.
Qed.
End float_beam_origin.

Section float_beam_origin_claims.
Import Float64.

(** X5.  In binary64 arithmetic the beam idealizer returns the origin
    placeholder exactly when the length of every candidate is computed and
    none is above zero; this is so when there is at most one top line. *)
Theorem float_idealizeBeam_origin_iff
    (libc : libm) (elementLines : list Segment) (z_max : float) :
  py_max (endpoint_zs elementLines) = Ok z_max →
  (idealizeBeam libc elementLines = Ok origin_segment
   ↔ ∀ c, c ∈ candidates (top_lines z_max elementLines) →
          ∃ len_c, calcLength libc c = Ok len_c ∧ ¬ fgt len_c (S754_zero false))
  ∧ (length (top_lines z_max elementLines) ≤ 1 →
     idealizeBeam libc elementLines = Ok origin_segment).
Proof.
  intros Hmax.
  assert (elementLines ≠ []) as Hne by (by intros ->).
  destruct (float_idealizeBeam_cases libc _ Hne) as (z & Hz & _ & _ & Hcases).
  assert (z = z_max) as -> by congruence.
  assert (idealizeBeam libc elementLines = Ok origin_segment
   ↔ ∀ c, c ∈ candidates (top_lines z_max elementLines) →
          ∃ len_c, calcLength libc c = Ok len_c ∧ ¬ fgt len_c (S754_zero false))
    as Hiff.
  { split.
    - intros Hres.
      destruct Hcases as [[_ ?]|[[Hall _]|(r & Hr & Hpos & _)]];
        [congruence|done|].
      assert (r = origin_segment) as -> by congruence.
      destruct Hpos as (len & Hlen & Hgt).
      rewrite float_calcLength_origin in Hlen. injection Hlen as <-.
      by apply fgt_irrefl in Hgt.
    - intros Hall.
      destruct Hcases as [[(c & Hc & Hraise) _]|[[_ ?]|(r & Hr & Hpos & Hfirst)]];
        [|done|].
      + destruct (Hall c Hc) as (? & ? & _). congruence.
      + apply float_first_longest_elem in Hfirst.
        destruct (Hall r Hfirst) as (len & Hlen & Hle).
        destruct Hpos as (len' & Hlen' & Hgt). congruence. }
  split; [exact Hiff|].
  intros Hlen. apply Hiff. intros c.
  destruct (top_lines z_max elementLines) as [|t [|t' tops]];
    cbn [candidates map app length] in *; [by intros ?%elem_of_nil| |lia].
  intros ->%list_elem_of_singleton. apply calcLength_diag.
Qed.
End float_beam_origin_claims.

Section float_beam_origin_examples.
Import Float64.

Lemma float_idealizeBeam_origin_iff_witness :
  let elementLines := [(pt 0 0 0, pt 4 0 0); top_line_a; (pt 0 0 0, pt 0 0 10)] in
  py_max (endpoint_zs elementLines) = Ok (of_int 10)
  ∧ (idealizeBeam nearest elementLines = Ok origin_segment
     ↔ ∀ c, c ∈ candidates (top_lines (of_int 10) elementLines) →
            ∃ len_c, calcLength nearest c = Ok len_c
                     ∧ ¬ fgt len_c (S754_zero false))
  ∧ (length (top_lines (of_int 10) elementLines) ≤ 1 →
     idealizeBeam nearest elementLines = Ok origin_segment).
Proof.
  intros elementLines.
  assert (py_max (endpoint_zs elementLines) = Ok (of_int 10)) as H by by_evaluation.
  split; [exact H|].
  exact (float_idealizeBeam_origin_iff nearest elementLines (of_int 10) H).
Defined.
End float_beam_origin_examples.

(** ** The column idealizer in binary64 arithmetic *)

Section float_column.
Import Float64.

Lemma float_idealizeColumn_steps (elementLines : list Segment) :
  idealizeColumn elementLines =
  let '(interestingLines, zs) :=
    foldl column_collect_step ([], []) elementLines in
  '(topLines, bottomLines) ←
    foldM (column_split_step zs) ([], []) interestingLines;
  bottom ← calcAvgPoint bottomLines;
  top ← calcAvgPoint topLines;
  Ok (bottom, top).
Proof. reflexivity. Qed.

Lemma float_column_first_loop
    (elementLines interestingLines : list Segment) (zs : list float) :
  foldl column_collect_step (interestingLines, zs) elementLines
  = (interestingLines ++ horizontals elementLines,
     distinct_levels zs (horizontals elementLines)).
Proof.
  unfold horizontals, distinct_levels. revert interestingLines zs.
  induction elementLines as [|line lines IH]; intros il zs; cbn [foldl].
  { by rewrite filter_nil, (right_id_L [] (++)). }
  rewrite filter_cons. unfold column_collect_step at 2. cbv beta iota.
  destruct (decide (feq (pz line.1) (pz line.2))).
  - rewrite IH. cbn [foldl]. by rewrite <-(assoc_L (++)).
  - apply IH.
Qed.

Lemma float_column_second_loop (zs : list float) (z_top : float)
    (interestingLines topLines bottomLines : list Segment) :
  py_max zs = Ok z_top →
  foldM (column_split_step zs) (topLines, bottomLines) interestingLines
  = Ok (topLines ++ filter (λ line, feq (pz line.1) z_top) interestingLines,
        bottomLines ++ filter (λ line, ¬ feq (pz line.1) z_top) interestingLines).
Proof.
  intros Hmax. revert topLines bottomLines.
  induction interestingLines as [|line lines IH]; intros tl bl.
  { cbn [foldM]. by rewrite !filter_nil, !(right_id_L [] (++)). }
  rewrite foldM_cons. unfold column_split_step at 2. cbv beta iota.
  rewrite Hmax, bind_Ok, !filter_cons.
  destruct (decide (feq (pz line.1) z_top)) as [Heq|Hne].
  - rewrite bind_Ok, IH, decide_False by (by intros ?).
    by rewrite <-(assoc_L (++)).
  - rewrite bind_Ok, IH, decide_True by done.
    by rewrite <-(assoc_L (++)).
Qed.

Lemma float_elem_of_horizontals (lines : list Segment) (s : Segment) :
  s ∈ horizontals lines ↔ s ∈ lines ∧ feq (pz s.1) (pz s.2).
Proof. unfold horizontals. rewrite list_elem_of_filter. tauto. Qed.

Lemma horizontal_level_not_nan (lines : list Segment) (s : Segment) :
  s ∈ horizontals lines → ¬ is_nan (pz s.1).
Proof. intros [_ Hs]%float_elem_of_horizontals. by apply feq_not_nan in Hs as [? _]. Qed.

(** Every collected level is the level of a line. *)
Lemma float_distinct_levels_elem (zs : list float) (lines : list Segment) (z : float) :
  z ∈ distinct_levels zs lines → z ∈ zs ∨ ∃ s, s ∈ lines ∧ pz s.1 = z.
Proof.
  unfold distinct_levels. revert zs.
  induction lines as [|line lines IH]; intros zs; cbn [foldl]; [by left|].
  intros [Hz|(s & Hs & <-)]%IH.
  - case_decide; [by left|].
    apply elem_of_app in Hz as [Hz|Hz%list_elem_of_singleton]; [by left|].
    right. exists line. split; [left|done].
  - right. exists s. split; [by right|done].
Qed.

Lemma float_distinct_levels_mono (zs : list float) (lines : list Segment) (z : float) :
  z ∈ zs → z ∈ distinct_levels zs lines.
Proof.
  unfold distinct_levels. revert zs.
  induction lines as [|line lines IH]; intros zs Hz; cbn [foldl]; [done|].
  apply IH. case_decide; [done|]. apply elem_of_app. by left.
Qed.

(** The level of every line equals a collected level. *)
Lemma float_distinct_levels_cover (zs : list float) (lines : list Segment) (s : Segment) :
  s ∈ lines → ¬ is_nan (pz s.1) →
  ∃ z, z ∈ distinct_levels zs lines ∧ feq (pz s.1) z.
Proof.
  unfold distinct_levels. revert zs.
  induction lines as [|line lines IH]; intros zs; [by intros ?%elem_of_nil|].
  intros [->|Hs]%elem_of_cons Hnan; cbn [foldl]; [|by apply IH].
  destruct (decide (Exists (feq (pz line.1)) zs)) as [Hex|Hex].
  - apply Exists_exists in Hex as (z & Hz & Heq). exists z.
    split; [|done]. by apply float_distinct_levels_mono.
  - exists (pz line.1). split; [|by apply feq_refl].
    apply float_distinct_levels_mono, elem_of_app. right. left.
Qed.

(** The maximum of the collected levels is equal to every top level. *)
Lemma float_py_max_distinct_levels (elementLines : list Segment) (z_top : float) :
  is_top_level z_top elementLines →
  ∃ best, py_max (distinct_levels [] (horizontals elementLines)) = Ok best
          ∧ feq best z_top.
Proof.
  intros [(s0 & Hs0 & Hz0) Hall].
  pose proof (horizontal_level_not_nan _ _ Hs0) as Hnan0.
  destruct (float_distinct_levels_cover [] _ _ Hs0 Hnan0) as (z0 & Hz0in & Hz0eq).
  destruct (py_max_float_spec (distinct_levels [] (horizontals elementLines)))
    as (best & Hbest & Hin & Hmax).
  { intros Hnil. rewrite Hnil in Hz0in. by apply elem_of_nil in Hz0in. }
  exists best. split; [done|].
  apply float_distinct_levels_elem in Hin as [[]%elem_of_nil|(s & Hs & <-)].
  pose proof (horizontal_level_not_nan _ _ Hs) as Hnan.
  subst z_top.
  destruct (float_trichotomy (pz s.1) (pz s0.1)) as [Hgt|[?|Hgt]]; [done..| |done|].
  - by apply Hall in Hgt.
  - exfalso. apply (Hmax z0 Hz0in). by eapply fgt_feq.
Qed.

Lemma float_idealizeColumn_partitions (elementLines : list Segment) (z_top : float) :
  is_top_level z_top elementLines →
  idealizeColumn elementLines =
  bottom ← calcAvgPoint (bottom_partition z_top elementLines);
  top ← calcAvgPoint (top_partition z_top elementLines);
  Ok (bottom, top).
Proof.
  intros Htop.
  rewrite float_idealizeColumn_steps, (float_column_first_loop elementLines [] []).
  cbn [app].
  destruct (float_py_max_distinct_levels _ _ Htop) as (best & Hmax & Heq).
  rewrite (float_column_second_loop _ best _ [] [] Hmax), bind_Ok. cbn [app].
  assert (∀ line : Segment, feq (pz line.1) best ↔ feq (pz line.1) z_top) as Hiff.
  { intros line. split; intros H.
    - by eapply feq_trans.
    - eapply feq_trans; [done|]. by apply feq_sym. }
  unfold bottom_partition, top_partition.
  rewrite (list_filter_iff _ (λ line, feq (pz line.1) z_top)) by done.
  rewrite (list_filter_iff (λ line, ¬ feq (pz line.1) best)
             (λ line, ¬ feq (pz line.1) z_top)); [done|].
  intros line. by rewrite Hiff.
Qed.

Lemma float_calcAvgPoint_sums (lines : list Segment) (x0 y0 z0 : float) :
  foldl (λ '(x_avg, y_avg, z_avg) line,
           (add x_avg (add (px line.1) (px line.2)),
            add y_avg (add (py line.1) (py line.2)),
            add z_avg (add (pz line.1) (pz line.2))))
        (x0, y0, z0) lines
  = (foldl add x0 ((λ line, add (px line.1) (px line.2)) <$> lines),
     foldl add y0 ((λ line, add (py line.1) (py line.2)) <$> lines),
     foldl add z0 ((λ line, add (pz line.1) (pz line.2)) <$> lines)).
Proof.
  revert x0 y0 z0. induction lines as [|line lines IH]; intros x0 y0 z0; [done|].
  cbn [foldl fmap list_fmap]. apply IH.
Qed.

Lemma float_calcAvgPoint_nil : calcAvgPoint [] = Raise ZeroDivisionError.
Proof. reflexivity. Qed.

Lemma float_calcAvgPoint_average (lines : list Segment) :
  lines ≠ [] → calcAvgPoint lines = Ok (average_point lines).
Proof.
  intros Hne. unfold calcAvgPoint. rewrite float_calcAvgPoint_sums.
  unfold py_div. destruct (decide (length lines * 2 = 0)) as [Hlen|Hlen].
  { destruct lines; [done|]. cbn [length] in Hlen. lia. }
  by rewrite !bind_Ok.
Qed.

Lemma float_calcAvgPoint_Raise (lines : list Segment) (e : exn) :
  calcAvgPoint lines = Raise e → e = ZeroDivisionError.
Proof.
  destruct lines as [|line lines].
  - rewrite float_calcAvgPoint_nil. by intros [= <-].
  - by rewrite (float_calcAvgPoint_average (line :: lines)).
Qed.

(** The exceptions of the column idealizer. *)
Lemma float_idealizeColumn_Raise (elementLines : list Segment) (e : exn) :
  idealizeColumn elementLines = Raise e → e = ZeroDivisionError.
Proof.
  rewrite float_idealizeColumn_steps, (float_column_first_loop elementLines [] []).
  cbn [app].
  destruct (py_max (distinct_levels [] (horizontals elementLines)))
    as [best|e'] eqn:Hmax.
  - rewrite (float_column_second_loop _ best _ [] [] Hmax), bind_Ok. cbn [app].
    destruct (calcAvgPoint (filter (λ line, ¬ feq (pz line.1) best) _))
      as [bottom|e1] eqn:Hb;
      [|intros [= <-]; by eapply float_calcAvgPoint_Raise].
    rewrite bind_Ok.
    destruct (calcAvgPoint (filter (λ line, feq (pz line.1) best) _))
      as [top|e2] eqn:Ht; [done|].
    intros [= <-]. by eapply float_calcAvgPoint_Raise.
  - apply py_max_float_Raise in Hmax as [Hnil ->].
    destruct (horizontals elementLines) as [|h hs] eqn:Hh.
    { cbn [foldM]. rewrite bind_Ok, float_calcAvgPoint_nil. by intros [= <-]. }
    exfalso. unfold distinct_levels in Hnil. cbn [foldl] in Hnil.
    rewrite decide_False in Hnil by (by intros ?%Exists_nil).
    assert (pz h.1 ∈ distinct_levels ([] ++ [pz h.1]) hs) as Hin.
    { apply float_distinct_levels_mono. cbn. left. }
    unfold distinct_levels in Hin. rewrite Hnil in Hin. by apply elem_of_nil in Hin.
Qed.
End float_column.

Section float_column_claims.
Import Float64.

(** C4 (as amended).  In binary64 arithmetic, when the horizontal segments
    split into a non-empty top partition (those at a level that no
    horizontal level exceeds) and a non-empty bottom partition (all the
    others), the column idealizer returns the segment from the average point
    of the bottom partition to that of the top partition; each coordinate
    of an average point is the floating-point sum, taken in the order of
    the segments, of the sums of the two endpoint coordinates of every
    segment, divided by twice the number of segments.  With bottom segment
    ((0,0,0),(2,0,0)) and top segment ((0,0,5),(2,0,5)) the result is
    ((1,0,0),(1,0,5)). *)
Theorem float_idealizeColumn_average (elementLines : list Segment) (z_top : float) :
  is_top_level z_top elementLines →
  top_partition z_top elementLines ≠ [] →
  bottom_partition z_top elementLines ≠ [] →
  idealizeColumn elementLines =
    Ok (average_point (bottom_partition z_top elementLines),
        average_point (top_partition z_top elementLines))
  ∧ (∀ coord lines,
       average_coordinate coord lines
       = div (foldl add (S754_zero false)
                    ((λ line, add (coord line.1) (coord line.2)) <$> lines))
             (of_int (2 * Z.of_nat (length lines))))
  ∧ (bottom_partition z_top elementLines = [bottom_ring] →
     top_partition z_top elementLines = [top_ring] →
     idealizeColumn elementLines = Ok (pt 1 0 0, pt 1 0 5)).
Proof.
  intros Htop Hne_top Hne_bottom.
  assert (idealizeColumn elementLines =
    Ok (average_point (bottom_partition z_top elementLines),
        average_point (top_partition z_top elementLines))) as Hres.
  { rewrite (float_idealizeColumn_partitions _ _ Htop).
    by rewrite !float_calcAvgPoint_average, !bind_Ok by done. }
  split; [exact Hres|]. split.
  - intros coord lines. unfold average_coordinate, float_sum.
    do 2 f_equal. lia.
  - intros Hb Ht. rewrite Hres, Hb, Ht. by_evaluation.
Qed.
End float_column_claims.

Section float_column_examples.
Import Float64.

Lemma float_idealizeColumn_average_witness :
  let elementLines :=
    [bottom_ring; (pt 0 0 0, pt 0 0 5); top_ring; (pt 2 0 0, pt 2 0 5)] in
  is_top_level (of_int 5) elementLines
  ∧ top_partition (of_int 5) elementLines ≠ []
  ∧ bottom_partition (of_int 5) elementLines ≠ []
  ∧ idealizeColumn elementLines =
      Ok (average_point (bottom_partition (of_int 5) elementLines),
          average_point (top_partition (of_int 5) elementLines))
  ∧ (∀ coord lines,
       average_coordinate coord lines
       = div (foldl add (S754_zero false)
                    ((λ line, add (coord line.1) (coord line.2)) <$> lines))
             (of_int (2 * Z.of_nat (length lines))))
  ∧ (bottom_partition (of_int 5) elementLines = [bottom_ring] →
     top_partition (of_int 5) elementLines = [top_ring] →
     idealizeColumn elementLines = Ok (pt 1 0 0, pt 1 0 5)).
Proof.
  intros elementLines.
  assert (is_top_level (of_int 5) elementLines) as H1.
  { split.
    - exists top_ring. split; [|done]. by_evaluation.
    - intros s [Hs _]%float_elem_of_horizontals. revert s Hs.
      apply Forall_forall. repeat constructor; by_evaluation. }
  assert (top_partition (of_int 5) elementLines ≠ []) as H2 by by_evaluation.
  assert (bottom_partition (of_int 5) elementLines ≠ []) as H3 by by_evaluation.
  split; [exact H1|]. split; [exact H2|]. split; [exact H3|].
  exact (float_idealizeColumn_average elementLines (of_int 5) H1 H2 H3).
Defined.

(** C4 (counterexample).  The average point is not the arithmetic mean of
    the endpoints.  The bottom segments of [wide_column] have the
    x-coordinates 10^16, 1, -10^16 and 1, of mean 1/2; the sums 10^16 + 1
    and -10^16 + 1 round to 10^16 and -10^16, and the idealizer returns a
    bottom point with x = 0. *)
Lemma float_idealizeColumn_not_the_mean :
  is_top_level (of_int 5) wide_column
  ∧ top_partition (of_int 5) wide_column = [top_ring]
  ∧ bottom_partition (of_int 5) wide_column
    = [((of_int (10 ^ 16), of_int 0, of_int 0), (of_int 1, of_int 0, of_int 0));
       ((of_int (- 10 ^ 16), of_int 0, of_int 0), (of_int 1, of_int 0, of_int 0))]
  ∧ idealizeColumn wide_column = Ok (pt 0 0 0, pt 1 0 5)
  ∧ exact_mean (bottom_partition (of_int 5) wide_column)
    = (Q2Qc (1 # 2), 0%Qc, 0%Qc)
  ∧ exact_point (pt 0 0 0) ≠ exact_mean (bottom_partition (of_int 5) wide_column).
Proof.
  split; [|repeat split; by_evaluation].
  split.
  - exists top_ring. split; [|done]. by_evaluation.
  - intros s [Hs _]%float_elem_of_horizontals. revert s Hs.
    apply Forall_forall. repeat constructor; by_evaluation.
Qed.
End float_column_examples.
